(** * Calculator.c: tokenizer, shunting-yard converter and postfix evaluator

    A shallow embedding of [src/Calculator/code/Calculator.c].  A C [double]
    is a binary64 [float]; a C string is a [string] read up to its first NUL;
    the fixed-size arrays are lists whose stores check the declared capacity;
    the [int *error] out-parameter is a boolean threaded through the calls. *)

From Stdlib Require Import ZArith List String Ascii Bool Lia Floats.
Import ListNotations.

Local Open Scope Z_scope.

(** ** Undefined behaviour *)

(** The ways in which the C program leaves defined behaviour.  [OutOfFuel]
    is not a C behaviour: it marks the exhaustion of the iteration bound of
    [tokenize_loop], which [tokenize] never reaches (lemma
    [tokenize_fuel_enough]). *)
Inductive ub : Type :=
| OutOfBounds    (* a store past the end of a fixed-size array *)
| FloatToInt     (* (int)x for x that is NaN, infinite or outside int *)
| IntOverflow    (* signed int overflow: INT_MIN % -1, INT_MAX + 1 *)
| OutOfFuel.

Inductive outcome (A : Type) : Type :=
| Def (a : A)
| Undef (u : ub).

Arguments Def {A} a.
Arguments Undef {A} u.

Definition bind {A B : Type} (m : outcome A) (k : A -> outcome B) : outcome B :=
  match m with
  | Def a => k a
  | Undef u => Undef u
  end.

Notation "x <- m ;; k" := (bind m (fun x => k))
  (at level 61, m at next level, right associativity).
Notation "' p <- m ;; k" := (bind m (fun x => let 'p := x in k))
  (at level 61, p pattern, m at next level, right associativity).

(** ** Characters and C strings *)

Definition NUL : ascii := Ascii.zero.

(** [*p] and [p + 1] on a NUL-terminated string. *)
Definition deref (p : string) : ascii :=
  match p with
  | EmptyString => NUL
  | String c _ => c
  end.

Definition advance (p : string) : string :=
  match p with
  | EmptyString => EmptyString
  | String _ r => r
  end.

(** <ctype.h> in the "C" locale (the program never calls setlocale), where
    the bytes above 127 belong to no class. *)
Definition isdigit (c : ascii) : bool :=
  let n := nat_of_ascii c in (48 <=? n)%nat && (n <=? 57)%nat.

Definition isalpha (c : ascii) : bool :=
  let n := nat_of_ascii c in
  ((65 <=? n)%nat && (n <=? 90)%nat) || ((97 <=? n)%nat && (n <=? 122)%nat).

Definition isspace (c : ascii) : bool :=
  let n := nat_of_ascii c in
  (n =? 32)%nat || ((9 <=? n)%nat && (n <=? 13)%nat).

(** [strchr("+-*/%^", c) != NULL] for a non-NUL [c]. *)
Definition is_operator_char (c : ascii) : bool :=
  existsb (Ascii.eqb c) ["+"; "-"; "*"; "/"; "%"; "^"]%char.

(** ** Numbers *)

Definition INT_MIN : Z := -2147483648.
Definition INT_MAX : Z := 2147483647.

(** int -> double; exact on every [int]. *)
Definition int_to_double (z : Z) : float :=
  match z with
  | Z0 => 0%float
  | Zpos _ => PrimFloat.of_uint63 (Uint63.of_Z z)
  | Zneg p => (- PrimFloat.of_uint63 (Uint63.of_Z (Zpos p)))%float
  end.

(** The integer obtained by discarding the fractional part of a finite
    double; [None] on NaN and the infinities. *)
Definition truncate (a : float) : option Z :=
  match Prim2SF a with
  | S754_zero _ => Some 0
  | S754_finite s m e =>
      let z := if 0 <=? e then Zpos m * 2 ^ e else Z.quot (Zpos m) (2 ^ (- e)) in
      Some (if s then - z else z)
  | _ => None
  end.

(** The cast [(int)a]: defined only when the truncated value is an [int]. *)
Definition double_to_int (a : float) : outcome Z :=
  match truncate a with
  | Some z => if (INT_MIN <=? z) && (z <=? INT_MAX) then Def z else Undef FloatToInt
  | None => Undef FloatToInt
  end.

(** <math.h> floor. *)
Definition floor (a : float) : float :=
  match Prim2SF a with
  | S754_finite s m e =>
      if e <? 0
      then let q := Z.div (if s then Zneg m else Zpos m) (2 ^ (- e)) in
           if (q =? 0) then 0%float else int_to_double q
      else a
  | _ => a
  end.

(** The value of a decimal literal with digits [m] and [k] of them after
    the point: the double nearest to m / 10^k (round to nearest even). *)
Definition dec_value (m : N) (k : nat) : float :=
  match m with
  | N0 => 0%float
  | Npos p =>
      SF2Prim (SFdiv prec emax (S754_finite false p 0)
                 (S754_finite false (Z.to_pos (10 ^ Z.of_nat k)) 0))
  end.

(** ** The C library behind the calculator

    What <stdio.h> and <math.h> supply and the repository does not define.
    [sqrt], [fabs] and [floor] are fixed by IEEE 754 and modelled exactly;
    the remaining functions are only required to be functions. *)
Record Libm : Type := {
  (** what [sscanf(p, "%lf", &v)] stores when the text at [p] goes on into
      an exponent part or is a hexadecimal constant *)
  sscanf_ext : string -> float;
  pow : float -> float -> float;
  log : float -> float;
  log10 : float -> float;
  exp : float -> float;
  sin : float -> float;
  cos : float -> float;
  tan : float -> float
}.

(** ** Tokens *)

Definition MAX_TOKENS : nat := 100.
Definition MAX_STACK : nat := 100.

Inductive TokenType : Type :=
| NUMBER | OPERATOR | FUNCTION | PAREN_LEFT | PAREN_RIGHT.

(** The struct [Token] read as the tagged union it is used as: every
    reader looks at [value], [op] or [func] only under the matching tag. *)
Inductive Token : Type :=
| Number (value : float)
| Operator (op : ascii)
| Function (func : string)
| ParenLeft
| ParenRight.

Definition type (t : Token) : TokenType :=
  match t with
  | Number _ => NUMBER
  | Operator _ => OPERATOR
  | Function _ => FUNCTION
  | ParenLeft => PAREN_LEFT
  | ParenRight => PAREN_RIGHT
  end.

(** [a[i++] = t] on an array of [cap] elements of which [a] are in use. *)
Definition store {A : Type} (cap : nat) (a : list A) (t : A) : outcome (list A) :=
  if (List.length a <? cap)%nat then Def (a ++ [t])%list else Undef OutOfBounds.

(** ** Helpers of the source *)

Definition precedence (op : ascii) : Z :=
  if (op =? "+")%char || (op =? "-")%char then 1
  else if (op =? "*")%char || (op =? "/")%char || (op =? "%")%char then 2
  else if (op =? "^")%char then 3
  else 0.

Definition is_right_associative (op : ascii) : bool := (op =? "^")%char.

(** 3.14159265358979323846 as a double. *)
Definition M_PI : float := 0x1.921fb54442d18p+1%float.

Definition degrees_to_radians (deg : float) : float :=
  (deg * M_PI / 180)%float.

Fixpoint factorial_loop (k : nat) (i : Z) (res : float) : float :=
  match k with
  | O => res
  | S k' => factorial_loop k' (i + 1) (res * int_to_double i)%float
  end.

(** [for (int i = 2; i <= n; i++) res *= i;] runs n - 1 times; with
    n = INT_MAX the last [i++] overflows. *)
Definition factorial (n : Z) : outcome float :=
  if n <? 0 then Def 0%float
  else if n =? INT_MAX then Undef IntOverflow
  else Def (factorial_loop (Z.to_nat (n - 1)) 2 1%float).

Section Calculator.

Variable libm : Libm.

(** ** tokenize *)

Fixpoint span_digits (p : string) : string * string :=
  match p with
  | String c r =>
      if isdigit c then let '(d, r') := span_digits r in (String c d, r')
      else (EmptyString, p)
  | EmptyString => (EmptyString, EmptyString)
  end.

Definition digit_value (c : ascii) : N := N_of_ascii c - 48.

Fixpoint digits_to_N (acc : N) (d : string) : N :=
  match d with
  | EmptyString => acc
  | String c r => digits_to_N (10 * acc + digit_value c)%N r
  end.

(** The decimal constant at the start of [p]: its integer digits, its
    fraction digits, the text after the integer digits and the text after
    the whole constant. *)
Definition scan_decimal (p : string) : (string * string) * (string * string) :=
  let '(ip, r1) := span_digits p in
  let '(fp, r2) := if (deref r1 =? ".")%char then span_digits (advance r1)
                   else (EmptyString, r1) in
  ((ip, fp), (r1, r2)).

(** The double nearest to the decimal constant at the start of [p]. *)
Definition literal_value (p : string) : float :=
  let '((ip, fp), _) := scan_decimal p in
  dec_value (digits_to_N 0 (ip ++ fp)%string) (String.length fp).

(** The double that the "%lf" conversion stores for the text at [p], which
    starts with a digit or with a point and a digit: the value of the
    longest prefix of the form digits, optional point, digits, unless the
    text goes on into an exponent or starts a hexadecimal constant. *)
Definition sscanf_lf (p : string) : float :=
  let '((ip, _), (r1, r2)) := scan_decimal p in
  let hex := (ip =? "0")%string && ((deref r1 =? "x")%char || (deref r1 =? "X")%char) in
  let expo := (deref r2 =? "e")%char || (deref r2 =? "E")%char in
  if hex || expo then sscanf_ext libm p else literal_value p.

(** [while (isdigit( *p) || *p == '.') p++;] *)
Fixpoint skip_number (p : string) : string :=
  match p with
  | String c r => if isdigit c || (c =? ".")%char then skip_number r else p
  | EmptyString => EmptyString
  end.

(** [while (isalpha( *p)) func[i++] = *p++;]: the letters read and the
    rest of the input. *)
Fixpoint read_alpha (p : string) : string * string :=
  match p with
  | String c r =>
      if isalpha c then let '(f, r') := read_alpha r in (String c f, r')
      else (EmptyString, p)
  | EmptyString => (EmptyString, EmptyString)
  end.

(** One round of the [while ( *p)] loop per unit of fuel.  [None] is the
    return value -1; [Some tokens] is the count and the filled part of the
    array.  [func] has room for nine letters and the terminator. *)
Fixpoint tokenize_loop (fuel : nat) (p : string) (tokens : list Token)
    (last_result : float) : outcome (option (list Token)) :=
  match fuel with
  | O => Undef OutOfFuel
  | S fuel' =>
      let c := deref p in
      if (c =? NUL)%char then Def (Some tokens)
      else if isspace c then tokenize_loop fuel' (advance p) tokens last_result
      else if isdigit c || ((c =? ".")%char && isdigit (deref (advance p))) then
        tokens' <- store MAX_TOKENS tokens (Number (sscanf_lf p)) ;;
        tokenize_loop fuel' (skip_number p) tokens' last_result
      else if isalpha c then
        let '(func, p') := read_alpha p in
        if (10 <=? String.length func)%nat then Undef OutOfBounds
        else
          tokens' <- store MAX_TOKENS tokens
                       (if (func =? "Ans")%string then Number last_result
                        else Function func) ;;
          tokenize_loop fuel' p' tokens' last_result
      else if (c =? "(")%char then
        tokens' <- store MAX_TOKENS tokens ParenLeft ;;
        tokenize_loop fuel' (advance p) tokens' last_result
      else if (c =? ")")%char then
        tokens' <- store MAX_TOKENS tokens ParenRight ;;
        tokenize_loop fuel' (advance p) tokens' last_result
      else if is_operator_char c then
        tokens' <- store MAX_TOKENS tokens (Operator c) ;;
        tokenize_loop fuel' (advance p) tokens' last_result
      else Def None
  end.

Definition tokenize (expr : string) (last_result : float)
    : outcome (option (list Token)) :=
  tokenize_loop (S (String.length expr)) expr [] last_result.

(** ** to_postfix *)

Definition TokenType_eqb (x y : TokenType) : bool :=
  match x, y with
  | NUMBER, NUMBER | OPERATOR, OPERATOR | FUNCTION, FUNCTION
  | PAREN_LEFT, PAREN_LEFT | PAREN_RIGHT, PAREN_RIGHT => true
  | _, _ => false
  end.

(** [stack[stack_i++] = t]; the head of the list is [stack[stack_i - 1]]. *)
Definition push {A : Type} (stack : list A) (t : A) : outcome (list A) :=
  if (List.length stack <? MAX_STACK)%nat then Def (t :: stack) else Undef OutOfBounds.

(** The condition of the [while] of the OPERATOR branch, on the token on
    top of the stack, for the incoming operator [o]. *)
Definition pops_before (o : ascii) (top : Token) : bool :=
  match top with
  | Function _ => true
  | Operator o' =>
      (precedence o' >? precedence o)
      || ((precedence o' =? precedence o) && negb (is_right_associative o))
  | _ => false
  end.

Definition not_paren_left (top : Token) : bool :=
  negb (TokenType_eqb (type top) PAREN_LEFT).

(** [while (stack_i > 0 && cond(stack[stack_i - 1])) out[out_i++] = stack[--stack_i];]
    where [out] is the caller's array of MAX_TOKENS tokens. *)
Fixpoint pop_while (cond : Token -> bool) (stack out : list Token)
    : outcome (list Token * list Token) :=
  match stack with
  | top :: rest =>
      if cond top
      then out' <- store MAX_TOKENS out top ;; pop_while cond rest out'
      else Def (stack, out)
  | [] => Def (stack, out)
  end.

(** The final [while (stack_i > 0)]. *)
Fixpoint drain (stack out : list Token) : outcome (option (list Token)) :=
  match stack with
  | [] => Def (Some out)
  | top :: rest =>
      if TokenType_eqb (type top) PAREN_LEFT then Def None
      else out' <- store MAX_TOKENS out top ;; drain rest out'
  end.

Fixpoint to_postfix_loop (input stack out : list Token)
    : outcome (option (list Token)) :=
  match input with
  | [] => drain stack out
  | t :: rest =>
      match t with
      | Number _ =>
          out' <- store MAX_TOKENS out t ;;
          to_postfix_loop rest stack out'
      | Function _ =>
          stack' <- push stack t ;;
          to_postfix_loop rest stack' out
      | Operator o =>
          '(stack', out') <- pop_while (pops_before o) stack out ;;
          stack'' <- push stack' t ;;
          to_postfix_loop rest stack'' out'
      | ParenLeft =>
          stack' <- push stack t ;;
          to_postfix_loop rest stack' out
      | ParenRight =>
          '(stack', out') <- pop_while not_paren_left stack out ;;
          match stack' with
          | [] => Def None
          | _ :: stack'' =>
              match stack'' with
              | Function f :: stack3 =>
                  out'' <- store MAX_TOKENS out' (Function f) ;;
                  to_postfix_loop rest stack3 out''
              | _ => to_postfix_loop rest stack'' out'
              end
          end
      end
  end.

(** [to_postfix(in, n, out)] with [input] the first [n] tokens of [in]:
    [None] is -1, [Some out] the count and the filled part of [out]. *)
Definition to_postfix (input : list Token) : outcome (option (list Token)) :=
  to_postfix_loop input [] [].

(** ** apply_operator, apply_function *)

Definition apply_operator (op : ascii) (a b : float) (error : bool)
    : outcome (float * bool) :=
  if (op =? "+")%char then Def ((a + b)%float, error)
  else if (op =? "-")%char then Def ((a - b)%float, error)
  else if (op =? "*")%char then Def ((a * b)%float, error)
  else if (op =? "/")%char then
    if (b =? 0)%float then Def (0%float, true) else Def ((a / b)%float, error)
  else if (op =? "%")%char then
    ib <- double_to_int b ;;
    if ib =? 0 then Def (0%float, true)
    else
      ia <- double_to_int a ;;
      if (ia =? INT_MIN) && (ib =? -1) then Undef IntOverflow
      else Def (int_to_double (Z.rem ia ib), error)
  else if (op =? "^")%char then Def (pow libm a b, error)
  else Def (0%float, true).

Definition apply_function (func : string) (a : float) (error : bool)
    : outcome (float * bool) :=
  if (func =? "sqrt")%string then
    if (a <? 0)%float then Def (0%float, true) else Def (PrimFloat.sqrt a, error)
  else if (func =? "abs")%string then Def (PrimFloat.abs a, error)
  else if (func =? "ln")%string then
    if (a <=? 0)%float then Def (0%float, true) else Def (log libm a, error)
  else if (func =? "log")%string then
    if (a <=? 0)%float then Def (0%float, true) else Def (log10 libm a, error)
  else if (func =? "exp")%string then Def (exp libm a, error)
  else if (func =? "fact")%string then
    if (a <? 0)%float || negb (floor a =? a)%float then Def (0%float, true)
    else n <- double_to_int a ;; r <- factorial n ;; Def (r, error)
  else if (func =? "sin")%string then Def (sin libm (degrees_to_radians a), error)
  else if (func =? "cos")%string then Def (cos libm (degrees_to_radians a), error)
  else if (func =? "tan")%string then Def (tan libm (degrees_to_radians a), error)
  else Def (0%float, true).

(** ** eval_postfix *)

(** The head of [stack] is [stack[top - 1]]. *)
Fixpoint eval_postfix_loop (tokens : list Token) (stack : list float)
    (error : bool) : outcome (float * bool) :=
  match tokens with
  | [] =>
      match stack with
      | [v] => Def (v, error)
      | _ => Def (0%float, true)
      end
  | t :: rest =>
      match t with
      | Number value =>
          stack' <- push stack value ;;
          eval_postfix_loop rest stack' error
      | Operator op =>
          match stack with
          | b :: a :: stack' =>
              '(r, error') <- apply_operator op a b error ;;
              eval_postfix_loop rest (r :: stack') error'
          | _ => Def (0%float, true)
          end
      | Function func =>
          match stack with
          | a :: stack' =>
              '(r, error') <- apply_function func a error ;;
              eval_postfix_loop rest (r :: stack') error'
          | _ => Def (0%float, true)
          end
      | _ => eval_postfix_loop rest stack error
      end
  end.

Definition eval_postfix (tokens : list Token) (error : bool)
    : outcome (float * bool) :=
  eval_postfix_loop tokens [] error.

(** ** evaluate_expression *)

Definition evaluate_expression (expr : string) (last_result : float)
    (error : bool) : outcome (float * bool) :=
  ntokens <- tokenize expr last_result ;;
  match ntokens with
  | None => Def (0%float, true)
  | Some tokens =>
      npost <- to_postfix tokens ;;
      match npost with
      | None => Def (0%float, true)
      | Some postfix => eval_postfix postfix error
      end
  end.

End Calculator.

(** ** Arithmetic expressions

    Expression trees, their infix token sequence and their postfix form. *)

Inductive expr : Type :=
| Lit (v : float)
| Bin (op : ascii) (l r : expr)
| Par (e : expr).

Fixpoint infix (e : expr) : list Token :=
  match e with
  | Lit v => [Number v]
  | Bin op l r => infix l ++ Operator op :: infix r
  | Par e => ParenLeft :: infix e ++ [ParenRight]
  end.

(** Post-order traversal: the postfix form of the tree. *)
Fixpoint postfix (e : expr) : list Token :=
  match e with
  | Lit v => [Number v]
  | Bin op l r => postfix l ++ postfix r ++ [Operator op]
  | Par e => postfix e
  end.

(** Binding strength of the outermost construct: literals and parenthesised
    expressions bind tighter than every operator. *)
Definition level (e : expr) : Z :=
  match e with
  | Bin op _ _ => precedence op
  | _ => 4
  end.

(** [e] is the tree that the precedence table and the associativity rules
    assign to [infix e]: an operand written without parentheses binds at
    least as tightly as its operator, and strictly tighter on the side away
    from which the operator associates. *)
Fixpoint well_formed (e : expr) : bool :=
  match e with
  | Lit _ => true
  | Par e => well_formed e
  | Bin op l r =>
      is_operator_char op && well_formed l && well_formed r
      && (if is_right_associative op
          then (precedence op <? level l) && (precedence op <=? level r)
          else (precedence op <=? level l) && (precedence op <? level r))
  end.

(** What the evaluator computes along the tree: [apply_operator] at every
    node, left operand first, the error flag threaded through.  It is the
    code's own arithmetic, used to follow [eval_postfix]; the arithmetic
    the calculator is compared with is [direct_value] below. *)
Fixpoint eval_expr (libm : Libm) (e : expr) (error : bool)
    : outcome (float * bool) :=
  match e with
  | Lit v => Def (v, error)
  | Par e => eval_expr libm e error
  | Bin op l r =>
      '(a, error1) <- eval_expr libm l error ;;
      '(b, error2) <- eval_expr libm r error1 ;;
      apply_operator libm op a b error2
  end.

(** ** Direct arithmetic evaluation

    The arithmetic of the specification, written from its table of
    operators and not from [apply_operator]: a value or a failure, on
    mathematical integers where the table says "integer semantics". *)

(** The integer [z] as a double: [z] itself when it is one (every integer
    below 2^53 in magnitude is), the nearest double otherwise. *)
Definition integer_to_double (z : Z) : float :=
  SF2Prim (binary_normalize prec emax z 0 false).

(** The table: a+b, a-b, a*b; a/b, failing when b == 0; the remainder of
    truncate(a) by truncate(b) as integers (sign of the dividend), failing
    when truncate(b) is 0; a to the power b.  [None] is failure. *)
Definition direct_operator (libm : Libm) (op : ascii) (a b : float)
    : option float :=
  if (op =? "+")%char then Some (a + b)%float
  else if (op =? "-")%char then Some (a - b)%float
  else if (op =? "*")%char then Some (a * b)%float
  else if (op =? "/")%char then
    if (b =? 0)%float then None else Some (a / b)%float
  else if (op =? "%")%char then
    match truncate a, truncate b with
    | Some x, Some y =>
        if y =? 0 then None else Some (integer_to_double (Z.rem x y))
    | _, _ => None
    end
  else if (op =? "^")%char then Some (pow libm a b)
  else None.

(** The value of an expression tree: its operands first, then its
    operator; a failure anywhere is the failure of the whole. *)
Fixpoint direct_value (libm : Libm) (e : expr) : option float :=
  match e with
  | Lit v => Some v
  | Par e => direct_value libm e
  | Bin op l r =>
      match direct_value libm l, direct_value libm r with
      | Some a, Some b => direct_operator libm op a b
      | _, _ => None
      end
  end.

(** The operands [a] and [b] of a remainder truncate to values of the C
    type [int], other than the pair INT_MIN, -1. *)
Definition int_operands (a b : float) : bool :=
  match truncate a, truncate b with
  | Some x, Some y =>
      (INT_MIN <=? x) && (x <=? INT_MAX) && (INT_MIN <=? y) && (y <=? INT_MAX)
      && negb ((x =? INT_MIN) && (y =? -1))
  | _, _ => false
  end.

(** Every remainder in [e] is taken of such operands. *)
Fixpoint remainders_in_int (libm : Libm) (e : expr) : bool :=
  match e with
  | Lit _ => true
  | Par e => remainders_in_int libm e
  | Bin op l r =>
      remainders_in_int libm l && remainders_in_int libm r
      && (if (op =? "%")%char
          then match direct_value libm l, direct_value libm r with
               | Some a, Some b => int_operands a b
               | _, _ => true
               end
          else true)
  end.

(** Parenthesis depth: [balanced] holds when no right parenthesis comes
    without an open left one and none is left open at the end. *)
Fixpoint balanced_from (depth : nat) (ts : list Token) : bool :=
  match ts with
  | [] => (depth =? 0)%nat
  | ParenLeft :: r => balanced_from (S depth) r
  | ParenRight :: r =>
      match depth with
      | O => false
      | S d => balanced_from d r
      end
  | _ :: r => balanced_from depth r
  end.

Definition balanced (ts : list Token) : bool := balanced_from 0 ts.

(** ** Inputs used in the statements *)

Fixpoint string_forallb (f : ascii -> bool) (s : string) : bool :=
  match s with
  | EmptyString => true
  | String c r => f c && string_forallb f r
  end.

Fixpoint count_points (s : string) : nat :=
  match s with
  | EmptyString => O
  | String c r => ((if (c =? ".")%char then 1 else 0) + count_points r)%nat
  end.

Definition digit_or_point (c : ascii) : bool := isdigit c || (c =? ".")%char.

(** The test that opens the NUMBER branch of [tokenize]. *)
Definition starts_number (p : string) : bool :=
  isdigit (deref p)
  || ((deref p =? ".")%char && isdigit (deref (advance p))).

(** A numeric literal: a run of digits with at most one decimal point that
    starts with a digit or with a point and a digit. *)
Definition numeric_literal (x : string) : bool :=
  starts_number x
  && string_forallb digit_or_point x
  && (count_points x <=? 1)%nat.

(** The registry of [apply_function]. *)
Definition registry : list string :=
  ["sqrt"; "abs"; "ln"; "log"; "exp"; "fact"; "sin"; "cos"; "tan"]%string.

Fixpoint repeat_char (n : nat) (c : ascii) : string :=
  match n with
  | O => EmptyString
  | S n' => String c (repeat_char n' c)
  end.

(** An instance of the library interface on which the model can be run.
    Its [pow] multiplies out integer exponents, which is exact whenever the
    power is representable; entries that no example calls answer NaN. *)
Fixpoint pow_nat (a : float) (n : nat) : float :=
  match n with
  | O => 1%float
  | S n' => (a * pow_nat a n')%float
  end.

Definition sample_pow (a b : float) : float :=
  match double_to_int b with
  | Def n =>
      if (int_to_double n =? b)%float
      then if 0 <=? n then pow_nat a (Z.to_nat n)
           else (1 / pow_nat a (Z.to_nat (- n)))%float
      else nan
  | Undef _ => nan
  end.

Definition sample_libm : Libm := {|
  sscanf_ext := fun _ => nan;
  pow := sample_pow;
  log := fun _ => nan;
  log10 := fun _ => nan;
  exp := fun _ => nan;
  sin := fun _ => nan;
  cos := fun _ => nan;
  tan := fun _ => nan
|}.


(** ** The state of the converter after an expression

    What [to_postfix] has written to [out], and what it still holds on its
    stack (top first), once it has read [infix e]. *)
Fixpoint emitted (e : expr) : list Token :=
  match e with
  | Lit v => [Number v]
  | Bin op l r => postfix l ++ emitted r
  | Par e => postfix e
  end.

Fixpoint pending (e : expr) : list Token :=
  match e with
  | Bin op l r => pending r ++ [Operator op]
  | _ => []
  end.

(** The top of [stack] stays where it is while an expression of level [l]
    is read: the stack is empty, or its top is a left parenthesis, or an
    operator that no operator of precedence [l] or more pops. *)
Definition holds_below (stack : list Token) (l : Z) : Prop :=
  match stack with
  | [] => True
  | ParenLeft :: _ => True
  | Operator o' :: _ =>
      forall o, is_operator_char o = true -> l <= precedence o ->
                pops_before o (Operator o') = false
  | _ => False
  end.

Definition is_paren_left (t : Token) : bool :=
  TokenType_eqb (type t) PAREN_LEFT.

(** The number of left parentheses held on the operator stack. *)
Definition open_parens (stack : list Token) : nat :=
  List.length (filter is_paren_left stack).


(** ** Source text of arithmetic expressions without functions *)

Inductive source : Type :=
| SLit (x : string)
| SBin (op : ascii) (l r : source)
| SPar (e : source).

(** The text of [e], written with the white space [sp] on both sides of
    every operator: "3 + 4 * 2", "(3 + 4) * 2", "3+4*2". *)
Fixpoint render (sp : string) (e : source) : string :=
  match e with
  | SLit x => x
  | SBin op l r => render sp l ++ sp ++ String op (sp ++ render sp r)
  | SPar e => String "(" (render sp e ++ ")")
  end.

(** The leaves are numeric literals and the nodes carry operator
    characters. *)
Fixpoint lexical (e : source) : bool :=
  match e with
  | SLit x => numeric_literal x
  | SBin op l r => is_operator_char op && lexical l && lexical r
  | SPar e => lexical e
  end.

(** The expression tree that a text denotes. *)
Fixpoint tree (e : source) : expr :=
  match e with
  | SLit x => Lit (literal_value x)
  | SBin op l r => Bin op (tree l) (tree r)
  | SPar e => Par (tree e)
  end.

(** [rest] cannot continue a literal: it does not start with a digit, a
    point, or a letter that opens an exponent or a hexadecimal constant. *)
Definition ends_literal (rest : string) : bool :=
  let c := deref rest in
  negb (isdigit c || (c =? ".")%char || (c =? "e")%char || (c =? "E")%char
        || (c =? "x")%char || (c =? "X")%char).

(** [tokenize] entered with [p] in the middle of the input and [tokens]
    already stored. *)
Definition tokenize_from (libm : Libm) (p : string) (tokens : list Token)
    (last_result : float) : outcome (option (list Token)) :=
  tokenize_loop libm (S (String.length p)) p tokens last_result.

(** ** Grouping by precedence

    [regroup] rebuilds any expression into the grouping that the
    precedence table and the associativity rules give to its text. *)

(** Of two operators at the same nesting depth, [o1] written before [o2],
    [o1] is applied last when it is weaker, or as strong and
    right-associative. *)
Definition left_applied_last (o1 o2 : ascii) : bool :=
  (precedence o1 <? precedence o2)
  || ((precedence o1 =? precedence o2) && is_right_associative o1).

(** [l op r] for an [r] that is already a right operand of [op]: [op]
    takes as its left operand as much of the right end of [l] as binds
    tighter. *)
Fixpoint attach (l : source) (op : ascii) (r : source) : source :=
  match l with
  | SBin opl ll lr =>
      if left_applied_last opl op then SBin opl ll (attach lr op r)
      else SBin op l r
  | _ => SBin op l r
  end.

(** [l op r] in general: the operators at the left end of [r] that are
    applied after [op] are applied to the whole of what precedes them. *)
Fixpoint join (op : ascii) (l r : source) : source :=
  match r with
  | SBin opr rl rr =>
      if left_applied_last op opr then attach l op r
      else attach (join op l rl) opr rr
  | _ => attach l op r
  end.

Fixpoint regroup (e : source) : source :=
  match e with
  | SLit x => SLit x
  | SBin op l r => join op (regroup l) (regroup r)
  | SPar e => SPar (regroup e)
  end.

(** ** Characters that the tokenizer refuses *)

(** The last [else] of the loop of [tokenize] is reached at [p]: the
    character is none that a token can start with. *)
Definition invalid_at (p : string) : bool :=
  let c := deref p in
  negb (c =? NUL)%char && negb (isspace c) && negb (starts_number p)
  && negb (isalpha c) && negb (c =? "(")%char && negb (c =? ")")%char
  && negb (is_operator_char c).

Fixpoint has_invalid (p : string) : bool :=
  match p with
  | EmptyString => false
  | String _ r => invalid_at p || has_invalid r
  end.

From Stdlib Require Import Permutation.

(** ** Expressions with function calls

    The whole language of the calculator: numbers, binary operators,
    parentheses and calls [f(e)] of a named function. *)

Inductive call_expr : Type :=
| CNum (v : float)
| CBin (op : ascii) (l r : call_expr)
| CPar (e : call_expr)
| CCall (func : string) (arg : call_expr).

Fixpoint call_infix (e : call_expr) : list Token :=
  match e with
  | CNum v => [Number v]
  | CBin op l r => call_infix l ++ Operator op :: call_infix r
  | CPar e => ParenLeft :: call_infix e ++ [ParenRight]
  | CCall func e => Function func :: ParenLeft :: call_infix e ++ [ParenRight]
  end.

Fixpoint call_postfix (e : call_expr) : list Token :=
  match e with
  | CNum v => [Number v]
  | CBin op l r => call_postfix l ++ call_postfix r ++ [Operator op]
  | CPar e => call_postfix e
  | CCall func e => call_postfix e ++ [Function func]
  end.

Definition call_level (e : call_expr) : Z :=
  match e with
  | CBin op _ _ => precedence op
  | _ => 4
  end.

(** The grouping of [e] is the one that the precedence table and the
    associativity rules give to [call_infix e]. *)
Fixpoint call_well_formed (e : call_expr) : bool :=
  match e with
  | CNum _ => true
  | CPar e => call_well_formed e
  | CCall _ e => call_well_formed e
  | CBin op l r =>
      is_operator_char op && call_well_formed l && call_well_formed r
      && (if is_right_associative op
          then (precedence op <? call_level l) && (precedence op <=? call_level r)
          else (precedence op <=? call_level l) && (precedence op <? call_level r))
  end.

(** What the calculator's operators and functions give along the tree:
    operands first, left before right, the error flag threaded through. *)
Fixpoint call_eval (libm : Libm) (e : call_expr) (error : bool)
    : outcome (float * bool) :=
  match e with
  | CNum v => Def (v, error)
  | CPar e => call_eval libm e error
  | CBin op l r =>
      '(a, error1) <- call_eval libm l error ;;
      '(b, error2) <- call_eval libm r error1 ;;
      apply_operator libm op a b error2
  | CCall func e =>
      '(a, error1) <- call_eval libm e error ;;
      apply_function libm func a error1
  end.

(** What the converter has written and what it holds after [call_infix e]. *)
Fixpoint call_emitted (e : call_expr) : list Token :=
  match e with
  | CBin op l r => call_postfix l ++ call_emitted r
  | _ => call_postfix e
  end.

Fixpoint call_pending (e : call_expr) : list Token :=
  match e with
  | CBin op l r => call_pending r ++ [Operator op]
  | _ => []
  end.

(** *** Their text *)

Inductive call_source : Type :=
| KLit (x : string)
| KAns
| KBin (op : ascii) (l r : call_source)
| KPar (e : call_source)
| KCall (func : string) (arg : call_source).

Fixpoint call_render (sp : string) (e : call_source) : string :=
  match e with
  | KLit x => x
  | KAns => "Ans"
  | KBin op l r => call_render sp l ++ sp ++ String op (sp ++ call_render sp r)
  | KPar e => String "(" (call_render sp e ++ ")")
  | KCall func e => func ++ String "(" (call_render sp e ++ ")")
  end.

(** A name that [tokenize] turns into a Function token: one to nine
    letters, other than Ans. *)
Definition function_name (f : string) : bool :=
  string_forallb isalpha f
  && (1 <=? String.length f)%nat && (String.length f <=? 9)%nat
  && negb (f =? "Ans")%string.

Fixpoint call_lexical (e : call_source) : bool :=
  match e with
  | KLit x => numeric_literal x
  | KAns => true
  | KBin op l r => is_operator_char op && call_lexical l && call_lexical r
  | KPar e => call_lexical e
  | KCall func e => function_name func && call_lexical e
  end.

(** The tree that a text denotes when the last result is [last_result]. *)
Fixpoint call_tree (last_result : float) (e : call_source) : call_expr :=
  match e with
  | KLit x => CNum (literal_value x)
  | KAns => CNum last_result
  | KBin op l r => CBin op (call_tree last_result l) (call_tree last_result r)
  | KPar e => CPar (call_tree last_result e)
  | KCall func e => CCall func (call_tree last_result e)
  end.

(** [rest] cannot continue a literal or a name. *)
Definition ends_token (rest : string) : bool :=
  let c := deref rest in
  negb (isdigit c || (c =? ".")%char || isalpha c).

(** ** Lexemes

    What the tokenizer reads, one lexeme per token: a numeric literal, the
    word Ans, a name, an operator character, a parenthesis. *)

Inductive lexeme : Type :=
| LNum (x : string)
| LAns
| LName (f : string)
| LOp (op : ascii)
| LOpen
| LClose.

Definition spelling (l : lexeme) : string :=
  match l with
  | LNum x => x
  | LAns => "Ans"
  | LName f => f
  | LOp op => String op EmptyString
  | LOpen => "("
  | LClose => ")"
  end.

Definition lexeme_ok (l : lexeme) : bool :=
  match l with
  | LNum x => numeric_literal x
  | LName f => function_name f
  | LOp op => is_operator_char op
  | _ => true
  end.

Definition token_of (last_result : float) (l : lexeme) : Token :=
  match l with
  | LNum x => Number (literal_value x)
  | LAns => Number last_result
  | LName f => Function f
  | LOp op => Operator op
  | LOpen => ParenLeft
  | LClose => ParenRight
  end.

(** A text: every lexeme after white space of its own, and [tail] after
    the last one. *)
Fixpoint spell (ls : list (string * lexeme)) (tail : string) : string :=
  match ls with
  | [] => tail
  | (sp, l) :: ls' => sp ++ spelling l ++ spell ls' tail
  end.

(** The white space before every lexeme is white space, and the lexemes
    are spelled as the tokenizer reads them. *)
Fixpoint spelled_ok (ls : list (string * lexeme)) : bool :=
  match ls with
  | [] => true
  | (sp, l) :: ls' => string_forallb isspace sp && lexeme_ok l && spelled_ok ls'
  end.

(** Every literal and every word ends where it is meant to: what follows
    a literal cannot continue it, and what follows a word is no letter.
    White space always separates. *)
Fixpoint separated (ls : list (string * lexeme)) (tail : string) : bool :=
  match ls with
  | [] => true
  | (_, l) :: ls' =>
      match l with
      | LNum _ => ends_literal (spell ls' tail)
      | LAns | LName _ => negb (isalpha (deref (spell ls' tail)))
      | _ => true
      end
      && separated ls' tail
  end.

(** ** Kinds of tokens *)

Definition is_paren (t : Token) : bool :=
  match t with
  | ParenLeft | ParenRight => true
  | _ => false
  end.

Definition is_number (t : Token) : bool :=
  match t with
  | Number _ => true
  | _ => false
  end.

Definition not_paren (t : Token) : bool := negb (is_paren t).

(** What the converter ever puts on its stack: operators, function names
    and left parentheses. *)
Definition stackable (t : Token) : bool :=
  match t with
  | Operator _ | Function _ | ParenLeft => true
  | _ => false
  end.

(** A token as [tokenize] builds it: an operator token carries one of the
    six operator characters, a function token a name of one to nine
    letters other than Ans. *)
Definition token_ok (t : Token) : bool :=
  match t with
  | Operator o => is_operator_char o
  | Function f => function_name f
  | _ => true
  end.

(** ** Exact integers *)

(** The integer that a double is exactly equal to, if any. *)
Definition integer_value (a : float) : option Z :=
  match Prim2SF a with
  | S754_zero _ => Some 0
  | S754_finite s m e =>
      if 0 <=? e then Some ((if s then -1 else 1) * (Zpos m * 2 ^ e))
      else if Zpos m mod 2 ^ (- e) =? 0
           then Some ((if s then -1 else 1) * (Zpos m / 2 ^ (- e)))
           else None
  | _ => None
  end.

Fixpoint factorial_Z (n : nat) : Z :=
  match n with
  | O => 1
  | S k => Z.of_nat (S k) * factorial_Z k
  end.

(** ** The error flag *)

(** A result obtained on a clear flag, seen by a caller whose flag was
    [error] on entry: the flag is only ever raised. *)
Definition with_flag (error : bool) (r : outcome (float * bool))
    : outcome (float * bool) :=
  match r with
  | Def (v, e) => Def (v, error || e)
  | Undef u => Undef u
  end.

(** ** Unregistered names *)

Definition registered (f : string) : bool := existsb (String.eqb f) registry.

Fixpoint calls_unregistered (e : call_expr) : bool :=
  match e with
  | CNum _ => false
  | CBin _ l r => calls_unregistered l || calls_unregistered r
  | CPar e => calls_unregistered e
  | CCall f e => negb (registered f) || calls_unregistered e
  end.

(** ** main

    The session loop, over the characters that stdin delivers.  What is
    printed is recorded as a list of events; [PrintResult v] stands for the
    line "Result: " followed by [v] with six decimals. *)

Definition newline : ascii := "010"%char.

Inductive event : Type :=
| Banner | Prompt | PrintResult (v : float) | PrintError | Goodbye | ClearScreen.

(** The characters that [fgets] takes when it may store [n] of them: up to
    and including the first newline. *)
Fixpoint read_line (n : nat) (stdin : string) : string * string :=
  match n with
  | O => (EmptyString, stdin)
  | S n' =>
      match stdin with
      | EmptyString => (EmptyString, EmptyString)
      | String c r =>
          if (c =? newline)%char then (String c EmptyString, r)
          else let '(l, r') := read_line n' r in (String c l, r')
      end
  end.

(** [fgets(input, size, stdin)]: the new content of [input] and what is
    left of stdin.  At end of file nothing is stored and [input] keeps
    what it held. *)
Definition fgets (size : nat) (input stdin : string) : string * string :=
  match stdin with
  | EmptyString => (input, stdin)
  | _ => read_line (size - 1) stdin
  end.

(** The C string in [input] after [input[strcspn(input, "\n")] = 0]: the
    characters before the first newline or NUL. *)
Fixpoint c_line (input : string) : string :=
  match input with
  | EmptyString => EmptyString
  | String c r =>
      if (c =? NUL)%char || (c =? newline)%char then EmptyString
      else String c (c_line r)
  end.

(** How a run of [main] stands: it has returned, it has met undefined
    behaviour, or it is still in its loop when the rounds counted by the
    fuel are over; each with what has been printed. *)
Inductive run : Type :=
| Exit (out : list event)
| Stuck (u : ub) (out : list event)
| Running (out : list event).

(** The [while (1)] loop, one round per unit of fuel. *)
Fixpoint main_loop (libm : Libm) (fuel : nat) (stdin input : string)
    (last_result : float) (out : list event) : run :=
  match fuel with
  | O => Running out
  | S fuel' =>
      let out := out ++ [Prompt] in
      let '(input, stdin) := fgets 256 input stdin in
      let input := c_line input in
      if (input =? "q")%string || (input =? "Q")%string
      then Exit (out ++ [Goodbye])
      else if (input =? "c")%string || (input =? "C")%string
      then main_loop libm fuel' stdin input last_result (out ++ [ClearScreen])
      else
        match evaluate_expression libm input last_result false with
        | Undef u => Stuck u out
        | Def (result, error) =>
            if error
            then main_loop libm fuel' stdin input last_result (out ++ [PrintError])
            else main_loop libm fuel' stdin input result (out ++ [PrintResult result])
        end
  end.

(** [main], with [input0] for what the array [input] holds before the
    first [fgets]. *)
Definition main (libm : Libm) (fuel : nat) (stdin input0 : string) : run :=
  main_loop libm fuel stdin input0 0%float [Banner].

(** A line as a user types it: no NUL, no newline, at most 254 characters,
    and not the quit command. *)
Definition clean (l : string) : bool :=
  string_forallb (fun c => negb (c =? NUL)%char && negb (c =? newline)%char) l.

Definition ordinary_line (l : string) : bool :=
  clean l && (String.length l <=? 254)%nat
  && negb (l =? "q")%string && negb (l =? "Q")%string.

Fixpoint typed (lines : list string) : string :=
  match lines with
  | [] => EmptyString
  | l :: ls => l ++ String newline (typed ls)
  end.

(** The session line by line: what [main] prints for the lines [lines]
    followed by a quit command. *)
Fixpoint session (libm : Libm) (lines : list string) (last_result : float)
    (out : list event) : run :=
  match lines with
  | [] => Exit (out ++ [Prompt; Goodbye])
  | l :: ls =>
      if (l =? "c")%string || (l =? "C")%string
      then session libm ls last_result (out ++ [Prompt; ClearScreen])
      else
        match evaluate_expression libm l last_result false with
        | Undef u => Stuck u (out ++ [Prompt])
        | Def (result, error) =>
            if error
            then session libm ls last_result (out ++ [Prompt; PrintError])
            else session libm ls result (out ++ [Prompt; PrintResult result])
        end
  end.
(** * Properties *)

(** ** The monad and the array stores *)

Lemma bind_def_pair {A B : Type} (m : outcome (A * B)) :
  ('(a, b) <- m ;; Def (a, b)) = m.
Proof. destruct m as [[a b]|u]; reflexivity. Qed.

Lemma bind_assoc {A B C : Type} (m : outcome A) (f : A -> outcome B)
    (g : B -> outcome C) :
  bind (bind m f) g = bind m (fun a => bind (f a) g).
Proof. destruct m; reflexivity. Qed.

Lemma store_def {A : Type} (cap : nat) (a : list A) (t : A) :
  (List.length a < cap)%nat -> store cap a t = Def (a ++ [t]).
Proof.
  intros H. unfold store.
  destruct (Nat.ltb_spec (List.length a) cap); [reflexivity | lia].
Qed.

Lemma store_inv {A : Type} (cap : nat) (a a' : list A) (t : A) :
  store cap a t = Def a' -> a' = a ++ [t] /\ (List.length a < cap)%nat.
Proof.
  unfold store.
  destruct (Nat.ltb_spec (List.length a) cap); intros E; inversion E; auto.
Qed.

Lemma store_undef {A : Type} (cap : nat) (a : list A) (t : A) (u : ub) :
  store cap a t = Undef u -> u = OutOfBounds.
Proof.
  unfold store. destruct (List.length a <? cap)%nat; intros H; inversion H; auto.
Qed.

Lemma push_def {A : Type} (stack : list A) (t : A) :
  (List.length stack < MAX_STACK)%nat -> push stack t = Def (t :: stack).
Proof.
  intros H. unfold push.
  destruct (Nat.ltb_spec (List.length stack) MAX_STACK); [reflexivity | lia].
Qed.

(** ** The tokenizer terminates and respects its buffer *)

Section TokenizerFacts.

Variable libm : Libm.

Lemma skip_number_length (p : string) :
  (String.length (skip_number p) <= String.length p)%nat.
Proof.
  induction p as [|c r IH]; simpl; [lia|].
  destruct (isdigit c || (c =? ".")%char); simpl; lia.
Qed.

Lemma read_alpha_length (p : string) :
  (String.length (snd (read_alpha p)) <= String.length p)%nat.
Proof.
  induction p as [|c r IH]; simpl; [lia|].
  destruct (isalpha c); simpl; [|lia].
  destruct (read_alpha r) as [f r']; simpl in *; lia.
Qed.

(** Every round of the loop moves [p] forward, so one unit of fuel per
    character (and one for the final test) is never used up. *)
Lemma tokenize_loop_fuel_enough (fuel : nat) :
  forall p tokens last_result,
    (String.length p < fuel)%nat ->
    tokenize_loop libm fuel p tokens last_result <> Undef OutOfFuel.
Proof.
  induction fuel as [|fuel IH]; intros p tokens lr Hlen; [lia|].
  destruct p as [|c r]; [simpl; discriminate|].
  assert (Hr : (String.length r < fuel)%nat) by (simpl in Hlen; lia).
  assert (Hstore : forall t k,
             (forall tokens', k tokens' <> Undef OutOfFuel) ->
             (tokens' <- store MAX_TOKENS tokens t ;; k tokens')
             <> @Undef (option (list Token)) OutOfFuel).
  { intros t k Hk. destruct (store MAX_TOKENS tokens t) as [tokens'|u] eqn:E; simpl.
    - apply Hk.
    - apply store_undef in E. subst u. discriminate. }
  cbn [tokenize_loop deref advance].
  destruct (c =? NUL)%char; [discriminate|].
  destruct (isspace c); [apply IH; assumption|].
  destruct (isdigit c || (c =? ".")%char && isdigit (deref r)) eqn:Enum.
  { apply Hstore. intros tokens'. apply IH.
    assert (Hc : isdigit c || (c =? ".")%char = true).
    { destruct (isdigit c); [reflexivity|]. simpl in *.
      destruct (c =? ".")%char; [reflexivity | discriminate]. }
    simpl. rewrite Hc. pose proof (skip_number_length r). lia. }
  destruct (isalpha c) eqn:Ealpha.
  { destruct (read_alpha (String c r)) as [func p'] eqn:Era.
    destruct (10 <=? String.length func)%nat; [discriminate|].
    apply Hstore. intros tokens'. apply IH.
    simpl in Era. rewrite Ealpha in Era.
    pose proof (read_alpha_length r) as Hl.
    destruct (read_alpha r) as [f r']. inversion Era; subst. simpl in Hl. lia. }
  destruct (c =? "(")%char; [apply Hstore; intros; apply IH; assumption|].
  destruct (c =? ")")%char; [apply Hstore; intros; apply IH; assumption|].
  destruct (is_operator_char c); [apply Hstore; intros; apply IH; assumption|].
  discriminate.
Qed.

Lemma tokenize_fuel_enough (expr : string) (last_result : float) :
  tokenize libm expr last_result <> Undef OutOfFuel.
Proof. apply tokenize_loop_fuel_enough. lia. Qed.

(** More fuel does not change a result. *)
Lemma tokenize_loop_fuel_mono (fuel : nat) :
  forall p tokens last_result r,
    tokenize_loop libm fuel p tokens last_result = r ->
    r <> Undef OutOfFuel ->
    forall fuel', (fuel <= fuel')%nat ->
    tokenize_loop libm fuel' p tokens last_result = r.
Proof.
  induction fuel as [|fuel IH]; intros p tokens lr r Hr Hne fuel' Hle.
  { simpl in Hr. congruence. }
  destruct fuel' as [|fuel']; [lia|].
  assert (Hle' : (fuel <= fuel')%nat) by lia.
  assert (Hstore : forall t q,
             (tokens' <- store MAX_TOKENS tokens t ;;
              tokenize_loop libm fuel q tokens' lr) = r ->
             (tokens' <- store MAX_TOKENS tokens t ;;
              tokenize_loop libm fuel' q tokens' lr) = r).
  { intros t q. destruct (store MAX_TOKENS tokens t) as [tokens'|u]; simpl; [|auto].
    intros H. apply (IH _ _ _ _ H Hne _ Hle'). }
  cbn [tokenize_loop] in *.
  destruct (deref p =? NUL)%char; [assumption|].
  destruct (isspace (deref p)); [apply (IH _ _ _ _ Hr Hne _ Hle')|].
  destruct (isdigit (deref p) || (deref p =? ".")%char && isdigit (deref (advance p)));
    [apply Hstore; assumption|].
  destruct (isalpha (deref p)).
  { destruct (read_alpha p) as [func p'].
    destruct (10 <=? String.length func)%nat; [assumption|].
    apply Hstore; assumption. }
  destruct (deref p =? "(")%char; [apply Hstore; assumption|].
  destruct (deref p =? ")")%char; [apply Hstore; assumption|].
  destruct (is_operator_char (deref p)); [apply Hstore; assumption|].
  assumption.
Qed.

(** A call that returns has stored at most MAX_TOKENS tokens. *)
Lemma tokenize_loop_length (fuel : nat) :
  forall p tokens last_result ts,
    (List.length tokens <= MAX_TOKENS)%nat ->
    tokenize_loop libm fuel p tokens last_result = Def (Some ts) ->
    (List.length ts <= MAX_TOKENS)%nat.
Proof.
  induction fuel as [|fuel IH]; intros p tokens lr ts Hlen Hr.
  { simpl in Hr. discriminate. }
  assert (Hstore : forall t q,
             (tokens' <- store MAX_TOKENS tokens t ;;
              tokenize_loop libm fuel q tokens' lr) = Def (Some ts) ->
             (List.length ts <= MAX_TOKENS)%nat).
  { intros t q. destruct (store MAX_TOKENS tokens t) as [tokens'|u] eqn:E; simpl;
      [|discriminate].
    apply store_inv in E. destruct E as [-> Hlt].
    apply IH. rewrite length_app. simpl. lia. }
  cbn [tokenize_loop] in Hr.
  destruct (deref p =? NUL)%char; [inversion Hr; subst; assumption|].
  destruct (isspace (deref p)); [apply (IH _ _ _ _ Hlen Hr)|].
  destruct (isdigit (deref p) || (deref p =? ".")%char && isdigit (deref (advance p)));
    [apply (Hstore _ _ Hr)|].
  destruct (isalpha (deref p)).
  { destruct (read_alpha p) as [func p'].
    destruct (10 <=? String.length func)%nat; [discriminate|].
    apply (Hstore _ _ Hr). }
  destruct (deref p =? "(")%char; [apply (Hstore _ _ Hr)|].
  destruct (deref p =? ")")%char; [apply (Hstore _ _ Hr)|].
  destruct (is_operator_char (deref p)); [apply (Hstore _ _ Hr)|].
  discriminate.
Qed.

Lemma tokenize_length (expr : string) (last_result : float) (ts : list Token) :
  tokenize libm expr last_result = Def (Some ts) ->
  (List.length ts <= MAX_TOKENS)%nat.
Proof.
  apply tokenize_loop_length. unfold MAX_TOKENS. simpl. lia.
Qed.

End TokenizerFacts.

(** ** The converter on well-formed expressions *)

Lemma precedence_operator (o : ascii) :
  is_operator_char o = true -> 1 <= precedence o <= 3.
Proof.
  unfold is_operator_char, precedence. simpl.
  destruct (o =? "+")%char; [simpl; lia|].
  destruct (o =? "-")%char; [simpl; lia|].
  destruct (o =? "*")%char; [simpl; lia|].
  destruct (o =? "/")%char; [simpl; lia|].
  destruct (o =? "%")%char; [simpl; lia|].
  destruct (o =? "^")%char; [simpl; lia|].
  simpl. discriminate.
Qed.

Lemma precedence_3_right (o : ascii) :
  3 <= precedence o -> is_right_associative o = true.
Proof.
  unfold precedence, is_right_associative.
  destruct (o =? "+")%char; [simpl; lia|].
  destruct (o =? "-")%char; [simpl; lia|].
  destruct (o =? "*")%char; [simpl; lia|].
  destruct (o =? "/")%char; [simpl; lia|].
  destruct (o =? "%")%char; [simpl; lia|].
  destruct (o =? "^")%char; [reflexivity|].
  simpl. lia.
Qed.

Lemma right_precedence_3 (o : ascii) :
  is_right_associative o = true -> precedence o = 3.
Proof.
  unfold is_right_associative. intros H.
  apply Ascii.eqb_eq in H. subst o. reflexivity.
Qed.

Lemma emitted_pending (e : expr) : emitted e ++ pending e = postfix e.
Proof.
  induction e as [v|op l IHl r IHr|e IH]; simpl.
  - reflexivity.
  - rewrite <- IHr, <- !app_assoc. reflexivity.
  - apply app_nil_r.
Qed.

Lemma postfix_length (e : expr) :
  (1 <= List.length (postfix e) <= List.length (infix e))%nat.
Proof.
  induction e as [v|op l IHl r IHr|e IH]; simpl; rewrite ?length_app; simpl;
    rewrite ?length_app; simpl; lia.
Qed.

Lemma emitted_pending_length (e : expr) :
  (List.length (emitted e) + List.length (pending e)
   = List.length (postfix e))%nat.
Proof. rewrite <- emitted_pending, length_app. reflexivity. Qed.

(** The operators left on the stack by [e] are at least as strong as [e]. *)
Lemma pending_operators (e : expr) :
  well_formed e = true ->
  Forall (fun t => exists o, t = Operator o /\ is_operator_char o = true
                             /\ level e <= precedence o) (pending e).
Proof.
  induction e as [v|op l IHl r IHr|e IH]; simpl; intros Hwf.
  - constructor.
  - apply andb_prop in Hwf. destruct Hwf as [Hwf Hlev].
    apply andb_prop in Hwf. destruct Hwf as [Hwf Hr].
    apply andb_prop in Hwf. destruct Hwf as [Hop Hl].
    apply Forall_app. split.
    + eapply Forall_impl; [|apply IHr; assumption].
      intros t (o & -> & Ho & Hle). exists o. repeat split; auto.
      destruct (is_right_associative op);
        apply andb_prop in Hlev; destruct Hlev as [H1 H2]; lia.
    + constructor; [|constructor]. exists op. repeat split; auto. lia.
  - constructor.
Qed.

Lemma pending_not_paren (e : expr) :
  well_formed e = true -> forallb not_paren_left (pending e) = true.
Proof.
  intros Hwf. apply forallb_forall. intros t Hin.
  pose proof (pending_operators e Hwf) as HF.
  rewrite Forall_forall in HF. destruct (HF t Hin) as (o & -> & _). reflexivity.
Qed.

(** The operator of a well-formed [Bin op l r] pops all that [l] left. *)
Lemma pending_left_pops (op : ascii) (l r : expr) :
  well_formed (Bin op l r) = true ->
  forallb (pops_before op) (pending l) = true.
Proof.
  simpl. intros Hwf.
  apply andb_prop in Hwf. destruct Hwf as [Hwf Hlev].
  apply andb_prop in Hwf. destruct Hwf as [Hwf Hr].
  apply andb_prop in Hwf. destruct Hwf as [Hop Hl].
  apply forallb_forall. intros t Hin.
  pose proof (pending_operators l Hl) as HF.
  rewrite Forall_forall in HF. destruct (HF t Hin) as (o & -> & Ho & Hle).
  simpl. destruct (is_right_associative op);
    apply andb_prop in Hlev; destruct Hlev as [H1 H2]; simpl.
  - replace (precedence o >? precedence op) with true; [reflexivity|].
    symmetry. apply Z.gtb_lt. lia.
  - rewrite andb_true_r, Z.gtb_ltb, Z.eqb_sym.
    destruct (Z.ltb_spec (precedence op) (precedence o));
      destruct (Z.eqb_spec (precedence op) (precedence o)); simpl; auto. lia.
Qed.

(** ... and leaves alone what was below, and what it pushes stays put
    while [r] is read. *)
Lemma holds_below_weaken (stack : list Token) (l l' : Z) :
  l <= l' -> holds_below stack l -> holds_below stack l'.
Proof.
  intros Hle. destruct stack as [|[v|o'|f| |] stack]; simpl; auto.
  intros H o Ho Hl. apply H; [assumption | lia].
Qed.

Lemma holds_below_stop (stack : list Token) (o : ascii) (l : Z) :
  holds_below stack l -> is_operator_char o = true -> l <= precedence o ->
  match stack with
  | [] => True
  | t :: _ => pops_before o t = false
  end.
Proof.
  destruct stack as [|[v|o'|f| |] stack]; simpl; auto; try contradiction.
Qed.

Lemma holds_below_operator (op : ascii) (l r : expr) (stack : list Token) :
  well_formed (Bin op l r) = true ->
  holds_below (Operator op :: stack) (level r).
Proof.
  simpl. intros Hwf o Ho Hle.
  apply andb_prop in Hwf. destruct Hwf as [Hwf Hlev].
  destruct (is_right_associative op) eqn:Era;
    apply andb_prop in Hlev; destruct Hlev as [H1 H2].
  - apply right_precedence_3 in Era.
    assert (Hro : is_right_associative o = true)
      by (apply precedence_3_right; lia).
    rewrite Hro, andb_false_r, orb_false_r.
    pose proof (precedence_operator o Ho).
    rewrite Z.gtb_ltb. apply Z.ltb_ge. lia.
  - rewrite Z.gtb_ltb.
    replace (precedence o <? precedence op) with false
      by (symmetry; apply Z.ltb_ge; lia).
    replace (precedence op =? precedence o) with false
      by (symmetry; apply Z.eqb_neq; lia).
    reflexivity.
Qed.

Lemma pop_while_prefix (cond : Token -> bool) (xs : list Token) :
  forall stack out,
    forallb cond xs = true ->
    (List.length out + List.length xs <= MAX_TOKENS)%nat ->
    pop_while cond (xs ++ stack) out = pop_while cond stack (out ++ xs).
Proof.
  induction xs as [|x xs IH]; intros stack out Hc Hlen; simpl.
  - rewrite app_nil_r. reflexivity.
  - simpl in Hc, Hlen. apply andb_prop in Hc. destruct Hc as [Hx Hxs].
    rewrite Hx, store_def by lia. simpl.
    rewrite IH; [|assumption|rewrite length_app; simpl; lia].
    rewrite <- app_assoc. reflexivity.
Qed.

Lemma pop_while_stop (cond : Token -> bool) (stack out : list Token) :
  match stack with
  | [] => True
  | t :: _ => cond t = false
  end ->
  pop_while cond stack out = Def (stack, out).
Proof.
  destruct stack as [|t stack]; simpl; [reflexivity|].
  intros ->. reflexivity.
Qed.

Lemma drain_operators (xs : list Token) :
  forall out,
    forallb not_paren_left xs = true ->
    (List.length out + List.length xs <= MAX_TOKENS)%nat ->
    drain xs out = Def (Some (out ++ xs)).
Proof.
  induction xs as [|x xs IH]; intros out Hc Hlen; simpl.
  - rewrite app_nil_r. reflexivity.
  - simpl in Hc, Hlen. apply andb_prop in Hc. destruct Hc as [Hx Hxs].
    unfold not_paren_left in Hx. apply negb_true_iff in Hx.
    rewrite Hx, store_def by lia. simpl.
    rewrite IH; [|assumption|rewrite length_app; simpl; lia].
    rewrite <- app_assoc. reflexivity.
Qed.

(** Reading [infix e] appends [emitted e] to the output and leaves
    [pending e] on the stack. *)
Lemma to_postfix_loop_expr (e : expr) :
  well_formed e = true ->
  forall rest stack out,
    holds_below stack (level e) ->
    (List.length stack + List.length (infix e) <= MAX_STACK)%nat ->
    (List.length out + List.length (infix e) <= MAX_TOKENS)%nat ->
    to_postfix_loop (infix e ++ rest) stack out
    = to_postfix_loop rest (pending e ++ stack) (out ++ emitted e).
Proof.
  induction e as [v|op l IHl r IHr|e IH]; intros Hwf rest stack out Hb Hs Ho.
  - simpl in *. rewrite store_def by lia. reflexivity.
  - pose proof (pending_left_pops op l r Hwf) as Hpops.
    pose proof (holds_below_operator op l r stack Hwf) as Hbr.
    pose proof (postfix_length l) as Hpl.
    pose proof (emitted_pending_length l) as Hel.
    simpl in Hwf.
    apply andb_prop in Hwf. destruct Hwf as [Hwf Hlev].
    apply andb_prop in Hwf. destruct Hwf as [Hwf Hwr].
    apply andb_prop in Hwf. destruct Hwf as [Hop Hwl].
    assert (Hll : precedence op <= level l).
    { destruct (is_right_associative op);
        apply andb_prop in Hlev; destruct Hlev as [H1 H2]; lia. }
    simpl in Hb, Hs, Ho. rewrite length_app in Hs, Ho. simpl in Hs, Ho.
    simpl infix. rewrite <- app_assoc. simpl app.
    rewrite IHl; [|assumption|eapply holds_below_weaken; eassumption|lia|lia].
    cbn [to_postfix_loop].
    rewrite pop_while_prefix; [|assumption|rewrite length_app; lia].
    rewrite pop_while_stop
      by (eapply holds_below_stop; [eassumption|assumption|lia]).
    simpl bind. rewrite push_def by lia. simpl bind.
    rewrite IHr; [|assumption|assumption|simpl; lia
                   |rewrite !length_app; lia].
    simpl emitted. simpl pending.
    rewrite <- (emitted_pending l), <- !app_assoc. reflexivity.
  - pose proof (pending_not_paren e Hwf) as Hnp.
    pose proof (postfix_length e) as Hpl.
    pose proof (emitted_pending_length e) as Hel.
    simpl in Hwf, Hs, Ho. rewrite length_app in Hs, Ho. simpl in Hs, Ho.
    simpl infix. cbn [app to_postfix_loop].
    rewrite push_def by lia. simpl bind. rewrite <- app_assoc.
    rewrite IH; [|assumption|exact I|simpl; lia|lia].
    cbn [app to_postfix_loop].
    rewrite pop_while_prefix; [|assumption|rewrite length_app; lia].
    rewrite pop_while_stop by reflexivity.
    simpl bind. simpl emitted. simpl pending. simpl app.
    rewrite <- app_assoc, emitted_pending.
    destruct stack as [|[v|o'|f| |] stack]; simpl in Hb; try contradiction;
      reflexivity.
Qed.

(** The converter turns the infix form of a well-formed expression into
    its postfix form. *)
Lemma to_postfix_expr (e : expr) :
  well_formed e = true ->
  (List.length (infix e) <= MAX_TOKENS)%nat ->
  to_postfix (infix e) = Def (Some (postfix e)).
Proof.
  intros Hwf Hlen. unfold to_postfix.
  rewrite <- (app_nil_r (infix e)).
  rewrite to_postfix_loop_expr;
    [|assumption|exact I|unfold MAX_STACK, MAX_TOKENS in *; simpl; lia|simpl; lia].
  simpl to_postfix_loop. rewrite app_nil_r.
  pose proof (postfix_length e). pose proof (emitted_pending_length e).
  rewrite drain_operators; [|apply pending_not_paren; assumption|lia].
  rewrite emitted_pending. reflexivity.
Qed.

(** ** The evaluator on postfix forms *)

Section EvaluatorFacts.

Variable libm : Libm.

(** Running the postfix form of [e] pushes the value of [e]. *)
Lemma eval_postfix_loop_expr (e : expr) :
  forall rest stack error,
    (List.length stack + List.length (postfix e) <= MAX_STACK)%nat ->
    eval_postfix_loop libm (postfix e ++ rest) stack error
    = ('(v, error') <- eval_expr libm e error ;;
       eval_postfix_loop libm rest (v :: stack) error').
Proof.
  induction e as [v|op l IHl r IHr|e IH]; intros rest stack error Hlen.
  - simpl in *. rewrite push_def by lia. reflexivity.
  - pose proof (postfix_length l) as Hl. pose proof (postfix_length r) as Hr.
    simpl in Hlen. rewrite !length_app in Hlen. simpl in Hlen.
    simpl postfix. rewrite <- !app_assoc.
    rewrite IHl by lia. simpl eval_expr. rewrite bind_assoc.
    destruct (eval_expr libm l error) as [[a error1]|u]; simpl; [|reflexivity].
    rewrite IHr by (simpl; lia). rewrite bind_assoc.
    destruct (eval_expr libm r error1) as [[b error2]|u]; simpl; reflexivity.
  - simpl in *. apply IH. assumption.
Qed.

Lemma eval_postfix_expr (e : expr) (error : bool) :
  (List.length (infix e) <= MAX_TOKENS)%nat ->
  eval_postfix libm (postfix e) error = eval_expr libm e error.
Proof.
  intros Hlen. unfold eval_postfix.
  rewrite <- (app_nil_r (postfix e)).
  pose proof (postfix_length e).
  rewrite eval_postfix_loop_expr
    by (unfold MAX_STACK, MAX_TOKENS in *; simpl; lia).
  simpl. apply bind_def_pair.
Qed.

End EvaluatorFacts.

(** ** Associativity *)



(** ** Parentheses *)

Lemma is_paren_left_inv (t : Token) : is_paren_left t = true -> t = ParenLeft.
Proof. destruct t; simpl; intros H; try discriminate; reflexivity. Qed.

Lemma open_parens_cons (t : Token) (stack : list Token) :
  open_parens (t :: stack)
  = ((if is_paren_left t then 1 else 0) + open_parens stack)%nat.
Proof. unfold open_parens. simpl. destruct (is_paren_left t); reflexivity. Qed.

(** Popping under a condition that a left parenthesis does not satisfy
    moves tokens from the stack to the output and keeps the parentheses. *)
Lemma pop_while_keeps_parens (cond : Token -> bool) :
  (forall t, is_paren_left t = true -> cond t = false) ->
  forall stack out,
    (List.length out + List.length stack <= MAX_TOKENS)%nat ->
    exists stack' out',
      pop_while cond stack out = Def (stack', out')
      /\ open_parens stack' = open_parens stack
      /\ (List.length out' + List.length stack'
          = List.length out + List.length stack)%nat
      /\ match stack' with
         | [] => True
         | t :: _ => cond t = false
         end.
Proof.
  intros Hcond. induction stack as [|t stack IH]; intros out Hlen.
  - exists [], out. simpl. auto.
  - simpl. destruct (cond t) eqn:Ec.
    + simpl in Hlen. rewrite store_def by lia. simpl.
      destruct (IH (out ++ [t])) as (stack' & out' & Hp & Ho & Hl & Ht).
      { rewrite length_app. simpl. lia. }
      exists stack', out'. rewrite Hp. repeat split; auto.
      * rewrite Ho, open_parens_cons.
        destruct (is_paren_left t) eqn:Et; [|reflexivity].
        rewrite (Hcond t Et) in Ec. discriminate.
      * rewrite Hl, length_app. simpl. lia.
    + exists (t :: stack), out. repeat split; auto.
Qed.

(** At the end of the input a left parenthesis still on the stack makes
    the final loop return -1. *)
Lemma drain_open_paren (stack : list Token) :
  forall out,
    open_parens stack <> O ->
    (List.length out + List.length stack <= MAX_TOKENS)%nat ->
    drain stack out = Def None.
Proof.
  induction stack as [|t stack IH]; intros out Hopen Hlen.
  - exfalso. apply Hopen. reflexivity.
  - simpl. rewrite open_parens_cons in Hopen. fold (is_paren_left t).
    destruct (is_paren_left t); [reflexivity|].
    simpl in Hlen. rewrite store_def by lia. simpl.
    apply IH; [assumption|]. rewrite length_app. simpl. lia.
Qed.

(** A right parenthesis met while the stack holds no left parenthesis
    empties the stack and returns -1. *)
Lemma right_paren_unmatched (rest stack out : list Token) :
  open_parens stack = O ->
  (List.length out + List.length stack <= MAX_TOKENS)%nat ->
  to_postfix_loop (ParenRight :: rest) stack out = Def None.
Proof.
  intros Hopen Hlen. cbn [to_postfix_loop].
  destruct (pop_while_keeps_parens not_paren_left) with (stack := stack) (out := out)
    as (stack' & out' & Hp & Ho & Hl & Ht).
  { intros t Ht. unfold not_paren_left. fold (is_paren_left t). rewrite Ht.
    reflexivity. }
  { assumption. }
  rewrite Hp. simpl. destruct stack' as [|t stack']; [reflexivity|].
  unfold not_paren_left in Ht. fold (is_paren_left t) in Ht.
  apply negb_false_iff in Ht.
  rewrite open_parens_cons, Ht, Hopen in Ho. discriminate.
Qed.

Lemma to_postfix_loop_unbalanced (ts : list Token) :
  forall stack out,
    balanced_from (open_parens stack) ts = false ->
    (List.length out + List.length stack + List.length ts <= MAX_TOKENS)%nat ->
    to_postfix_loop ts stack out = Def None.
Proof.
  induction ts as [|t rest IH]; intros stack out Hbal Hlen.
  - simpl in *. apply drain_open_paren; [|lia].
    intros H. rewrite H in Hbal. discriminate.
  - simpl in Hlen. destruct t as [v|o|f| |].
    + cbn [to_postfix_loop]. rewrite store_def by lia. simpl.
      apply IH; [assumption|]. rewrite length_app. simpl. lia.
    + cbn [to_postfix_loop].
      destruct (pop_while_keeps_parens (pops_before o))
        with (stack := stack) (out := out)
        as (stack' & out' & Hp & Ho & Hl & Ht).
      { intros t Ht. apply is_paren_left_inv in Ht. subst t. reflexivity. }
      { lia. }
      rewrite Hp. simpl.
      rewrite push_def by (unfold MAX_STACK, MAX_TOKENS in *; lia). simpl.
      apply IH.
      * rewrite open_parens_cons. simpl. rewrite Ho. assumption.
      * simpl. lia.
    + cbn [to_postfix_loop].
      rewrite push_def by (unfold MAX_STACK, MAX_TOKENS in *; lia). simpl.
      apply IH; [|simpl; lia]. rewrite open_parens_cons. assumption.
    + cbn [to_postfix_loop].
      rewrite push_def by (unfold MAX_STACK, MAX_TOKENS in *; lia). simpl.
      apply IH; [|simpl; lia]. rewrite open_parens_cons. assumption.
    + destruct (open_parens stack) as [|d] eqn:Hd.
      { apply right_paren_unmatched; [assumption | lia]. }
      cbn [to_postfix_loop].
      destruct (pop_while_keeps_parens not_paren_left)
        with (stack := stack) (out := out)
        as (stack' & out' & Hp & Ho & Hl & Ht).
      { intros t Ht. unfold not_paren_left. fold (is_paren_left t). rewrite Ht.
        reflexivity. }
      { lia. }
      rewrite Hp. simpl.
      destruct stack' as [|t stack']; [reflexivity|].
      unfold not_paren_left in Ht. fold (is_paren_left t) in Ht.
      apply negb_false_iff in Ht.
      rewrite open_parens_cons, Ht, Hd in Ho. simpl in Ho, Hl.
      injection Ho as Ho. simpl in Hbal.
      destruct stack' as [|[v|o|f| |] stack3]; try (apply IH;
        [rewrite Ho; assumption | simpl in *; lia]).
      rewrite store_def by (simpl in Hl; lia). simpl.
      apply IH.
      * rewrite open_parens_cons in Ho. simpl in Ho. rewrite Ho. assumption.
      * rewrite length_app. simpl in *. lia.
Qed.

(** Conversely, balanced parentheses never make the converter fail. *)
Lemma drain_no_paren (stack : list Token) :
  forall out,
    open_parens stack = O ->
    (List.length out + List.length stack <= MAX_TOKENS)%nat ->
    drain stack out = Def (Some (out ++ stack)).
Proof.
  induction stack as [|t stack IH]; intros out Hopen Hlen.
  - simpl. rewrite app_nil_r. reflexivity.
  - simpl. rewrite open_parens_cons in Hopen. fold (is_paren_left t).
    destruct (is_paren_left t); [discriminate|].
    simpl in Hlen. rewrite store_def by lia. simpl.
    rewrite IH; [|assumption|rewrite length_app; simpl; lia].
    rewrite <- app_assoc. reflexivity.
Qed.

Lemma to_postfix_loop_balanced (ts : list Token) :
  forall stack out,
    balanced_from (open_parens stack) ts = true ->
    (List.length out + List.length stack + List.length ts <= MAX_TOKENS)%nat ->
    exists post, to_postfix_loop ts stack out = Def (Some post).
Proof.
  induction ts as [|t rest IH]; intros stack out Hbal Hlen.
  - simpl in *. exists (out ++ stack). apply drain_no_paren; [|lia].
    apply Nat.eqb_eq. assumption.
  - simpl in Hlen. destruct t as [v|o|f| |].
    + cbn [to_postfix_loop]. rewrite store_def by lia. simpl.
      apply IH; [assumption|]. rewrite length_app. simpl. lia.
    + cbn [to_postfix_loop].
      destruct (pop_while_keeps_parens (pops_before o))
        with (stack := stack) (out := out)
        as (stack' & out' & Hp & Ho & Hl & Ht).
      { intros t Ht. apply is_paren_left_inv in Ht. subst t. reflexivity. }
      { lia. }
      rewrite Hp. simpl.
      rewrite push_def by (unfold MAX_STACK, MAX_TOKENS in *; lia). simpl.
      apply IH.
      * rewrite open_parens_cons. simpl. rewrite Ho. assumption.
      * simpl. lia.
    + cbn [to_postfix_loop].
      rewrite push_def by (unfold MAX_STACK, MAX_TOKENS in *; lia). simpl.
      apply IH; [|simpl; lia]. rewrite open_parens_cons. assumption.
    + cbn [to_postfix_loop].
      rewrite push_def by (unfold MAX_STACK, MAX_TOKENS in *; lia). simpl.
      apply IH; [|simpl; lia]. rewrite open_parens_cons. assumption.
    + simpl in Hbal. destruct (open_parens stack) as [|d] eqn:Hd;
        [discriminate|].
      cbn [to_postfix_loop].
      destruct (pop_while_keeps_parens not_paren_left)
        with (stack := stack) (out := out)
        as (stack' & out' & Hp & Ho & Hl & Ht).
      { intros t Ht. unfold not_paren_left. fold (is_paren_left t). rewrite Ht.
        reflexivity. }
      { lia. }
      rewrite Hp. simpl.
      destruct stack' as [|t stack'].
      { rewrite Hd in Ho. discriminate. }
      unfold not_paren_left in Ht. fold (is_paren_left t) in Ht.
      apply negb_false_iff in Ht.
      rewrite open_parens_cons, Ht, Hd in Ho. simpl in Ho, Hl.
      injection Ho as Ho.
      destruct stack' as [|[v|o|f| |] stack3]; try (apply IH;
        [rewrite Ho; assumption | simpl in *; lia]).
      rewrite store_def by (simpl in Hl; lia). simpl.
      apply IH.
      * rewrite open_parens_cons in Ho. simpl in Ho. rewrite Ho. assumption.
      * rewrite length_app. simpl in *. lia.
Qed.

(** C3.  Unbalanced parentheses make the conversion fail: a right
    parenthesis met while the stack holds no left parenthesis returns -1,
    a left parenthesis still on the stack at the end of the input returns
    -1; hence the converter returns -1, its only failure, on a token
    sequence exactly when its parentheses are unbalanced, and
    [evaluate_expression] then reports the error.  In particular "(3 + 4"
    and "3 + 4)" fail. *)
Theorem unbalanced_parentheses_fail (libm : Libm) :
  (forall rest stack out,
      open_parens stack = O ->
      (List.length out + List.length stack <= MAX_TOKENS)%nat ->
      to_postfix_loop (ParenRight :: rest) stack out = Def None)
  /\ (forall stack out,
         open_parens stack <> O ->
         (List.length out + List.length stack <= MAX_TOKENS)%nat ->
         to_postfix_loop [] stack out = Def None)
  /\ (forall ts,
         (List.length ts <= MAX_TOKENS)%nat ->
         to_postfix ts = Def None <-> balanced ts = false)
  /\ (forall s last_result error ts,
         tokenize libm s last_result = Def (Some ts) ->
         balanced ts = false ->
         to_postfix ts = Def None
         /\ evaluate_expression libm s last_result error = Def (0%float, true))
  /\ (forall last_result error,
         evaluate_expression libm "(3 + 4" last_result error = Def (0%float, true)
         /\ evaluate_expression libm "3 + 4)" last_result error = Def (0%float, true)).
Proof.
  assert (Hunb : forall ts, (List.length ts <= MAX_TOKENS)%nat ->
                            balanced ts = false -> to_postfix ts = Def None).
  { intros ts Hlen Hbal.
    apply to_postfix_loop_unbalanced; [exact Hbal | simpl; lia]. }
  split; [|split; [|split; [|split]]].
  - apply right_paren_unmatched.
  - intros stack out. apply drain_open_paren.
  - intros ts Hlen. split; [|apply Hunb; assumption].
    intros Hfail. destruct (balanced ts) eqn:Hbal; [|reflexivity].
    destruct (to_postfix_loop_balanced ts [] []) as [post Hpost];
      [exact Hbal | simpl; lia|].
    unfold to_postfix in Hfail. rewrite Hpost in Hfail. discriminate.
  - intros s lr error ts Htok Hbal.
    pose proof (tokenize_length libm s lr ts Htok) as Hlen.
    pose proof (Hunb ts Hlen Hbal) as Hconv.
    split; [exact Hconv|].
    unfold evaluate_expression. rewrite Htok. simpl. rewrite Hconv. reflexivity.
  - intros lr error. split; vm_compute; reflexivity.
Qed.

Lemma unbalanced_parentheses_fail_witness :
  to_postfix_loop [ParenRight] [Operator "+"] [Number 1] = Def None
  /\ to_postfix_loop [] [Operator "+"; ParenLeft] [Number 1; Number 2] = Def None
  /\ (to_postfix [Number 1; ParenRight] = Def None
      <-> balanced [Number 1; ParenRight] = false)
  /\ tokenize sample_libm "(3 + 4" 0
     = Def (Some [ParenLeft; Number 3; Operator "+"; Number 4])
  /\ balanced [ParenLeft; Number 3; Operator "+"; Number 4] = false
  /\ to_postfix [ParenLeft; Number 3; Operator "+"; Number 4] = Def None
  /\ evaluate_expression sample_libm "(3 + 4" 0 false = Def (0%float, true).
Proof.
  split; [|split; [|split]].
  - apply (proj1 (unbalanced_parentheses_fail sample_libm));
      [reflexivity | simpl; unfold MAX_TOKENS; lia].
  - apply (proj1 (proj2 (unbalanced_parentheses_fail sample_libm)));
      [discriminate | simpl; unfold MAX_TOKENS; lia].
  - apply (proj1 (proj2 (proj2 (unbalanced_parentheses_fail sample_libm)))).
    simpl. unfold MAX_TOKENS. lia.
  - split; [reflexivity|]. split; [reflexivity|].
    apply (proj1 (proj2 (proj2 (proj2 (unbalanced_parentheses_fail sample_libm))))
             "(3 + 4"%string 0%float false); reflexivity.
Defined.

(** ** Division and remainder *)

Section OperatorFacts.

Variable libm : Libm.

Lemma double_to_int_truncate (a : float) (z : Z) :
  double_to_int a = Def z <->
  truncate a = Some z /\ INT_MIN <= z <= INT_MAX.
Proof.
  unfold double_to_int. destruct (truncate a) as [t|].
  - destruct (Z.leb_spec INT_MIN t) as [H1|H1];
      destruct (Z.leb_spec t INT_MAX) as [H2|H2]; simpl; split; intros E;
      try discriminate;
      try (injection E as ->; split; [reflexivity | lia]);
      try (destruct E as [E R]; injection E as ->; try reflexivity; lia).
  - split; [discriminate | intros [E _]; discriminate].
Qed.


Lemma apply_operator_mod (a b : float) (error : bool) :
  apply_operator libm "%" a b error
  = (ib <- double_to_int b ;;
     if ib =? 0 then Def (0%float, true)
     else
       ia <- double_to_int a ;;
       if (ia =? INT_MIN) && (ib =? -1) then Undef IntOverflow
       else Def (int_to_double (Z.rem ia ib), error)).
Proof. reflexivity. Qed.


End OperatorFacts.



(** C5, as the code has it.  For operands whose truncations are
    representable as [int], with the divisor's not 0 and not the pair
    INT_MIN, -1, ['%'] returns the C integer remainder of the truncated
    operands (sign of the dividend), converted back to double; it is not
    the floating-point remainder: 7.5 % 2 is 1 and -7.5 % 2 is -1. *)
Theorem modulo_truncates_operands (libm : Libm) (a b : float) (ta tb : Z)
    (error : bool) :
  truncate a = Some ta -> truncate b = Some tb ->
  INT_MIN <= ta <= INT_MAX -> INT_MIN <= tb <= INT_MAX ->
  tb <> 0 -> ~ (ta = INT_MIN /\ tb = -1) ->
  apply_operator libm "%" a b error = Def (int_to_double (Z.rem ta tb), error)
  /\ apply_operator libm "%" 7.5 2 error = Def (1%float, error)
  /\ apply_operator libm "%" (-7.5) 2 error = Def ((-1)%float, error).
Proof.
  intros Ha Hb Hra Hrb Hnz Hov. split; [|split; reflexivity].
  rewrite apply_operator_mod.
  assert (Ea : double_to_int a = Def ta) by (apply double_to_int_truncate; auto).
  assert (Eb : double_to_int b = Def tb) by (apply double_to_int_truncate; auto).
  rewrite Eb. simpl.
  destruct (Z.eqb_spec tb 0) as [|_]; [contradiction|].
  rewrite Ea. simpl.
  destruct (Z.eqb_spec ta INT_MIN) as [Hta|_];
    destruct (Z.eqb_spec tb (-1)) as [Htb|_]; simpl; try reflexivity.
  exfalso. apply Hov. split; assumption.
Qed.

Lemma modulo_truncates_operands_witness :
  apply_operator sample_libm "%" 17.75 5.5 false = Def (2%float, false)
  /\ apply_operator sample_libm "%" 7.5 2 false = Def (1%float, false)
  /\ apply_operator sample_libm "%" (-7.5) 2 false = Def ((-1)%float, false).
Proof.
  apply (modulo_truncates_operands sample_libm 17.75 5.5 17 5 false);
    try reflexivity; unfold INT_MIN, INT_MAX; try lia.
Defined.

(** C5 as the specification words it fails on operands outside [int]:
    10000000000 and 3 truncate to 10000000000 and 3, the remainder of which
    is 1, but the cast of the first to [int] is undefined; and on INT_MIN
    and -1, whose remainder overflows. *)
Lemma modulo_outside_int_counterexample :
  truncate 10000000000 = Some 10000000000
  /\ truncate 3 = Some 3
  /\ apply_operator sample_libm "%" 10000000000 3 false = Undef FloatToInt
  /\ apply_operator sample_libm "%" 10000000000 3 false
     <> Def (int_to_double (Z.rem 10000000000 3), false)
  /\ truncate (-2147483648) = Some INT_MIN
  /\ truncate (-1) = Some (-1)
  /\ apply_operator sample_libm "%" (-2147483648) (-1) false = Undef IntOverflow.
Proof.
  repeat split; try reflexivity. vm_compute. discriminate.
Qed.

(** ** Runs of the tokenizer *)

Section TokenizerRuns.

Variable libm : Libm.

Lemma isspace_not_NUL (c : ascii) : isspace c = true -> (c =? NUL)%char = false.
Proof.
  intros H. destruct (Ascii.eqb_spec c NUL) as [->|]; [discriminate | reflexivity].
Qed.

Lemma isdigit_not_NUL (c : ascii) : isdigit c = true -> (c =? NUL)%char = false.
Proof.
  intros H. destruct (Ascii.eqb_spec c NUL) as [->|]; [discriminate | reflexivity].
Qed.

Lemma isdigit_not_space (c : ascii) : isdigit c = true -> isspace c = false.
Proof.
  unfold isdigit, isspace. intros H.
  apply andb_prop in H. destruct H as [H1 H2].
  apply Nat.leb_le in H1. apply Nat.leb_le in H2.
  destruct (Nat.eqb_spec (nat_of_ascii c) 32); [lia|].
  destruct (Nat.leb_spec 9 (nat_of_ascii c));
    destruct (Nat.leb_spec (nat_of_ascii c) 13); simpl; try reflexivity; lia.
Qed.

Lemma starts_number_first (p : string) :
  starts_number p = true ->
  (deref p =? NUL)%char = false /\ isspace (deref p) = false.
Proof.
  unfold starts_number. intros H. apply orb_prop in H. destruct H as [H|H].
  - split; [apply isdigit_not_NUL | apply isdigit_not_space]; assumption.
  - apply andb_prop in H. destruct H as [H _].
    apply Ascii.eqb_eq in H. rewrite H. split; reflexivity.
Qed.

Lemma isalpha_first (c : ascii) :
  isalpha c = true ->
  (c =? NUL)%char = false /\ isspace c = false /\ isdigit c = false
  /\ (c =? ".")%char = false.
Proof.
  intros H.
  assert (Hn : (c =? NUL)%char = false).
  { destruct (Ascii.eqb_spec c NUL) as [->|]; [discriminate | reflexivity]. }
  assert (Hp : (c =? ".")%char = false).
  { destruct (Ascii.eqb_spec c ".") as [->|]; [discriminate | reflexivity]. }
  repeat split; try assumption;
    unfold isalpha, isspace, isdigit in *;
    destruct (Nat.leb_spec 65 (nat_of_ascii c));
    destruct (Nat.leb_spec (nat_of_ascii c) 90);
    destruct (Nat.leb_spec 97 (nat_of_ascii c));
    destruct (Nat.leb_spec (nat_of_ascii c) 122);
    simpl in H; try discriminate;
    try (destruct (Nat.eqb_spec (nat_of_ascii c) 32); [lia|]);
    try (destruct (Nat.leb_spec 9 (nat_of_ascii c)));
    try (destruct (Nat.leb_spec (nat_of_ascii c) 13));
    try (destruct (Nat.leb_spec 48 (nat_of_ascii c)));
    try (destruct (Nat.leb_spec (nat_of_ascii c) 57));
    simpl; try reflexivity; lia.
Qed.

(** The rounds of the loop, one branch at a time. *)
Lemma tokenize_loop_end (fuel : nat) (tokens : list Token) (last_result : float) :
  tokenize_loop libm (S fuel) EmptyString tokens last_result = Def (Some tokens).
Proof. reflexivity. Qed.

Lemma tokenize_loop_space (fuel : nat) (c : ascii) (r : string)
    (tokens : list Token) (last_result : float) :
  isspace c = true ->
  tokenize_loop libm (S fuel) (String c r) tokens last_result
  = tokenize_loop libm fuel r tokens last_result.
Proof.
  intros H. cbn [tokenize_loop deref advance].
  rewrite (isspace_not_NUL c H), H. reflexivity.
Qed.

Lemma tokenize_loop_number (fuel : nat) (p : string) (tokens : list Token)
    (last_result : float) :
  starts_number p = true ->
  tokenize_loop libm (S fuel) p tokens last_result
  = (tokens' <- store MAX_TOKENS tokens (Number (sscanf_lf libm p)) ;;
     tokenize_loop libm fuel (skip_number p) tokens' last_result).
Proof.
  intros H. destruct (starts_number_first p H) as [H0 Hs].
  unfold starts_number in H. cbn [tokenize_loop]. rewrite H0, Hs, H. reflexivity.
Qed.

Lemma tokenize_loop_alpha (fuel : nat) (p : string) (tokens : list Token)
    (last_result : float) :
  isalpha (deref p) = true ->
  tokenize_loop libm (S fuel) p tokens last_result
  = (let '(func, p') := read_alpha p in
     if (10 <=? String.length func)%nat then Undef OutOfBounds
     else
       tokens' <- store MAX_TOKENS tokens
                    (if (func =? "Ans")%string then Number last_result
                     else Function func) ;;
       tokenize_loop libm fuel p' tokens' last_result).
Proof.
  intros H. destruct (isalpha_first _ H) as (H0 & Hs & Hd & Hp).
  cbn [tokenize_loop]. rewrite H0, Hs, Hd, Hp, H. reflexivity.
Qed.

Lemma skip_number_all (x : string) :
  string_forallb digit_or_point x = true ->
  skip_number x = EmptyString.
Proof.
  induction x as [|c r IH]; simpl; [reflexivity|].
  intros H. apply andb_prop in H. destruct H as [Hc Hr].
  unfold digit_or_point in Hc. rewrite Hc. apply IH. assumption.
Qed.

(** White space is skipped and produces no token. *)
Lemma tokenize_loop_spaces (s : string) :
  forall fuel tokens last_result,
    string_forallb isspace s = true ->
    (String.length s < fuel)%nat ->
    tokenize_loop libm fuel s tokens last_result = Def (Some tokens).
Proof.
  induction s as [|c r IH]; intros fuel tokens lr Hs Hlen;
    (destruct fuel as [|fuel]; [simpl in Hlen; lia|]).
  - reflexivity.
  - simpl in Hs, Hlen. apply andb_prop in Hs. destruct Hs as [Hc Hr].
    cbn [tokenize_loop deref advance].
    rewrite (isspace_not_NUL c Hc), Hc. apply IH; [assumption | lia].
Qed.

Local Arguments tokenize_loop : simpl never.

(** A registered name, a blank and a literal give two tokens. *)
Lemma tokenize_function_literal (f x : string) (last_result : float) :
  In f registry -> numeric_literal x = true ->
  tokenize libm (f ++ " " ++ x) last_result
  = Def (Some [Function f; Number (sscanf_lf libm x)]).
Proof.
  intros Hf Hx. unfold numeric_literal in Hx.
  apply andb_prop in Hx. destruct Hx as [Hx _].
  apply andb_prop in Hx. destruct Hx as [Hstart Hall].
  unfold tokenize, registry in *. simpl in Hf.
  repeat (destruct Hf as [<-|Hf];
          [simpl;
           rewrite tokenize_loop_alpha by reflexivity; simpl;
           rewrite tokenize_loop_space by reflexivity;
           rewrite tokenize_loop_number by assumption;
           rewrite store_def by (simpl; unfold MAX_TOKENS; lia); simpl;
           rewrite skip_number_all by assumption;
           apply tokenize_loop_end|]).
  contradiction.
Qed.

End TokenizerRuns.

(** ** The tokenizer on the text of an expression *)

Section SourceFacts.

Variable libm : Libm.

Lemma tokenize_loop_from (fuel : nat) (q : string) (tokens : list Token)
    (last_result : float) :
  (String.length q < fuel)%nat ->
  tokenize_loop libm fuel q tokens last_result
  = tokenize_from libm q tokens last_result.
Proof.
  intros H. apply tokenize_loop_fuel_mono with (fuel := S (String.length q)).
  - reflexivity.
  - apply tokenize_loop_fuel_enough. lia.
  - lia.
Qed.

Lemma tokenize_from_space (c : ascii) (r : string) (tokens : list Token)
    (last_result : float) :
  isspace c = true ->
  tokenize_from libm (String c r) tokens last_result
  = tokenize_from libm r tokens last_result.
Proof. intros H. unfold tokenize_from. simpl String.length.
  apply tokenize_loop_space. assumption.
Qed.

Lemma tokenize_from_spaces (sp p : string) (tokens : list Token)
    (last_result : float) :
  string_forallb isspace sp = true ->
  tokenize_from libm (sp ++ p) tokens last_result
  = tokenize_from libm p tokens last_result.
Proof.
  induction sp as [|c sp IH]; simpl; intros H; [reflexivity|].
  apply andb_prop in H. destruct H as [Hc Hsp].
  rewrite tokenize_from_space by assumption. apply IH. assumption.
Qed.

Lemma skip_number_shorter (p : string) :
  starts_number p = true ->
  (String.length (skip_number p) < String.length p)%nat.
Proof.
  unfold starts_number. destruct p as [|c r]; [discriminate|].
  simpl deref. intros H.
  assert (Hc : isdigit c || (c =? ".")%char = true).
  { destruct (isdigit c); [reflexivity|]. simpl in *.
    destruct (c =? ".")%char; [reflexivity | discriminate]. }
  simpl. rewrite Hc. pose proof (skip_number_length r). lia.
Qed.

Lemma tokenize_from_number (p : string) (tokens : list Token)
    (last_result : float) :
  starts_number p = true ->
  tokenize_from libm p tokens last_result
  = (tokens' <- store MAX_TOKENS tokens (Number (sscanf_lf libm p)) ;;
     tokenize_from libm (skip_number p) tokens' last_result).
Proof.
  intros H. unfold tokenize_from at 1.
  rewrite tokenize_loop_number by assumption.
  destruct (store MAX_TOKENS tokens (Number (sscanf_lf libm p))); simpl;
    [|reflexivity].
  apply tokenize_loop_from. apply skip_number_shorter. assumption.
Qed.

Lemma tokenize_from_paren_left (r : string) (tokens : list Token)
    (last_result : float) :
  tokenize_from libm (String "(" r) tokens last_result
  = (tokens' <- store MAX_TOKENS tokens ParenLeft ;;
     tokenize_from libm r tokens' last_result).
Proof. reflexivity. Qed.

Lemma tokenize_from_paren_right (r : string) (tokens : list Token)
    (last_result : float) :
  tokenize_from libm (String ")" r) tokens last_result
  = (tokens' <- store MAX_TOKENS tokens ParenRight ;;
     tokenize_from libm r tokens' last_result).
Proof. reflexivity. Qed.

Lemma is_operator_char_cases (c : ascii) :
  is_operator_char c = true ->
  c = "+"%char \/ c = "-"%char \/ c = "*"%char \/ c = "/"%char
  \/ c = "%"%char \/ c = "^"%char.
Proof.
  unfold is_operator_char. simpl. intros H.
  repeat (apply orb_prop in H; destruct H as [H|H];
          [apply Ascii.eqb_eq in H; auto 10|]).
  discriminate.
Qed.

Lemma tokenize_from_operator (c : ascii) (r : string) (tokens : list Token)
    (last_result : float) :
  is_operator_char c = true ->
  tokenize_from libm (String c r) tokens last_result
  = (tokens' <- store MAX_TOKENS tokens (Operator c) ;;
     tokenize_from libm r tokens' last_result).
Proof.
  intros H. apply is_operator_char_cases in H.
  destruct H as [->|[->|[->|[->|[->| ->]]]]]; reflexivity.
Qed.

(** *** Literals followed by other text *)

Lemma string_app_assoc (a b c : string) :
  ((a ++ b) ++ c)%string = (a ++ (b ++ c))%string.
Proof. induction a; simpl; congruence. Qed.

Lemma string_app_nil_r (a : string) : (a ++ "")%string = a.
Proof. induction a; simpl; congruence. Qed.

Lemma deref_app (s rest : string) :
  deref (s ++ rest)
  = match s with
    | EmptyString => deref rest
    | String c _ => c
    end.
Proof. destruct s; reflexivity. Qed.

Lemma span_digits_app (x rest : string) :
  isdigit (deref rest) = false ->
  span_digits (x ++ rest)
  = (fst (span_digits x), (snd (span_digits x) ++ rest)%string).
Proof.
  intros Hr. induction x as [|c r IH]; simpl.
  - destruct rest as [|c r]; [reflexivity|]. simpl in *. rewrite Hr. reflexivity.
  - destruct (isdigit c); [|reflexivity].
    rewrite IH. destruct (span_digits r). reflexivity.
Qed.

Lemma span_digits_suffix (P : ascii -> bool) (x : string) :
  string_forallb P x = true -> string_forallb P (snd (span_digits x)) = true.
Proof.
  induction x as [|c r IH]; simpl; [reflexivity|]. intros H.
  destruct (isdigit c); [|exact H].
  apply andb_prop in H. destruct H as [_ H].
  destruct (span_digits r). simpl in *. apply IH. assumption.
Qed.

Lemma ends_literal_inv (rest : string) :
  ends_literal rest = true ->
  isdigit (deref rest) = false /\ (deref rest =? ".")%char = false
  /\ (deref rest =? "e")%char = false /\ (deref rest =? "E")%char = false
  /\ (deref rest =? "x")%char = false /\ (deref rest =? "X")%char = false.
Proof.
  unfold ends_literal. intros H. apply negb_true_iff in H.
  repeat (apply orb_false_elim in H; destruct H as [H ?]). auto 10.
Qed.

Lemma scan_decimal_app (x rest : string) :
  ends_literal rest = true ->
  scan_decimal (x ++ rest)
  = let '((ip, fp), (r1, r2)) := scan_decimal x in
    ((ip, fp), ((r1 ++ rest)%string, (r2 ++ rest)%string)).
Proof.
  intros He. destruct (ends_literal_inv rest He) as (Hd & Hp & _).
  unfold scan_decimal. rewrite span_digits_app by assumption.
  destruct (span_digits x) as [ip r1]. simpl fst. simpl snd.
  rewrite deref_app. destruct r1 as [|c r1]; simpl deref.
  - rewrite Hp. reflexivity.
  - destruct (c =? ".")%char; [|reflexivity].
    simpl advance. rewrite span_digits_app by assumption.
    destruct (span_digits r1). reflexivity.
Qed.

Lemma scan_decimal_suffix (x : string) :
  string_forallb digit_or_point x = true ->
  string_forallb digit_or_point (fst (snd (scan_decimal x))) = true
  /\ string_forallb digit_or_point (snd (snd (scan_decimal x))) = true.
Proof.
  intros H. unfold scan_decimal.
  pose proof (span_digits_suffix digit_or_point x H) as H1.
  destruct (span_digits x) as [ip r1]. simpl in H1.
  destruct (deref r1 =? ".")%char.
  - destruct r1 as [|c r1]; simpl advance.
    + simpl. auto.
    + simpl in H1. apply andb_prop in H1. destruct H1 as [Hc H1].
      pose proof (span_digits_suffix digit_or_point r1 H1) as H2.
      destruct (span_digits r1). simpl in *. rewrite Hc, H1. auto.
  - simpl. auto.
Qed.

(** A run of digits and points followed by [rest] is not read on into an
    exponent or a hexadecimal constant. *)
Lemma no_marker (s rest : string) :
  string_forallb digit_or_point s = true -> ends_literal rest = true ->
  (deref (s ++ rest) =? "e")%char = false
  /\ (deref (s ++ rest) =? "E")%char = false
  /\ (deref (s ++ rest) =? "x")%char = false
  /\ (deref (s ++ rest) =? "X")%char = false.
Proof.
  intros Hs He. rewrite deref_app. destruct s as [|c s].
  - destruct (ends_literal_inv rest He) as (_ & _ & H1 & H2 & H3 & H4). auto.
  - simpl in Hs. apply andb_prop in Hs. destruct Hs as [Hc _].
    repeat split;
      match goal with
      | |- (c =? ?k)%char = false =>
          destruct (Ascii.eqb_spec c k) as [->|]; [discriminate | reflexivity]
      end.
Qed.

Lemma literal_value_app (x rest : string) :
  ends_literal rest = true -> literal_value (x ++ rest) = literal_value x.
Proof.
  intros He. unfold literal_value. rewrite scan_decimal_app by assumption.
  destruct (scan_decimal x) as [[ip fp] [r1 r2]]. reflexivity.
Qed.

Lemma sscanf_lf_app (x rest : string) :
  string_forallb digit_or_point x = true -> ends_literal rest = true ->
  sscanf_lf libm (x ++ rest) = literal_value x.
Proof.
  intros Hx He. unfold sscanf_lf.
  rewrite literal_value_app by assumption.
  rewrite scan_decimal_app by assumption.
  destruct (scan_decimal_suffix x Hx) as [H1 H2].
  destruct (scan_decimal x) as [[ip fp] [r1 r2]]. simpl in H1, H2.
  destruct (no_marker r1 rest H1 He) as (_ & _ & Hx1 & Hx2).
  destruct (no_marker r2 rest H2 He) as (He1 & He2 & _).
  rewrite Hx1, Hx2, He1, He2, andb_false_r. reflexivity.
Qed.

Lemma sscanf_lf_literal (x : string) :
  string_forallb digit_or_point x = true ->
  sscanf_lf libm x = literal_value x.
Proof.
  intros Hx. rewrite <- (sscanf_lf_app x EmptyString Hx eq_refl).
  rewrite string_app_nil_r. reflexivity.
Qed.

Lemma skip_number_app (x rest : string) :
  string_forallb digit_or_point x = true -> ends_literal rest = true ->
  skip_number (x ++ rest) = rest.
Proof.
  intros Hx He. destruct (ends_literal_inv rest He) as (Hd & Hp & _).
  induction x as [|c r IH]; simpl.
  - destruct rest as [|c r]; [reflexivity|]. simpl in *. rewrite Hd, Hp.
    reflexivity.
  - simpl in Hx. apply andb_prop in Hx. destruct Hx as [Hc Hr].
    unfold digit_or_point in Hc. rewrite Hc. apply IH. assumption.
Qed.

Lemma starts_number_app (x rest : string) :
  starts_number x = true -> starts_number (x ++ rest) = true.
Proof.
  unfold starts_number. destruct x as [|c [|c' r]]; simpl; try discriminate.
  - intros H. destruct (isdigit c); [reflexivity|].
    rewrite andb_false_r in H. discriminate.
  - auto.
Qed.

Lemma ends_literal_operator (sp q : string) (op : ascii) :
  string_forallb isspace sp = true -> is_operator_char op = true ->
  ends_literal (sp ++ String op q) = true.
Proof.
  intros Hsp Hop. unfold ends_literal. rewrite deref_app.
  destruct sp as [|c sp].
  - simpl. apply is_operator_char_cases in Hop.
    destruct Hop as [->|[->|[->|[->|[->| ->]]]]]; reflexivity.
  - simpl in Hsp. apply andb_prop in Hsp. destruct Hsp as [Hc _].
    assert (Hd : isdigit c = false).
    { destruct (isdigit c) eqn:E; [|reflexivity].
      apply isdigit_not_space in E. congruence. }
    rewrite Hd. simpl.
    repeat match goal with
           | |- context [(c =? ?k)%char] =>
               destruct (Ascii.eqb_spec c k) as [->|]; [discriminate|]
           end.
    reflexivity.
Qed.

(** The tokens of a rendered expression are the infix form of its tree. *)
Lemma tokenize_from_render (sp : string) (e : source) :
  string_forallb isspace sp = true ->
  lexical e = true ->
  forall rest tokens last_result,
    ends_literal rest = true ->
    (List.length tokens + List.length (infix (tree e)) <= MAX_TOKENS)%nat ->
    tokenize_from libm (render sp e ++ rest) tokens last_result
    = tokenize_from libm rest (tokens ++ infix (tree e)) last_result.
Proof.
  intros Hsp. induction e as [x|op l IHl r IHr|e IH];
    intros Hlex rest tokens lr He Hlen.
  - simpl in Hlex, Hlen. unfold numeric_literal in Hlex.
    apply andb_prop in Hlex. destruct Hlex as [Hlex _].
    apply andb_prop in Hlex. destruct Hlex as [Hstart Hall].
    simpl render.
    rewrite tokenize_from_number by (apply starts_number_app; assumption).
    rewrite store_def by lia. simpl bind.
    rewrite sscanf_lf_app, skip_number_app by assumption. reflexivity.
  - simpl in Hlex.
    apply andb_prop in Hlex. destruct Hlex as [Hlex Hr].
    apply andb_prop in Hlex. destruct Hlex as [Hop Hl].
    simpl in Hlen. rewrite length_app in Hlen. simpl in Hlen.
    simpl render. rewrite !string_app_assoc. simpl append.
    rewrite string_app_assoc.
    rewrite IHl; [|assumption|apply ends_literal_operator; assumption|lia].
    rewrite tokenize_from_spaces by assumption.
    rewrite tokenize_from_operator by assumption.
    rewrite store_def by (rewrite length_app; lia). simpl bind.
    rewrite tokenize_from_spaces by assumption.
    rewrite IHr; [|assumption|assumption|rewrite !length_app; simpl; lia].
    simpl. rewrite <- !app_assoc. reflexivity.
  - simpl in Hlex, Hlen. rewrite length_app in Hlen. simpl in Hlen.
    simpl render. simpl append. rewrite tokenize_from_paren_left.
    rewrite store_def by lia. simpl bind.
    rewrite string_app_assoc.
    rewrite IH; [|assumption|reflexivity|rewrite length_app; simpl; lia].
    simpl append. rewrite tokenize_from_paren_right.
    rewrite store_def by (rewrite !length_app; simpl; lia). simpl bind.
    simpl. rewrite <- !app_assoc. reflexivity.
Qed.

Lemma tokenize_render (sp : string) (e : source) (last_result : float) :
  string_forallb isspace sp = true ->
  lexical e = true ->
  (List.length (infix (tree e)) <= MAX_TOKENS)%nat ->
  tokenize libm (render sp e) last_result = Def (Some (infix (tree e))).
Proof.
  intros Hsp Hlex Hlen.
  pose proof (string_app_nil_r (render sp e)) as Happ.
  change (tokenize libm (render sp e) last_result)
    with (tokenize_from libm (render sp e) [] last_result).
  rewrite <- Happ.
  rewrite tokenize_from_render by (simpl; auto).
  reflexivity.
Qed.

End SourceFacts.

(** ** Every expression has a grouping that respects the table *)


Lemma precedence_right (o : ascii) :
  is_operator_char o = true ->
  is_right_associative o = (precedence o =? 3).
Proof.
  intros H. apply is_operator_char_cases in H.
  destruct H as [->|[->|[->|[->|[->| ->]]]]]; reflexivity.
Qed.

(** [well_formed] on a node, in arithmetic. *)
Lemma well_formed_bin (op : ascii) (l r : expr) :
  well_formed (Bin op l r) = true <->
  is_operator_char op = true /\ well_formed l = true /\ well_formed r = true
  /\ precedence op <= level l /\ (precedence op = 3 -> 3 < level l)
  /\ precedence op <= level r /\ (precedence op <> 3 -> precedence op < level r).
Proof.
  simpl. split.
  - intros H.
    apply andb_prop in H. destruct H as [H Hlev].
    apply andb_prop in H. destruct H as [H Hr].
    apply andb_prop in H. destruct H as [Hop Hl].
    rewrite (precedence_right op Hop) in Hlev.
    destruct (Z.eqb_spec (precedence op) 3);
      apply andb_prop in Hlev; destruct Hlev as [H1 H2];
      repeat split; auto; lia.
  - intros (Hop & Hl & Hr & H1 & H2 & H3 & H4).
    rewrite Hop, Hl, Hr, (precedence_right op Hop). simpl.
    destruct (Z.eqb_spec (precedence op) 3); apply andb_true_intro; split;
      lia.
Qed.

Lemma left_applied_last_spec (o1 o2 : ascii) :
  is_operator_char o1 = true ->
  left_applied_last o1 o2 = true <->
  precedence o1 < precedence o2
  \/ (precedence o1 = precedence o2 /\ precedence o1 = 3).
Proof.
  intros H1. unfold left_applied_last. rewrite (precedence_right o1 H1).
  destruct (Z.ltb_spec (precedence o1) (precedence o2)) as [Hlt|Hlt];
    destruct (Z.eqb_spec (precedence o1) (precedence o2)) as [Heq|Heq];
    destruct (Z.eqb_spec (precedence o1) 3) as [H3|H3]; simpl; split; intros HE;
    try reflexivity; try discriminate; try lia; auto.
Qed.

(** [attach] on well-formed trees, for a proper right operand. *)
Lemma attach_well_formed (op : ascii) (r : source) (l : source) :
  is_operator_char op = true ->
  well_formed (tree r) = true ->
  precedence op <= level (tree r) ->
  (precedence op <> 3 -> precedence op < level (tree r)) ->
  well_formed (tree l) = true ->
  well_formed (tree (attach l op r)) = true
  /\ level (tree (attach l op r)) = Z.min (level (tree l)) (precedence op).
Proof.
  intros Hop Hr Hr1 Hr2. pose proof (precedence_operator op Hop) as Hp.
  induction l as [x|opl ll _ lr IH|e _]; intros Hl.
  - simpl attach. split; [|simpl; lia].
    apply well_formed_bin. simpl level. repeat split; auto; lia.
  - cbn [tree] in Hl. apply well_formed_bin in Hl.
    destruct Hl as (Hopl & Hll & Hlr & L1 & L2 & L3 & L4).
    pose proof (precedence_operator opl Hopl) as Hpl.
    simpl attach. destruct (left_applied_last opl op) eqn:E.
    + apply (left_applied_last_spec opl op Hopl) in E.
      destruct (IH Hlr) as [IHwf IHlev].
      split; [|simpl; lia].
      change (tree (SBin opl ll (attach lr op r)))
        with (Bin opl (tree ll) (tree (attach lr op r))).
      apply well_formed_bin. repeat split; auto; lia.
    + assert (E' : ~ (precedence opl < precedence op
                      \/ (precedence opl = precedence op /\ precedence opl = 3))).
      { intros H. apply (left_applied_last_spec opl op Hopl) in H. congruence. }
      split; [|simpl; lia].
      change (tree (SBin op (SBin opl ll lr) r))
        with (Bin op (Bin opl (tree ll) (tree lr)) (tree r)).
      apply well_formed_bin. simpl level.
      assert (Hwl : well_formed (Bin opl (tree ll) (tree lr)) = true).
      { apply well_formed_bin. repeat split; auto. }
      repeat split; auto; lia.
  - simpl attach. split; [|simpl; lia].
    apply well_formed_bin. simpl level. repeat split; auto; lia.
Qed.

Lemma join_well_formed (op : ascii) (l : source) (r : source) :
  is_operator_char op = true ->
  well_formed (tree l) = true ->
  well_formed (tree r) = true ->
  well_formed (tree (join op l r)) = true
  /\ level (tree (join op l r))
     = Z.min (level (tree l)) (Z.min (precedence op) (level (tree r))).
Proof.
  intros Hop Hl. pose proof (precedence_operator op Hop) as Hp.
  induction r as [x|opr rl IH rr _|e _]; intros Hr.
  - simpl join.
    destruct (attach_well_formed op (SLit x) l) as [H1 H2]; auto;
      try (simpl; lia).
    split; [assumption|]. rewrite H2. simpl. lia.
  - cbn [tree] in Hr. apply well_formed_bin in Hr.
    destruct Hr as (Hopr & Hrl & Hrr & R1 & R2 & R3 & R4).
    pose proof (precedence_operator opr Hopr) as Hpr.
    assert (Hwr : well_formed (tree (SBin opr rl rr)) = true).
    { apply well_formed_bin. repeat split; auto. }
    simpl join. destruct (left_applied_last op opr) eqn:E.
    + apply (left_applied_last_spec op opr Hop) in E.
      destruct (attach_well_formed op (SBin opr rl rr) l) as [H1 H2]; auto;
        try (simpl; lia).
      split; [assumption|]. rewrite H2. simpl. lia.
    + assert (E' : ~ (precedence op < precedence opr
                      \/ (precedence op = precedence opr /\ precedence op = 3))).
      { intros H. apply (left_applied_last_spec op opr Hop) in H. congruence. }
      destruct (IH Hrl) as [IHwf IHlev].
      destruct (attach_well_formed opr rr (join op l rl)) as [H1 H2]; auto.
      split; [assumption|]. rewrite H2, IHlev. simpl. lia.
  - simpl join.
    destruct (attach_well_formed op (SPar e) l) as [H1 H2]; auto;
      try (simpl; lia).
    split; [assumption|]. rewrite H2. simpl. lia.
Qed.

(** Regrouping changes neither the text nor the tokens. *)
Lemma attach_render (sp : string) (op : ascii) (r l : source) :
  render sp (attach l op r) = render sp (SBin op l r).
Proof.
  induction l as [x|opl ll _ lr IH|e _]; simpl attach; try reflexivity.
  destruct (left_applied_last opl op); [|reflexivity].
  simpl render in *. rewrite IH.
  rewrite !string_app_assoc. simpl. rewrite !string_app_assoc. reflexivity.
Qed.

Lemma join_render (sp : string) (op : ascii) (l r : source) :
  render sp (join op l r) = render sp (SBin op l r).
Proof.
  induction r as [x|opr rl IH rr _|e _]; simpl join;
    try apply attach_render.
  destruct (left_applied_last op opr); [apply attach_render|].
  rewrite attach_render. simpl render in *. rewrite IH.
  rewrite !string_app_assoc. simpl. rewrite !string_app_assoc. reflexivity.
Qed.

Lemma attach_lexical (op : ascii) (r l : source) :
  lexical (attach l op r) = lexical (SBin op l r).
Proof.
  induction l as [x|opl ll _ lr IH|e _]; simpl attach; try reflexivity.
  destruct (left_applied_last opl op); [|reflexivity].
  simpl lexical in *. rewrite IH.
  destruct (is_operator_char opl), (is_operator_char op), (lexical ll),
    (lexical lr), (lexical r); reflexivity.
Qed.

Lemma join_lexical (op : ascii) (l r : source) :
  lexical (join op l r) = lexical (SBin op l r).
Proof.
  induction r as [x|opr rl IH rr _|e _]; simpl join;
    try apply attach_lexical.
  destruct (left_applied_last op opr); [apply attach_lexical|].
  rewrite attach_lexical. simpl lexical in *. rewrite IH.
  destruct (is_operator_char opr), (is_operator_char op), (lexical l),
    (lexical rl), (lexical rr); reflexivity.
Qed.

Lemma regroup_render (sp : string) (e : source) :
  render sp (regroup e) = render sp e.
Proof.
  induction e as [x|op l IHl r IHr|e IH]; simpl regroup.
  - reflexivity.
  - rewrite join_render. simpl. rewrite IHl, IHr. reflexivity.
  - simpl. rewrite IH. reflexivity.
Qed.

Lemma regroup_lexical (e : source) : lexical (regroup e) = lexical e.
Proof.
  induction e as [x|op l IHl r IHr|e IH]; simpl regroup.
  - reflexivity.
  - rewrite join_lexical. simpl. rewrite IHl, IHr. reflexivity.
  - simpl. assumption.
Qed.

Lemma regroup_well_formed (e : source) :
  lexical e = true -> well_formed (tree (regroup e)) = true.
Proof.
  induction e as [x|op l IHl r IHr|e IH]; simpl; intros H.
  - reflexivity.
  - apply andb_prop in H. destruct H as [H Hr].
    apply andb_prop in H. destruct H as [Hop Hl].
    apply join_well_formed; auto.
  - auto.
Qed.

(** The number of tokens depends on the text only. *)
Lemma infix_bin_length (op : ascii) (l r : source) :
  List.length (infix (tree (SBin op l r)))
  = (List.length (infix (tree l)) + 1 + List.length (infix (tree r)))%nat.
Proof. simpl. rewrite length_app. simpl. lia. Qed.

Lemma attach_tokens (op : ascii) (r l : source) :
  List.length (infix (tree (attach l op r)))
  = List.length (infix (tree (SBin op l r))).
Proof.
  induction l as [x|opl ll _ lr IH|e _]; simpl attach; try reflexivity.
  destruct (left_applied_last opl op); [|reflexivity].
  rewrite !infix_bin_length in *. rewrite IH. lia.
Qed.

Lemma join_tokens (op : ascii) (l r : source) :
  List.length (infix (tree (join op l r)))
  = List.length (infix (tree (SBin op l r))).
Proof.
  induction r as [x|opr rl IH rr _|e _]; simpl join;
    try apply attach_tokens.
  destruct (left_applied_last op opr); [apply attach_tokens|].
  rewrite attach_tokens. rewrite !infix_bin_length in *. rewrite IH. lia.
Qed.

Lemma regroup_tokens (e : source) :
  List.length (infix (tree (regroup e))) = List.length (infix (tree e)).
Proof.
  induction e as [x|op l IHl r IHr|e IH]; simpl regroup.
  - reflexivity.
  - rewrite join_tokens, !infix_bin_length. lia.
  - simpl. rewrite !length_app. simpl. lia.
Qed.

(** A grouping that already respects the table is left as it is. *)
Lemma regroup_fixed (e : source) :
  well_formed (tree e) = true -> regroup e = e.
Proof.
  induction e as [x|op l IHl r IHr|e IH]; simpl regroup; intros H.
  - reflexivity.
  - change (tree (SBin op l r)) with (Bin op (tree l) (tree r)) in H.
    apply well_formed_bin in H.
    destruct H as (Hop & Hl & Hr & L1 & L2 & R1 & R2).
    rewrite IHl, IHr by assumption.
    pose proof (precedence_operator op Hop) as Hp.
    assert (Hat : attach l op r = SBin op l r).
    { destruct l as [x|opl ll lr|e]; try reflexivity.
      simpl. destruct (left_applied_last opl op) eqn:E; [|reflexivity].
      cbn [tree] in Hl. apply well_formed_bin in Hl. destruct Hl as (Hopl & _).
      apply (left_applied_last_spec opl op Hopl) in E. simpl in L1, L2. lia. }
    destruct r as [x|opr rl rr|e]; simpl join; try exact Hat.
    destruct (left_applied_last op opr) eqn:E; [exact Hat|].
    exfalso.
    assert (E' : ~ (precedence op < precedence opr
                    \/ (precedence op = precedence opr /\ precedence op = 3))).
    { intros HE. apply (left_applied_last_spec op opr Hop) in HE. congruence. }
    simpl in R1, R2. lia.
  - simpl in H. rewrite IH by assumption. reflexivity.
Qed.


(** ** The token buffer *)

Section BufferFacts.

Variable libm : Libm.

(** A run of [n] left parentheses is stored token by token until the
    buffer is full; the next store is past its end. *)
Lemma tokenize_loop_parens (n : nat) :
  forall fuel tokens last_result,
    (n < fuel)%nat ->
    (List.length tokens <= MAX_TOKENS)%nat ->
    tokenize_loop libm fuel (repeat_char n "(") tokens last_result
    = if (List.length tokens + n <=? MAX_TOKENS)%nat
      then Def (Some (tokens ++ repeat ParenLeft n))
      else Undef OutOfBounds.
Proof.
  induction n as [|n IH]; intros fuel tokens lr Hlt Hlen;
    (destruct fuel as [|fuel]; [lia|]).
  - simpl. rewrite Nat.add_0_r, app_nil_r.
    destruct (Nat.leb_spec (List.length tokens) MAX_TOKENS); [reflexivity | lia].
  - cbn [repeat_char tokenize_loop deref advance].
    change ("(" =? NUL)%char with false. change (isspace "(") with false.
    change (isdigit "(") with false. change ("(" =? ".")%char with false.
    change (isalpha "(") with false. change ("(" =? "(")%char with true.
    cbv iota. simpl orb. cbv iota. unfold store.
    destruct (Nat.ltb_spec (List.length tokens) MAX_TOKENS) as [Hl|Hl].
    + simpl bind. rewrite IH by (rewrite ?length_app; simpl; lia).
      rewrite length_app. simpl.
      replace (List.length tokens + 1 + n)%nat
        with (List.length tokens + S n)%nat by lia.
      rewrite <- app_assoc. reflexivity.
    + simpl bind.
      destruct (Nat.leb_spec (List.length tokens + S n) MAX_TOKENS);
        [lia | reflexivity].
Qed.

End BufferFacts.

(** [tokenize] returns -1 only where it meets a character that no token
    starts with. *)
Lemma skip_number_invalid (p : string) :
  has_invalid (skip_number p) = true -> has_invalid p = true.
Proof.
  induction p as [|c r IH]; [auto|]. cbn [skip_number].
  destruct (isdigit c || (c =? ".")%char); [|auto].
  intros H. cbn [has_invalid]. rewrite (IH H). apply orb_true_r.
Qed.

Lemma read_alpha_invalid (p : string) :
  has_invalid (snd (read_alpha p)) = true -> has_invalid p = true.
Proof.
  induction p as [|c r IH]; [auto|]. cbn [read_alpha].
  destruct (isalpha c); [|auto].
  destruct (read_alpha r) as [f r']. cbn [snd] in *.
  intros H. cbn [has_invalid]. rewrite (IH H). apply orb_true_r.
Qed.

Lemma tokenize_loop_refuses (libm : Libm) (fuel : nat) :
  forall p tokens last_result,
    tokenize_loop libm fuel p tokens last_result = Def None ->
    has_invalid p = true.
Proof.
  induction fuel as [|fuel IH]; intros p tokens lr H; [discriminate|].
  assert (Hstore : forall t q,
             (tokens' <- store MAX_TOKENS tokens t ;;
              tokenize_loop libm fuel q tokens' lr) = Def None ->
             has_invalid q = true).
  { intros t q. destruct (store MAX_TOKENS tokens t) as [tokens'|u]; simpl;
      [apply IH | discriminate]. }
  assert (Hadv : has_invalid (advance p) = true -> has_invalid p = true).
  { destruct p as [|c r]; [auto|]. cbn [advance has_invalid].
    intros ->. apply orb_true_r. }
  cbn [tokenize_loop] in H.
  destruct (deref p =? NUL)%char eqn:E0; [discriminate|].
  destruct (isspace (deref p)) eqn:E1; [apply Hadv, (IH _ _ _ H)|].
  destruct (isdigit (deref p) || (deref p =? ".")%char && isdigit (deref (advance p)))
    eqn:E2; [apply skip_number_invalid, (Hstore _ _ H)|].
  destruct (isalpha (deref p)) eqn:E3.
  { pose proof (read_alpha_invalid p) as Hra.
    destruct (read_alpha p) as [func p'].
    destruct (10 <=? String.length func)%nat; [discriminate|].
    apply Hra, (Hstore _ _ H). }
  destruct (deref p =? "(")%char eqn:E4; [apply Hadv, (Hstore _ _ H)|].
  destruct (deref p =? ")")%char eqn:E5; [apply Hadv, (Hstore _ _ H)|].
  destruct (is_operator_char (deref p)) eqn:E6; [apply Hadv, (Hstore _ _ H)|].
  destruct p as [|c r]; [discriminate|].
  cbn [has_invalid]. unfold invalid_at, starts_number.
  rewrite E0, E1, E2, E3, E4, E5, E6. reflexivity.
Qed.

(** C6, on the code: [tokenize] has no check of the token count.  An
    input of [n] left parentheses is tokenized in full while n is at most
    MAX_TOKENS = 100 and stores past the end of the buffer beyond that; and
    a return of -1 always comes from a character that no token starts
    with, never from the number of tokens. *)
Theorem tokenize_overruns_token_buffer (libm : Libm) :
  (forall n last_result,
      tokenize libm (repeat_char n "(") last_result
      = if (n <=? MAX_TOKENS)%nat then Def (Some (repeat ParenLeft n))
        else Undef OutOfBounds)
  /\ (forall s last_result,
         tokenize libm s last_result = Def None -> has_invalid s = true)
  /\ (forall last_result error,
         evaluate_expression libm (repeat_char 101 "(") last_result error
         = Undef OutOfBounds).
Proof.
  split; [|split].
  - intros n lr. unfold tokenize. rewrite tokenize_loop_parens.
    + reflexivity.
    + assert (H : String.length (repeat_char n "(") = n)
        by (induction n; simpl; congruence).
      rewrite H. lia.
    + simpl. lia.
  - intros s lr. apply tokenize_loop_refuses.
  - intros lr error. vm_compute. reflexivity.
Qed.

Lemma tokenize_overruns_token_buffer_witness :
  tokenize sample_libm "2 $ 3" 0 = Def None
  /\ has_invalid "2 $ 3" = true
  /\ tokenize sample_libm (repeat_char 101 "(") 0 = Undef OutOfBounds.
Proof.
  split; [reflexivity|]. split.
  - apply (proj1 (proj2 (tokenize_overruns_token_buffer sample_libm))
             "2 $ 3"%string 0%float). reflexivity.
  - apply (proj1 (tokenize_overruns_token_buffer sample_libm) 101%nat 0%float).
Defined.

(** ** Literals with several points *)

(** C7, on the code: the NUMBER branch takes the value of the longest
    prefix with one point and then skips every digit and point, so a run
    of digits and points is one Number token however many points it has:
    "1.2.3", which has two, is accepted as the single Number token 1.2. *)
Theorem several_points_one_number (libm : Libm) :
  (forall x last_result,
      starts_number x = true ->
      string_forallb digit_or_point x = true ->
      tokenize libm x last_result = Def (Some [Number (literal_value x)]))
  /\ count_points "1.2.3" = 2%nat
  /\ literal_value "1.2.3" = dec_value 12 1
  /\ (forall last_result,
         tokenize libm "1.2.3" last_result = Def (Some [Number (dec_value 12 1)])
         /\ evaluate_expression libm "1.2.3" last_result false
            = Def (dec_value 12 1, false)).
Proof.
  split; [|split; [|split]].
  - intros x lr Hstart Hall. unfold tokenize.
    rewrite tokenize_loop_number by assumption.
    rewrite store_def by (simpl; unfold MAX_TOKENS; lia). simpl bind.
    rewrite skip_number_all, sscanf_lf_literal by assumption.
    destruct x; [discriminate|]. reflexivity.
  - reflexivity.
  - reflexivity.
  - intros lr. split; vm_compute; reflexivity.
Qed.

Lemma several_points_one_number_witness :
  starts_number "1.2.3" = true
  /\ string_forallb digit_or_point "1.2.3" = true
  /\ tokenize sample_libm "1.2.3" 0 = Def (Some [Number (literal_value "1.2.3")]).
Proof.
  split; [reflexivity|]. split; [reflexivity|].
  apply (proj1 (several_points_one_number sample_libm)); reflexivity.
Defined.

(** ** The error channel *)

Section ErrorFacts.

Variable libm : Libm.

Lemma apply_operator_sticky (op : ascii) (a b v : float) (e : bool) :
  apply_operator libm op a b true = Def (v, e) -> e = true.
Proof.
  unfold apply_operator. intros H.
  repeat match type of H with
         | context [if ?c then _ else _] => destruct c
         | context [bind ?m _] => destruct m; simpl in H
         end; inversion H; reflexivity.
Qed.

Lemma apply_function_sticky (func : string) (a v : float) (e : bool) :
  apply_function libm func a true = Def (v, e) -> e = true.
Proof.
  unfold apply_function. intros H.
  repeat match type of H with
         | context [if ?c then _ else _] => destruct c
         | context [bind ?m _] => destruct m; simpl in H
         end; inversion H; reflexivity.
Qed.

(** [*error] is only ever set: a flag that is up stays up. *)
Lemma eval_postfix_loop_sticky (tokens : list Token) :
  forall stack v e,
    eval_postfix_loop libm tokens stack true = Def (v, e) -> e = true.
Proof.
  induction tokens as [|t rest IH]; intros stack v e H.
  - simpl in H. destruct stack as [|x [|y stack]]; inversion H; reflexivity.
  - destruct t as [value|op|func| |]; cbn [eval_postfix_loop] in H.
    + destruct (push stack value) as [stack'|u]; simpl in H; [|discriminate].
      apply (IH _ _ _ H).
    + destruct stack as [|b [|a stack]]; try (inversion H; reflexivity).
      destruct (apply_operator libm op a b true) as [[r e']|u] eqn:E;
        simpl in H; [|discriminate].
      apply apply_operator_sticky in E. subst e'. apply (IH _ _ _ H).
    + destruct stack as [|a stack]; try (inversion H; reflexivity).
      destruct (apply_function libm func a true) as [[r e']|u] eqn:E;
        simpl in H; [|discriminate].
      apply apply_function_sticky in E. subst e'. apply (IH _ _ _ H).
    + apply (IH _ _ _ H).
    + apply (IH _ _ _ H).
Qed.

End ErrorFacts.

(** C8, as the code has it.  Failure is one untyped flag: a stage that
    fails (tokenize or to_postfix returning -1) ends the call at once with
    value 0 and the flag set, a successful conversion hands over to the
    evaluator, and a flag that is set is never cleared.  The flag carries
    no error kind. *)
Theorem failure_is_one_flag (libm : Libm) (s : string) (last_result : float)
    (error : bool) :
  (tokenize libm s last_result = Def None ->
   evaluate_expression libm s last_result error = Def (0%float, true))
  /\ (forall ts,
         tokenize libm s last_result = Def (Some ts) ->
         to_postfix ts = Def None ->
         evaluate_expression libm s last_result error = Def (0%float, true))
  /\ (forall ts post,
         tokenize libm s last_result = Def (Some ts) ->
         to_postfix ts = Def (Some post) ->
         evaluate_expression libm s last_result error
         = eval_postfix libm post error)
  /\ (forall v error',
         evaluate_expression libm s last_result true = Def (v, error') ->
         error' = true).
Proof.
  unfold evaluate_expression. split; [|split; [|split]].
  - intros ->. reflexivity.
  - intros ts -> Hc. simpl. rewrite Hc. reflexivity.
  - intros ts post -> Hc. simpl. rewrite Hc. reflexivity.
  - intros v e'.
    destruct (tokenize libm s last_result) as [[ts|]|u]; simpl;
      [|intros H; inversion H; reflexivity|discriminate].
    destruct (to_postfix ts) as [[post|]|u]; simpl;
      [|intros H; inversion H; reflexivity|discriminate].
    apply eval_postfix_loop_sticky.
Qed.

Lemma failure_is_one_flag_witness :
  tokenize sample_libm "$" 0 = Def None
  /\ evaluate_expression sample_libm "$" 0 false = Def (0%float, true)
  /\ to_postfix [ParenLeft; Number 3] = Def None
  /\ evaluate_expression sample_libm "(3" 0 false = Def (0%float, true)
  /\ evaluate_expression sample_libm "1 + 2" 0 false
     = eval_postfix sample_libm [Number 1; Number 2; Operator "+"] false
  /\ evaluate_expression sample_libm "1 + 2" 0 true = Def (3%float, true)
  /\ true = true.
Proof.
  split; [reflexivity|]. split; [|split; [reflexivity|split; [|split]]].
  - apply (proj1 (failure_is_one_flag sample_libm "$" 0 false)). reflexivity.
  - apply (proj1 (proj2 (failure_is_one_flag sample_libm "(3" 0 false))
             [ParenLeft; Number 3]); reflexivity.
  - apply (proj1 (proj2 (proj2 (failure_is_one_flag sample_libm "1 + 2" 0 false)))
             [Number 1; Operator "+"; Number 2]); reflexivity.
  - split; [reflexivity|].
    apply (proj2 (proj2 (proj2 (failure_is_one_flag sample_libm "1 + 2" 0 false)))
             3%float true). reflexivity.
Defined.

(** C8 as the specification words it fails: an invalid character, an
    unbalanced parenthesis and a division by zero, three kinds of error,
    return the same value, so the caller cannot tell them apart. *)
Lemma error_kinds_counterexample :
  evaluate_expression sample_libm "$" 0 false = Def (0%float, true)
  /\ evaluate_expression sample_libm "(3" 0 false = Def (0%float, true)
  /\ evaluate_expression sample_libm "5 / 0" 0 false = Def (0%float, true)
  /\ evaluate_expression sample_libm "$" 0 false
     = evaluate_expression sample_libm "(3" 0 false
  /\ evaluate_expression sample_libm "(3" 0 false
     = evaluate_expression sample_libm "5 / 0" 0 false.
Proof. repeat split; reflexivity. Qed.

(** ** Functions without parentheses *)

(** C9, as the code has it.  For every registered function [f] and numeric
    literal [x], "f x" evaluates to exactly what [apply_function] returns
    for [f] and the value of [x]: its value and an unchanged flag inside
    the domain of [f], and 0 with the flag set outside; in particular
    "sqrt 16" gives 4. *)
Theorem function_without_parentheses (libm : Libm) (f x : string)
    (last_result : float) (error : bool) :
  In f registry -> numeric_literal x = true ->
  evaluate_expression libm (f ++ " " ++ x) last_result error
  = apply_function libm f (literal_value x) error
  /\ evaluate_expression libm "sqrt 16" last_result false = Def (4%float, false).
Proof.
  intros Hf Hx. split; [|vm_compute; reflexivity].
  unfold evaluate_expression.
  rewrite tokenize_function_literal by assumption.
  unfold numeric_literal in Hx.
  apply andb_prop in Hx. destruct Hx as [Hx _].
  apply andb_prop in Hx. destruct Hx as [_ Hall].
  rewrite sscanf_lf_literal by assumption.
  cbn [bind to_postfix to_postfix_loop drain type TokenType_eqb].
  unfold store, push. simpl bind.
  unfold eval_postfix. cbn [eval_postfix_loop]. unfold push. simpl bind.
  destruct (apply_function libm f (literal_value x) error) as [[r e]|u];
    reflexivity.
Qed.

Lemma function_without_parentheses_witness :
  literal_value "16" = 16%float
  /\ evaluate_expression sample_libm "sqrt 16" 0 false
     = apply_function sample_libm "sqrt" (literal_value "16") false
  /\ evaluate_expression sample_libm "sqrt 16" 0 false = Def (4%float, false).
Proof.
  split; [reflexivity|].
  apply (function_without_parentheses sample_libm "sqrt" "16" 0 false).
  - simpl. auto.
  - reflexivity.
Defined.

(** C9 as the specification words it fails: [ln] is registered and 0 is a
    numeric literal, yet "ln 0" does not succeed. *)
Lemma function_without_parentheses_counterexample :
  In "ln"%string registry
  /\ numeric_literal "0" = true
  /\ evaluate_expression sample_libm "ln 0" 0 false = Def (0%float, true).
Proof. split; [simpl; auto|]. split; reflexivity. Qed.

(** ** Empty input *)

(** C10.  The empty string and every input made of white space only
    tokenize to no token, convert to the empty postfix sequence and are
    refused by the evaluator, whose final stack depth is 0 and not 1, for
    every last result. *)
Theorem blank_input_fails (libm : Libm) (s : string) (last_result : float)
    (error : bool) :
  string_forallb isspace s = true ->
  tokenize libm s last_result = Def (Some [])
  /\ to_postfix [] = Def (Some [])
  /\ eval_postfix libm [] error = Def (0%float, true)
  /\ evaluate_expression libm s last_result error = Def (0%float, true).
Proof.
  intros Hs.
  assert (Ht : tokenize libm s last_result = Def (Some [])).
  { apply tokenize_loop_spaces; [assumption | lia]. }
  repeat split; try assumption.
  unfold evaluate_expression. rewrite Ht. reflexivity.
Qed.

Lemma blank_input_fails_witness :
  string_forallb isspace "   " = true
  /\ evaluate_expression sample_libm "" 0 false = Def (0%float, true)
  /\ evaluate_expression sample_libm "   " 0 false = Def (0%float, true).
Proof.
  split; [reflexivity|]. split.
  - apply (blank_input_fails sample_libm "" 0 false). reflexivity.
  - apply (blank_input_fails sample_libm "   " 0 false). reflexivity.
Defined.

(** ** Precedence and parentheses: the calculator against direct arithmetic *)

Section DirectFacts.

Variable libm : Libm.

Lemma binary_normalize_opp (p : positive) :
  SFopp (binary_normalize prec emax (Zpos p) 0 false)
  = binary_normalize prec emax (Zneg p) 0 false.
Proof.
  unfold binary_normalize, binary_round.
  destruct (shl_align p 0 (fexp prec emax (Z.pos (digits2_pos p) + 0)))
    as [mz ez].
  unfold binary_round_aux.
  destruct (shr_fexp prec emax (Z.pos mz) ez loc_Exact) as [mrs' e'].
  destruct (shr_fexp prec emax
              (round_nearest_even (shr_m mrs') (loc_of_shr_record mrs')) e'
              loc_Exact) as [mrs'' e''].
  destruct (shr_m mrs'') as [|m|m]; try reflexivity.
  destruct (e'' <=? emax - prec); reflexivity.
Qed.

(** The conversion of the C language from [int] to [double] gives the
    double of the integer. *)
Lemma integer_to_double_small (z : Z) :
  Z.abs z < 2 ^ 31 -> integer_to_double z = int_to_double z.
Proof.
  intros H. unfold integer_to_double, int_to_double.
  assert (Hw : 2 ^ 31 < Uint63Axioms.wB) by reflexivity.
  destruct z as [|p|p].
  - reflexivity.
  - rewrite <- (SF2Prim_Prim2SF (of_uint63 (Uint63.of_Z (Z.pos p)))).
    rewrite of_uint63_spec, Uint63.of_Z_spec, Z.mod_small by lia.
    reflexivity.
  - rewrite <- (SF2Prim_Prim2SF (- of_uint63 (Uint63.of_Z (Z.pos p)))).
    rewrite opp_spec, of_uint63_spec, Uint63.of_Z_spec, Z.mod_small by lia.
    rewrite binary_normalize_opp. reflexivity.
Qed.

Lemma rem_of_ints (x y : Z) :
  INT_MIN <= y <= INT_MAX -> y <> 0 -> Z.abs (Z.rem x y) < 2 ^ 31.
Proof.
  unfold INT_MIN, INT_MAX. intros Hy Hnz.
  pose proof (Z.rem_bound_abs x y Hnz) as Hb.
  assert (Z.abs y <= 2 ^ 31) by (change (2 ^ 31) with 2147483648; lia).
  lia.
Qed.

Lemma int_operands_inv (a b : float) :
  int_operands a b = true ->
  exists x y,
    truncate a = Some x /\ truncate b = Some y
    /\ double_to_int a = Def x /\ double_to_int b = Def y
    /\ INT_MIN <= y <= INT_MAX
    /\ (x =? INT_MIN) && (y =? -1) = false.
Proof.
  unfold int_operands.
  destruct (truncate a) as [x|] eqn:Ea; [|discriminate].
  destruct (truncate b) as [y|] eqn:Eb; [|discriminate].
  intros H.
  apply andb_prop in H. destruct H as [H Hov].
  apply andb_prop in H. destruct H as [H Hy2].
  apply andb_prop in H. destruct H as [H Hy1].
  apply andb_prop in H. destruct H as [Hx1 Hx2].
  apply Z.leb_le in Hx1, Hx2, Hy1, Hy2. apply negb_true_iff in Hov.
  exists x, y. repeat split; try assumption.
  - apply double_to_int_truncate. auto.
  - apply double_to_int_truncate. auto.
Qed.

(** Where the table gives a value and the operands of a remainder are
    [int]s, [apply_operator] returns that value and leaves the flag. *)
Lemma direct_operator_applied (op : ascii) (a b v : float) (error : bool) :
  direct_operator libm op a b = Some v ->
  ((op =? "%")%char = true -> int_operands a b = true) ->
  apply_operator libm op a b error = Def (v, error).
Proof.
  unfold direct_operator, apply_operator. intros H Hint.
  destruct (op =? "+")%char; [injection H as <-; reflexivity|].
  destruct (op =? "-")%char; [injection H as <-; reflexivity|].
  destruct (op =? "*")%char; [injection H as <-; reflexivity|].
  destruct (op =? "/")%char.
  { destruct (b =? 0)%float; [discriminate|]. injection H as <-. reflexivity. }
  destruct (op =? "%")%char.
  { destruct (int_operands_inv a b (Hint eq_refl))
      as (x & y & Ea & Eb & Da & Db & Hy & Hov).
    rewrite Ea, Eb in H. rewrite Db. simpl bind.
    destruct (Z.eqb_spec y 0) as [|Hnz]; [discriminate|].
    rewrite Da. simpl bind. rewrite Hov.
    injection H as <-.
    rewrite integer_to_double_small by (apply rem_of_ints; assumption).
    reflexivity. }
  destruct (op =? "^")%char; [injection H as <-; reflexivity|].
  discriminate.
Qed.

(** What [apply_operator] returns on a clear flag is what the table
    gives: its value when the flag stays clear, a failure when the flag is
    raised. *)
Lemma apply_operator_direct (op : ascii) (a b v : float) (error' : bool) :
  apply_operator libm op a b false = Def (v, error') ->
  direct_operator libm op a b = if error' then None else Some v.
Proof.
  unfold direct_operator, apply_operator. intros H.
  destruct (op =? "+")%char; [injection H as <- <-; reflexivity|].
  destruct (op =? "-")%char; [injection H as <- <-; reflexivity|].
  destruct (op =? "*")%char; [injection H as <- <-; reflexivity|].
  destruct (op =? "/")%char.
  { destruct (b =? 0)%float; injection H as <- <-; reflexivity. }
  destruct (op =? "%")%char.
  { destruct (double_to_int b) as [y|u] eqn:Db; simpl in H; [|discriminate].
    apply double_to_int_truncate in Db. destruct Db as [Eb Hy].
    rewrite Eb.
    destruct (Z.eqb_spec y 0) as [Hz|Hnz].
    - injection H as <- <-. destruct (truncate a); reflexivity.
    - destruct (double_to_int a) as [x|u] eqn:Da; simpl in H; [|discriminate].
      apply double_to_int_truncate in Da. destruct Da as [Ea Hx].
      rewrite Ea.
      destruct ((x =? INT_MIN) && (y =? -1)); [discriminate|].
      injection H as <- <-.
      rewrite integer_to_double_small by (apply rem_of_ints; assumption).
      reflexivity. }
  destruct (op =? "^")%char; injection H as <- <-; reflexivity.
Qed.

Lemma apply_operator_raised (op : ascii) (a b v : float) (error' : bool) :
  apply_operator libm op a b true = Def (v, error') -> error' = true.
Proof.
  unfold apply_operator. intros H.
  repeat match type of H with
         | context [if ?c then _ else _] => destruct c
         | context [bind ?m _] => destruct m; simpl in H
         end; inversion H; reflexivity.
Qed.

Lemma eval_expr_raised (e : expr) :
  forall v error', eval_expr libm e true = Def (v, error') -> error' = true.
Proof.
  induction e as [x|op l IHl r IHr|e IH]; intros v error' H; simpl in H.
  - injection H as _ <-. reflexivity.
  - destruct (eval_expr libm l true) as [[a e1]|u]; simpl in H; [|discriminate].
    specialize (IHl a e1 eq_refl). subst e1.
    destruct (eval_expr libm r true) as [[b e2]|u]; simpl in H; [|discriminate].
    specialize (IHr b e2 eq_refl). subst e2.
    apply (apply_operator_raised _ _ _ _ _ H).
  - apply (IH _ _ H).
Qed.

(** Direct evaluation gives a value, and every remainder is taken of
    [int]s: the evaluator's arithmetic returns that value. *)
Lemma direct_value_evaluated (e : expr) :
  forall v error,
    direct_value libm e = Some v -> remainders_in_int libm e = true ->
    eval_expr libm e error = Def (v, error).
Proof.
  induction e as [x|op l IHl r IHr|e IH]; intros v error Hd Hint;
    simpl in Hd, Hint.
  - injection Hd as <-. reflexivity.
  - apply andb_prop in Hint. destruct Hint as [Hint Hop].
    apply andb_prop in Hint. destruct Hint as [Hil Hir].
    destruct (direct_value libm l) as [a|]; [|discriminate].
    destruct (direct_value libm r) as [b|]; [|discriminate].
    simpl. rewrite (IHl a error eq_refl Hil). simpl.
    rewrite (IHr b error eq_refl Hir). simpl.
    apply direct_operator_applied; [assumption|].
    intros E. rewrite E in Hop. exact Hop.
  - apply IH; assumption.
Qed.

(** Whatever the evaluator's arithmetic returns on a clear flag is what
    direct evaluation gives. *)
Lemma eval_expr_direct (e : expr) :
  forall v error',
    eval_expr libm e false = Def (v, error') ->
    direct_value libm e = if error' then None else Some v.
Proof.
  induction e as [x|op l IHl r IHr|e IH]; intros v error' H; simpl in H.
  - injection H as <- <-. reflexivity.
  - destruct (eval_expr libm l false) as [[a e1]|u] eqn:El; simpl in H;
      [|discriminate].
    specialize (IHl a e1 eq_refl). simpl. rewrite IHl.
    destruct e1.
    + destruct (eval_expr libm r true) as [[b e2]|u] eqn:Er; simpl in H;
        [|discriminate].
      apply eval_expr_raised in Er. subst e2.
      apply apply_operator_raised in H. subst error'. reflexivity.
    + destruct (eval_expr libm r false) as [[b e2]|u] eqn:Er; simpl in H;
        [|discriminate].
      specialize (IHr b e2 eq_refl). rewrite IHr.
      destruct e2.
      * apply apply_operator_raised in H. subst error'. reflexivity.
      * apply apply_operator_direct. assumption.
  - apply (IH _ _ H).
Qed.

(** [evaluate_expression] on a text whose tokens are the infix form of a
    tree grouped as the table says. *)
Lemma evaluate_infix (s : string) (last_result : float) (error : bool)
    (e : expr) :
  well_formed e = true ->
  tokenize libm s last_result = Def (Some (infix e)) ->
  evaluate_expression libm s last_result error = eval_expr libm e error.
Proof.
  intros Hwf Htok.
  pose proof (tokenize_length libm s last_result _ Htok) as Hlen.
  unfold evaluate_expression. rewrite Htok. simpl.
  rewrite to_postfix_expr by assumption. simpl.
  apply eval_postfix_expr. assumption.
Qed.

End DirectFacts.

(** C1, as the code has it.  For every arithmetic expression without
    functions, within the capacity of the token buffer: the text, written
    with any white space around its operators, has the grouping that the
    precedence table (+ - at 1, * / % at 2, ^ at 3) and the parentheses
    give it ([regroup], which leaves such a grouping as it is).  Where
    direct arithmetic evaluation of that grouping gives a value and every
    remainder is taken of operands that truncate to [int]s,
    [evaluate_expression] returns that value and leaves the error flag;
    and whatever it returns on a clear flag agrees with direct evaluation:
    the direct value when the flag stays clear, and the flag is raised
    only where direct evaluation fails.  The same holds for any text that
    tokenizes to the infix form of a tree grouped as the table says.  In
    particular "3 + 4 * 2" gives 11 and "(3 + 4) * 2" gives 14. *)
Theorem evaluate_matches_direct_evaluation (libm : Libm) :
  (forall sp e last_result,
      string_forallb isspace sp = true ->
      lexical e = true ->
      (List.length (infix (tree e)) <= MAX_TOKENS)%nat ->
      well_formed (tree (regroup e)) = true
      /\ render sp (regroup e) = render sp e
      /\ (forall v error,
             direct_value libm (tree (regroup e)) = Some v ->
             remainders_in_int libm (tree (regroup e)) = true ->
             evaluate_expression libm (render sp e) last_result error
             = Def (v, error))
      /\ (forall v error',
             evaluate_expression libm (render sp e) last_result false
             = Def (v, error') ->
             direct_value libm (tree (regroup e))
             = if error' then None else Some v))
  /\ (forall e, well_formed (tree e) = true -> regroup e = e)
  /\ (forall s last_result e,
         well_formed e = true ->
         tokenize libm s last_result = Def (Some (infix e)) ->
         (forall v error,
             direct_value libm e = Some v ->
             remainders_in_int libm e = true ->
             evaluate_expression libm s last_result error = Def (v, error))
         /\ (forall v error',
                evaluate_expression libm s last_result false = Def (v, error') ->
                direct_value libm e = if error' then None else Some v))
  /\ (precedence "+" = 1 /\ precedence "-" = 1 /\ precedence "*" = 2
      /\ precedence "/" = 2 /\ precedence "%" = 2 /\ precedence "^" = 3)
  /\ (forall last_result,
         evaluate_expression libm "3 + 4 * 2" last_result false
         = Def (11%float, false)
         /\ direct_value libm (Bin "+" (Lit 3) (Bin "*" (Lit 4) (Lit 2)))
            = Some 11%float)
  /\ (forall last_result,
         evaluate_expression libm "(3 + 4) * 2" last_result false
         = Def (14%float, false)
         /\ direct_value libm (Bin "*" (Par (Bin "+" (Lit 3) (Lit 4))) (Lit 2))
            = Some 14%float).
Proof.
  assert (Hgen : forall s lr e,
             well_formed e = true ->
             tokenize libm s lr = Def (Some (infix e)) ->
             (forall v error,
                 direct_value libm e = Some v ->
                 remainders_in_int libm e = true ->
                 evaluate_expression libm s lr error = Def (v, error))
             /\ (forall v error',
                    evaluate_expression libm s lr false = Def (v, error') ->
                    direct_value libm e = if error' then None else Some v)).
  { intros s lr e Hwf Htok. split.
    - intros v error Hd Hint.
      rewrite (evaluate_infix libm s lr error e Hwf Htok).
      apply direct_value_evaluated; assumption.
    - intros v error' H.
      rewrite (evaluate_infix libm s lr false e Hwf Htok) in H.
      apply eval_expr_direct. assumption. }
  split; [|split; [|split; [|split; [|split]]]].
  - intros sp e lr Hsp Hlex Hlen.
    pose proof (regroup_well_formed e Hlex) as Hwf.
    split; [exact Hwf|]. split; [apply regroup_render|].
    apply Hgen; [exact Hwf|].
    rewrite <- (regroup_render sp e).
    apply tokenize_render; [assumption| |].
    + rewrite regroup_lexical. assumption.
    + rewrite regroup_tokens. assumption.
  - apply regroup_fixed.
  - exact Hgen.
  - repeat split.
  - intros lr. split; vm_compute; reflexivity.
  - intros lr. split; vm_compute; reflexivity.
Qed.

Lemma evaluate_matches_direct_evaluation_witness :
  render " " (SBin "*" (SBin "+" (SLit "3") (SLit "4")) (SLit "2"))
  = "3 + 4 * 2"%string
  /\ regroup (SBin "*" (SBin "+" (SLit "3") (SLit "4")) (SLit "2"))
     = SBin "+" (SLit "3") (SBin "*" (SLit "4") (SLit "2"))
  /\ evaluate_expression sample_libm "3 + 4 * 2" 0 false = Def (11%float, false)
  /\ direct_value sample_libm (Bin "%" (Par (Bin "-" (Lit 17.75) (Lit 0.5))) (Lit 5))
     = Some 2%float
  /\ regroup (SBin "+" (SLit "3") (SBin "*" (SLit "4") (SLit "2")))
     = SBin "+" (SLit "3") (SBin "*" (SLit "4") (SLit "2")).
Proof.
  split; [reflexivity|]. split; [reflexivity|]. split; [|split].
  - apply (proj1 (proj2 (proj2
             (proj1 (evaluate_matches_direct_evaluation sample_libm) " "%string
                (SBin "*" (SBin "+" (SLit "3") (SLit "4")) (SLit "2"))
                0%float eq_refl eq_refl
                ltac:(simpl; unfold MAX_TOKENS; lia))))
             11%float false); reflexivity.
  - apply (proj2 (proj1 (proj2 (proj2
             (evaluate_matches_direct_evaluation sample_libm)))
             "(17.75 - 0.5) % 5"%string 0%float
             (Bin "%" (Par (Bin "-" (Lit 17.75) (Lit 0.5))) (Lit 5))
             eq_refl eq_refl) 2%float false).
    reflexivity.
  - apply (proj1 (proj2 (evaluate_matches_direct_evaluation sample_libm))).
    reflexivity.
Defined.

(** C1 as the specification words it fails where a remainder is taken of
    an operand outside [int]: "10000000000 % 3" is grouped as the table
    says, within the buffer, and direct evaluation gives 1, but the cast
    of 10000000000 to [int] is undefined. *)
Lemma direct_evaluation_counterexample :
  well_formed (Bin "%" (Lit 10000000000) (Lit 3)) = true
  /\ tokenize sample_libm "10000000000 % 3" 0
     = Def (Some (infix (Bin "%" (Lit 10000000000) (Lit 3))))
  /\ direct_value sample_libm (Bin "%" (Lit 10000000000) (Lit 3)) = Some 1%float
  /\ remainders_in_int sample_libm (Bin "%" (Lit 10000000000) (Lit 3)) = false
  /\ evaluate_expression sample_libm "10000000000 % 3" 0 false
     = Undef FloatToInt.
Proof.
  repeat split; vm_compute; reflexivity.
Qed.

(** ** The other examples of the specification, run on the model *)

Example ans_is_the_last_result (libm : Libm) :
  evaluate_expression libm "Ans + 1" 10 false = Def (11%float, false).
Proof. vm_compute. reflexivity. Qed.

Example function_binds_tighter (libm : Libm) (last_result : float) :
  evaluate_expression libm "sqrt(16) + 1" last_result false
  = Def (5%float, false).
Proof. vm_compute. reflexivity. Qed.

Example subtraction_groups_to_the_left (libm : Libm) (last_result : float) :
  evaluate_expression libm "2 - 3 - 4" last_result false
  = Def ((-5)%float, false).
Proof. vm_compute. reflexivity. Qed.

Example factorial_of_5 (libm : Libm) (last_result : float) :
  evaluate_expression libm "fact(5)" last_result false
  = Def (120%float, false).
Proof. vm_compute. reflexivity. Qed.

Example factorial_outside_its_domain (libm : Libm) (last_result : float) :
  evaluate_expression libm "fact(2.5)" last_result false = Def (0%float, true)
  /\ evaluate_expression libm "fact(0 - 1)" last_result false
     = Def (0%float, true).
Proof. split; vm_compute; reflexivity. Qed.

Example function_without_operand (libm : Libm) (last_result : float) :
  evaluate_expression libm "sqrt()" last_result false = Def (0%float, true).
Proof. vm_compute. reflexivity. Qed.

Example unknown_function (libm : Libm) (last_result : float) :
  evaluate_expression libm "foo(3)" last_result false = Def (0%float, true).
Proof. vm_compute. reflexivity. Qed.

Example leading_minus_is_refused (libm : Libm) (last_result : float) :
  evaluate_expression libm "-5 + 3" last_result false = Def (0%float, true).
Proof. vm_compute. reflexivity. Qed.

(** * The rest of the calculator *)

(** ** Expressions with function calls: the converter *)

Lemma call_emitted_pending (e : call_expr) :
  call_emitted e ++ call_pending e = call_postfix e.
Proof.
  induction e as [v|op l IHl r IHr|e IH|f e IH]; simpl.
  - reflexivity.
  - rewrite <- IHr, <- !app_assoc. reflexivity.
  - apply app_nil_r.
  - apply app_nil_r.
Qed.

Lemma call_postfix_length (e : call_expr) :
  (1 <= List.length (call_postfix e) <= List.length (call_infix e))%nat.
Proof.
  induction e as [v|op l IHl r IHr|e IH|f e IH]; simpl; rewrite ?length_app;
    simpl; rewrite ?length_app; simpl; lia.
Qed.

Lemma call_emitted_pending_length (e : call_expr) :
  (List.length (call_emitted e) + List.length (call_pending e)
   = List.length (call_postfix e))%nat.
Proof. rewrite <- call_emitted_pending, length_app. reflexivity. Qed.

Lemma call_well_formed_bin (op : ascii) (l r : call_expr) :
  call_well_formed (CBin op l r) = true <->
  is_operator_char op = true /\ call_well_formed l = true
  /\ call_well_formed r = true
  /\ precedence op <= call_level l /\ (precedence op = 3 -> 3 < call_level l)
  /\ precedence op <= call_level r
  /\ (precedence op <> 3 -> precedence op < call_level r).
Proof.
  simpl. split.
  - intros H.
    apply andb_prop in H. destruct H as [H Hlev].
    apply andb_prop in H. destruct H as [H Hr].
    apply andb_prop in H. destruct H as [Hop Hl].
    rewrite (precedence_right op Hop) in Hlev.
    destruct (Z.eqb_spec (precedence op) 3);
      apply andb_prop in Hlev; destruct Hlev as [H1 H2];
      repeat split; auto; lia.
  - intros (Hop & Hl & Hr & H1 & H2 & H3 & H4).
    rewrite Hop, Hl, Hr, (precedence_right op Hop). simpl.
    destruct (Z.eqb_spec (precedence op) 3); apply andb_true_intro; split;
      lia.
Qed.

Lemma call_pending_operators (e : call_expr) :
  call_well_formed e = true ->
  Forall (fun t => exists o, t = Operator o /\ is_operator_char o = true
                             /\ call_level e <= precedence o)
         (call_pending e).
Proof.
  induction e as [v|op l IHl r IHr|e IH|f e IH]; intros Hwf;
    try (simpl; constructor).
  apply call_well_formed_bin in Hwf.
  destruct Hwf as (Hop & Hl & Hr & L1 & L2 & R1 & R2).
  simpl call_pending. apply Forall_app. split.
  - eapply Forall_impl; [|apply IHr; assumption].
    intros t (o & -> & Ho & Hle). exists o. repeat split; auto. simpl. lia.
  - constructor; [|constructor]. exists op. repeat split; auto. simpl. lia.
Qed.

Lemma call_pending_not_paren (e : call_expr) :
  call_well_formed e = true ->
  forallb not_paren_left (call_pending e) = true.
Proof.
  intros Hwf. apply forallb_forall. intros t Hin.
  pose proof (call_pending_operators e Hwf) as HF.
  rewrite Forall_forall in HF. destruct (HF t Hin) as (o & -> & _). reflexivity.
Qed.

Lemma pops_before_spec (o o' : ascii) :
  is_operator_char o = true ->
  pops_before o (Operator o') = true <->
  precedence o < precedence o'
  \/ (precedence o = precedence o' /\ precedence o <> 3).
Proof.
  intros Ho. simpl. rewrite (precedence_right o Ho), Z.gtb_ltb.
  destruct (Z.ltb_spec (precedence o) (precedence o')) as [H1|H1];
    destruct (Z.eqb_spec (precedence o') (precedence o)) as [H2|H2];
    destruct (Z.eqb_spec (precedence o) 3) as [H3|H3]; simpl;
    split; intros HE; try reflexivity; try discriminate; lia.
Qed.

Lemma call_pending_left_pops (op : ascii) (l r : call_expr) :
  call_well_formed (CBin op l r) = true ->
  forallb (pops_before op) (call_pending l) = true.
Proof.
  intros Hwf. apply call_well_formed_bin in Hwf.
  destruct Hwf as (Hop & Hl & Hr & L1 & L2 & R1 & R2).
  apply forallb_forall. intros t Hin.
  pose proof (call_pending_operators l Hl) as HF.
  rewrite Forall_forall in HF. destruct (HF t Hin) as (o & -> & Ho & Hle).
  apply pops_before_spec; [assumption|].
  pose proof (precedence_operator o Ho). lia.
Qed.

Lemma call_holds_below_operator (op : ascii) (l r : call_expr)
    (stack : list Token) :
  call_well_formed (CBin op l r) = true ->
  holds_below (Operator op :: stack) (call_level r).
Proof.
  intros Hwf. apply call_well_formed_bin in Hwf.
  destruct Hwf as (Hop & Hl & Hr & L1 & L2 & R1 & R2).
  cbn [holds_below]. intros o Ho Hle.
  destruct (pops_before o (Operator op)) eqn:E; [|reflexivity].
  apply (pops_before_spec o op Ho) in E.
  pose proof (precedence_operator o Ho). lia.
Qed.

(** Reading [call_infix e] appends [call_emitted e] to the output and
    leaves [call_pending e] on the stack; a call leaves nothing. *)
Lemma to_postfix_loop_call (e : call_expr) :
  call_well_formed e = true ->
  forall rest stack out,
    holds_below stack (call_level e) ->
    (List.length stack + List.length (call_infix e) <= MAX_STACK)%nat ->
    (List.length out + List.length (call_infix e) <= MAX_TOKENS)%nat ->
    to_postfix_loop (call_infix e ++ rest) stack out
    = to_postfix_loop rest (call_pending e ++ stack) (out ++ call_emitted e).
Proof.
  induction e as [v|op l IHl r IHr|e IH|f e IH];
    intros Hwf rest stack out Hb Hs Ho.
  - simpl in *. rewrite store_def by lia. reflexivity.
  - pose proof (call_pending_left_pops op l r Hwf) as Hpops.
    pose proof (call_holds_below_operator op l r stack Hwf) as Hbr.
    pose proof (call_postfix_length l) as Hpl.
    pose proof (call_emitted_pending_length l) as Hel.
    apply call_well_formed_bin in Hwf.
    destruct Hwf as (Hop & Hwl & Hwr & L1 & L2 & R1 & R2).
    simpl in Hb, Hs, Ho. rewrite length_app in Hs, Ho. simpl in Hs, Ho.
    simpl call_infix. rewrite <- app_assoc. simpl app.
    rewrite IHl; [|assumption|eapply holds_below_weaken; eassumption|lia|lia].
    cbn [to_postfix_loop].
    rewrite pop_while_prefix; [|assumption|rewrite length_app; lia].
    rewrite pop_while_stop
      by (eapply holds_below_stop; [eassumption|assumption|lia]).
    simpl bind. rewrite push_def by lia. simpl bind.
    rewrite IHr; [|assumption|assumption|simpl; lia
                   |rewrite !length_app; lia].
    simpl call_emitted. simpl call_pending.
    rewrite <- (call_emitted_pending l), <- !app_assoc. reflexivity.
  - pose proof (call_pending_not_paren e Hwf) as Hnp.
    pose proof (call_postfix_length e) as Hpl.
    pose proof (call_emitted_pending_length e) as Hel.
    simpl in Hwf, Hs, Ho. rewrite length_app in Hs, Ho. simpl in Hs, Ho.
    simpl call_infix. cbn [app to_postfix_loop].
    rewrite push_def by lia. simpl bind. rewrite <- app_assoc.
    rewrite IH; [|assumption|exact I|simpl; lia|lia].
    cbn [app to_postfix_loop].
    rewrite pop_while_prefix; [|assumption|rewrite length_app; lia].
    rewrite pop_while_stop by reflexivity.
    simpl bind. simpl call_emitted. simpl call_pending. simpl app.
    rewrite <- app_assoc, call_emitted_pending.
    destruct stack as [|[v|o'|f| |] stack]; simpl in Hb; try contradiction;
      reflexivity.
  - pose proof (call_pending_not_paren e Hwf) as Hnp.
    pose proof (call_postfix_length e) as Hpl.
    pose proof (call_emitted_pending_length e) as Hel.
    simpl in Hwf, Hs, Ho. rewrite length_app in Hs, Ho. simpl in Hs, Ho.
    simpl call_infix. cbn [app to_postfix_loop].
    rewrite push_def by lia. simpl bind.
    rewrite push_def by (simpl; lia). simpl bind. rewrite <- app_assoc.
    rewrite IH; [|assumption|exact I|simpl; lia|lia].
    cbn [app to_postfix_loop].
    rewrite pop_while_prefix; [|assumption|rewrite length_app; lia].
    rewrite pop_while_stop by reflexivity.
    simpl bind.
    rewrite store_def by (rewrite !length_app; lia). simpl bind.
    simpl call_emitted. simpl call_pending. simpl app.
    rewrite <- !app_assoc. rewrite (app_assoc (call_emitted e)).
    rewrite call_emitted_pending. reflexivity.
Qed.

(** X1.  The converter turns the infix tokens of every expression built
    from numbers, operators, parentheses and function calls, grouped as
    the precedence table says and of at most MAX_TOKENS tokens, into its
    postfix form: operands first, each operator and each function name
    after what it applies to. *)
Theorem to_postfix_call_expr (e : call_expr) :
  call_well_formed e = true ->
  (List.length (call_infix e) <= MAX_TOKENS)%nat ->
  to_postfix (call_infix e) = Def (Some (call_postfix e)).
Proof.
  intros Hwf Hlen. unfold to_postfix.
  rewrite <- (app_nil_r (call_infix e)).
  rewrite to_postfix_loop_call;
    [|assumption|destruct e; exact I
     |unfold MAX_STACK, MAX_TOKENS in *; simpl; lia|simpl; lia].
  simpl to_postfix_loop. rewrite app_nil_r.
  pose proof (call_postfix_length e). pose proof (call_emitted_pending_length e).
  rewrite drain_operators; [|apply call_pending_not_paren; assumption|lia].
  rewrite call_emitted_pending. reflexivity.
Qed.

Lemma to_postfix_call_expr_witness :
  to_postfix
    [Function "sqrt"; ParenLeft; Number 16; ParenRight; Operator "+"; Number 1]
  = Def (Some [Number 16; Function "sqrt"; Number 1; Operator "+"]).
Proof.
  apply (to_postfix_call_expr (CBin "+" (CCall "sqrt" (CNum 16)) (CNum 1))).
  - reflexivity.
  - simpl. unfold MAX_TOKENS. lia.
Defined.

(** ** Expressions with function calls: the evaluator *)

Lemma eval_postfix_loop_call (libm : Libm) (e : call_expr) :
  forall rest stack error,
    (List.length stack + List.length (call_postfix e) <= MAX_STACK)%nat ->
    eval_postfix_loop libm (call_postfix e ++ rest) stack error
    = ('(v, error') <- call_eval libm e error ;;
       eval_postfix_loop libm rest (v :: stack) error').
Proof.
  induction e as [v|op l IHl r IHr|e IH|f e IH]; intros rest stack error Hlen.
  - simpl in *. rewrite push_def by lia. reflexivity.
  - pose proof (call_postfix_length l) as Hl.
    pose proof (call_postfix_length r) as Hr.
    simpl in Hlen. rewrite !length_app in Hlen. simpl in Hlen.
    simpl call_postfix. rewrite <- !app_assoc.
    rewrite IHl by lia. simpl call_eval. rewrite bind_assoc.
    destruct (call_eval libm l error) as [[a error1]|u]; simpl; [|reflexivity].
    rewrite IHr by (simpl; lia). rewrite bind_assoc.
    destruct (call_eval libm r error1) as [[b error2]|u]; simpl; reflexivity.
  - simpl in *. apply IH. assumption.
  - simpl in Hlen. rewrite length_app in Hlen. simpl in Hlen.
    simpl call_postfix. rewrite <- app_assoc.
    rewrite IH by lia. simpl call_eval. rewrite bind_assoc.
    destruct (call_eval libm e error) as [[a error1]|u]; simpl; reflexivity.
Qed.

(** X2.  On the postfix form of an expression of at most MAX_STACK tokens
    the evaluator returns what direct evaluation of the tree returns, value
    and error flag, operators through [apply_operator] and calls through
    [apply_function]. *)
Theorem eval_postfix_call_expr (libm : Libm) (e : call_expr) (error : bool) :
  (List.length (call_postfix e) <= MAX_STACK)%nat ->
  eval_postfix libm (call_postfix e) error = call_eval libm e error.
Proof.
  intros Hlen. unfold eval_postfix.
  rewrite <- (app_nil_r (call_postfix e)).
  rewrite eval_postfix_loop_call by (simpl; lia).
  simpl. apply bind_def_pair.
Qed.

Lemma eval_postfix_call_expr_witness :
  eval_postfix sample_libm
    [Number 16; Function "sqrt"; Number 1; Operator "+"] false
  = Def (5%float, false).
Proof.
  apply (eval_postfix_call_expr sample_libm
           (CBin "+" (CCall "sqrt" (CNum 16)) (CNum 1)) false).
  simpl. unfold MAX_STACK. lia.
Defined.

(** ** Expressions with function calls: the tokenizer *)

Section CallTextFacts.

Variable libm : Libm.

Lemma read_alpha_shorter (p : string) :
  isalpha (deref p) = true ->
  (String.length (snd (read_alpha p)) < String.length p)%nat.
Proof.
  destruct p as [|c r]; [discriminate|]. simpl deref. intros H.
  simpl. rewrite H. pose proof (read_alpha_length r) as Hl.
  destruct (read_alpha r) as [f r']. simpl in *. lia.
Qed.

Lemma tokenize_from_alpha (p : string) (tokens : list Token)
    (last_result : float) :
  isalpha (deref p) = true ->
  tokenize_from libm p tokens last_result
  = (let '(func, p') := read_alpha p in
     if (10 <=? String.length func)%nat then Undef OutOfBounds
     else
       tokens' <- store MAX_TOKENS tokens
                    (if (func =? "Ans")%string then Number last_result
                     else Function func) ;;
       tokenize_from libm p' tokens' last_result).
Proof.
  intros H. unfold tokenize_from at 1.
  rewrite tokenize_loop_alpha by assumption.
  pose proof (read_alpha_shorter p H) as Hlt.
  destruct (read_alpha p) as [func p']. simpl in Hlt.
  destruct (10 <=? String.length func)%nat; [reflexivity|].
  destruct (store MAX_TOKENS tokens
              (if (func =? "Ans")%string then Number last_result
               else Function func)); simpl; [|reflexivity].
  apply tokenize_loop_from. assumption.
Qed.

Lemma read_alpha_app (w rest : string) :
  string_forallb isalpha w = true -> isalpha (deref rest) = false ->
  read_alpha (w ++ rest) = (w, rest).
Proof.
  intros Hw Hr. induction w as [|c w IH]; simpl.
  - destruct rest as [|c r]; [reflexivity|]. simpl in *. rewrite Hr. reflexivity.
  - simpl in Hw. apply andb_prop in Hw. destruct Hw as [Hc Hw].
    rewrite Hc, IH by assumption. reflexivity.
Qed.

Lemma ends_token_inv (rest : string) :
  ends_token rest = true ->
  ends_literal rest = true /\ isalpha (deref rest) = false.
Proof.
  unfold ends_token, ends_literal. intros H. apply negb_true_iff in H.
  apply orb_false_elim in H. destruct H as [H Ha].
  apply orb_false_elim in H. destruct H as [Hd Hp].
  split; [|assumption]. rewrite Hd, Hp. simpl.
  repeat match goal with
         | |- context [(deref rest =? ?k)%char] =>
             destruct (Ascii.eqb_spec (deref rest) k) as [E|_];
             [rewrite E in Ha; discriminate|]
         end.
  reflexivity.
Qed.

Lemma ends_token_operator (sp q : string) (op : ascii) :
  string_forallb isspace sp = true -> is_operator_char op = true ->
  ends_token (sp ++ String op q) = true.
Proof.
  intros Hsp Hop. unfold ends_token. rewrite deref_app.
  destruct sp as [|c sp].
  - simpl. apply is_operator_char_cases in Hop.
    destruct Hop as [->|[->|[->|[->|[->| ->]]]]]; reflexivity.
  - simpl in Hsp. apply andb_prop in Hsp. destruct Hsp as [Hc _].
    assert (Hd : isdigit c = false).
    { destruct (isdigit c) eqn:E; [|reflexivity].
      apply isdigit_not_space in E. congruence. }
    assert (Ha : isalpha c = false).
    { destruct (isalpha c) eqn:E; [|reflexivity].
      apply isalpha_first in E. destruct E as (_ & E & _). congruence. }
    assert (Hp : (c =? ".")%char = false).
    { destruct (Ascii.eqb_spec c ".") as [->|]; [discriminate | reflexivity]. }
    rewrite Hd, Ha, Hp. reflexivity.
Qed.

Lemma function_name_inv (f : string) :
  function_name f = true ->
  string_forallb isalpha f = true /\ isalpha (deref f) = true
  /\ (10 <=? String.length f)%nat = false /\ (f =? "Ans")%string = false.
Proof.
  unfold function_name. intros H.
  apply andb_prop in H. destruct H as [H Hans].
  apply andb_prop in H. destruct H as [H H9].
  apply andb_prop in H. destruct H as [Hall H1].
  apply Nat.leb_le in H1, H9. apply negb_true_iff in Hans.
  repeat split; try assumption.
  - destruct f as [|c f]; [simpl in H1; lia|]. simpl in Hall.
    apply andb_prop in Hall. destruct Hall as [Hc _]. exact Hc.
  - apply Nat.leb_gt. lia.
Qed.

(** The tokens of a rendered expression are the infix form of its tree,
    with the last result in the place of every Ans. *)
Lemma tokenize_from_call_render (sp : string) (last_result : float)
    (e : call_source) :
  string_forallb isspace sp = true ->
  call_lexical e = true ->
  forall rest tokens,
    ends_token rest = true ->
    (List.length tokens + List.length (call_infix (call_tree last_result e))
     <= MAX_TOKENS)%nat ->
    tokenize_from libm (call_render sp e ++ rest) tokens last_result
    = tokenize_from libm rest
        (tokens ++ call_infix (call_tree last_result e)) last_result.
Proof.
  intros Hsp. induction e as [x| |op l IHl r IHr|e IH|f e IH];
    intros Hlex rest tokens He Hlen.
  - destruct (ends_token_inv rest He) as [Hel _].
    simpl in Hlex, Hlen. unfold numeric_literal in Hlex.
    apply andb_prop in Hlex. destruct Hlex as [Hlex _].
    apply andb_prop in Hlex. destruct Hlex as [Hstart Hall].
    simpl call_render.
    rewrite tokenize_from_number by (apply starts_number_app; assumption).
    rewrite store_def by lia. simpl bind.
    rewrite sscanf_lf_app, skip_number_app by assumption. reflexivity.
  - destruct (ends_token_inv rest He) as [_ Hea].
    simpl in Hlen. simpl call_render.
    rewrite tokenize_from_alpha by reflexivity.
    rewrite (read_alpha_app "Ans" rest) by (auto; reflexivity).
    simpl. rewrite store_def by lia. reflexivity.
  - simpl in Hlex.
    apply andb_prop in Hlex. destruct Hlex as [Hlex Hr].
    apply andb_prop in Hlex. destruct Hlex as [Hop Hl].
    simpl in Hlen. rewrite length_app in Hlen. simpl in Hlen.
    simpl call_render. rewrite !string_app_assoc. simpl append.
    rewrite string_app_assoc.
    rewrite IHl; [|assumption|apply ends_token_operator; assumption|lia].
    rewrite tokenize_from_spaces by assumption.
    rewrite tokenize_from_operator by assumption.
    rewrite store_def by (rewrite length_app; lia). simpl bind.
    rewrite tokenize_from_spaces by assumption.
    rewrite IHr; [|assumption|assumption|rewrite !length_app; simpl; lia].
    simpl. rewrite <- !app_assoc. reflexivity.
  - simpl in Hlex, Hlen. rewrite length_app in Hlen. simpl in Hlen.
    simpl call_render. simpl append. rewrite tokenize_from_paren_left.
    rewrite store_def by lia. simpl bind.
    rewrite string_app_assoc.
    rewrite IH; [|assumption|reflexivity|rewrite length_app; simpl; lia].
    simpl append. rewrite tokenize_from_paren_right.
    rewrite store_def by (rewrite !length_app; simpl; lia). simpl bind.
    simpl. rewrite <- !app_assoc. reflexivity.
  - simpl in Hlex. apply andb_prop in Hlex. destruct Hlex as [Hf Hlex].
    destruct (function_name_inv f Hf) as (Hall & Hfirst & H10 & Hans).
    simpl in Hlen. rewrite length_app in Hlen. simpl in Hlen.
    simpl call_render. rewrite string_app_assoc.
    rewrite tokenize_from_alpha by (rewrite deref_app; destruct f; [discriminate | exact Hfirst]).
    rewrite read_alpha_app by (auto; reflexivity).
    rewrite H10, Hans. rewrite store_def by lia. simpl bind.
    simpl append. rewrite tokenize_from_paren_left.
    rewrite store_def by (rewrite length_app; simpl; lia). simpl bind.
    rewrite string_app_assoc.
    rewrite IH; [|assumption|reflexivity|rewrite !length_app; simpl; lia].
    simpl append. rewrite tokenize_from_paren_right.
    rewrite store_def by (rewrite !length_app; simpl; lia). simpl bind.
    simpl. rewrite <- !app_assoc. reflexivity.
Qed.

(** The tokens of a spelled text are the tokens of its lexemes. *)
Lemma tokenize_from_spell (last_result : float) (tail : string)
    (ls : list (string * lexeme)) :
  string_forallb isspace tail = true ->
  forall tokens,
    spelled_ok ls = true ->
    separated ls tail = true ->
    (List.length tokens + List.length ls <= MAX_TOKENS)%nat ->
    tokenize_from libm (spell ls tail) tokens last_result
    = Def (Some (tokens ++ map (token_of last_result) (map snd ls))).
Proof.
  intros Htail. induction ls as [|[sp l] ls IH]; intros tokens Hok Hsep Hlen.
  - simpl. rewrite <- (string_app_nil_r tail).
    rewrite tokenize_from_spaces by assumption.
    rewrite app_nil_r. reflexivity.
  - simpl in Hok, Hsep, Hlen.
    apply andb_prop in Hok. destruct Hok as [Hok Hls].
    apply andb_prop in Hok. destruct Hok as [Hsp Hl].
    apply andb_prop in Hsep. destruct Hsep as [Hend Hsep].
    simpl spell. rewrite tokenize_from_spaces by assumption.
    assert (Hnext : forall t,
               tokenize_from libm (spell ls tail) (tokens ++ [t]) last_result
               = Def (Some (tokens ++ t :: map (token_of last_result)
                                             (map snd ls)))).
    { intros t. rewrite IH; [|assumption|assumption|rewrite length_app; simpl; lia].
      rewrite <- app_assoc. reflexivity. }
    destruct l as [x| |f|op| |]; simpl spelling; simpl map.
    + simpl in Hl. unfold numeric_literal in Hl.
      apply andb_prop in Hl. destruct Hl as [Hl _].
      apply andb_prop in Hl. destruct Hl as [Hstart Hall].
      rewrite tokenize_from_number by (apply starts_number_app; assumption).
      rewrite store_def by lia. simpl bind.
      rewrite sscanf_lf_app, skip_number_app by assumption. apply Hnext.
    + apply negb_true_iff in Hend.
      rewrite tokenize_from_alpha by reflexivity.
      rewrite (read_alpha_app "Ans" (spell ls tail)) by (auto; reflexivity).
      simpl. rewrite store_def by lia. simpl bind. apply Hnext.
    + apply negb_true_iff in Hend.
      destruct (function_name_inv f Hl) as (Hall & Hfirst & H10 & Hans).
      rewrite tokenize_from_alpha
        by (rewrite deref_app; destruct f; [discriminate | exact Hfirst]).
      rewrite read_alpha_app by assumption.
      rewrite H10, Hans. rewrite store_def by lia. simpl bind. apply Hnext.
    + simpl append. rewrite tokenize_from_operator by exact Hl.
      rewrite store_def by lia. simpl bind. apply Hnext.
    + simpl append. rewrite tokenize_from_paren_left.
      rewrite store_def by lia. simpl bind. apply Hnext.
    + simpl append. rewrite tokenize_from_paren_right.
      rewrite store_def by lia. simpl bind. apply Hnext.
Qed.

End CallTextFacts.

(** The tokenizer on the text of an expression tree written with the same
    white space on both sides of every operator. *)
Lemma tokenize_call_render (libm : Libm) (sp : string) (e : call_source)
    (last_result : float) :
  string_forallb isspace sp = true ->
  call_lexical e = true ->
  (List.length (call_infix (call_tree last_result e)) <= MAX_TOKENS)%nat ->
  tokenize libm (call_render sp e) last_result
  = Def (Some (call_infix (call_tree last_result e))).
Proof.
  intros Hsp Hlex Hlen.
  pose proof (string_app_nil_r (call_render sp e)) as Happ.
  change (tokenize libm (call_render sp e) last_result)
    with (tokenize_from libm (call_render sp e) [] last_result).
  rewrite <- Happ.
  rewrite tokenize_from_call_render by (simpl; auto).
  reflexivity.
Qed.

(** X3.  The tokenizer reads a text lexeme by lexeme.  A text of at most
    MAX_TOKENS lexemes (numeric literals, Ans, names of one to nine
    letters, operator characters, parentheses), each after any white
    space, with any white space at the end, every literal and every word
    followed by something that cannot continue it, is turned into the
    tokens of its lexemes in order: the value of the literal for a
    literal, the last result for Ans, the name for a name.  Neither the
    amount of white space nor its place changes the tokens. *)
Theorem tokenize_spelled_text (libm : Libm) (ls : list (string * lexeme))
    (tail : string) (last_result : float) :
  spelled_ok ls = true ->
  string_forallb isspace tail = true ->
  separated ls tail = true ->
  (List.length ls <= MAX_TOKENS)%nat ->
  tokenize libm (spell ls tail) last_result
  = Def (Some (map (token_of last_result) (map snd ls)))
  /\ forall ls' tail',
       spelled_ok ls' = true ->
       string_forallb isspace tail' = true ->
       separated ls' tail' = true ->
       map snd ls' = map snd ls ->
       tokenize libm (spell ls' tail') last_result
       = tokenize libm (spell ls tail) last_result.
Proof.
  intros Hok Htail Hsep Hlen.
  assert (Hrun : forall l t,
             spelled_ok l = true -> string_forallb isspace t = true ->
             separated l t = true -> (List.length l <= MAX_TOKENS)%nat ->
             tokenize libm (spell l t) last_result
             = Def (Some (map (token_of last_result) (map snd l)))).
  { intros l t Hl Ht Hs Hn.
    change (tokenize libm (spell l t) last_result)
      with (tokenize_from libm (spell l t) [] last_result).
    rewrite (tokenize_from_spell libm last_result t l Ht [] Hl Hs)
      by (simpl; lia).
    reflexivity. }
  split; [apply Hrun; assumption|].
  intros ls' tail' Hok' Htail' Hsep' Hsame.
  rewrite (Hrun ls tail) by assumption.
  rewrite (Hrun ls' tail'); [rewrite Hsame; reflexivity|assumption..|].
  rewrite <- (length_map snd), Hsame, length_map. assumption.
Qed.

Lemma tokenize_spelled_text_witness :
  spell [("  ", LName "sqrt"); ("", LOpen); (" ", LAns); ("", LOp "+");
         ("   ", LNum "1.5"); (" ", LClose); ("", LOp "*"); ("", LNum "2")]%string
    " "%string
  = "  sqrt( Ans+   1.5 )*2 "%string
  /\ tokenize sample_libm "  sqrt( Ans+   1.5 )*2 " 7
     = Def (Some [Function "sqrt"; ParenLeft; Number 7; Operator "+";
                  Number 1.5; ParenRight; Operator "*"; Number 2]).
Proof.
  split; [reflexivity|].
  apply (proj1 (tokenize_spelled_text sample_libm
           [("  ", LName "sqrt"); ("", LOpen); (" ", LAns); ("", LOp "+");
            ("   ", LNum "1.5"); (" ", LClose); ("", LOp "*"); ("", LNum "2")]%string
           " "%string 7%float eq_refl eq_refl eq_refl
           ltac:(simpl; unfold MAX_TOKENS; lia))).
Defined.

(** X4.  End to end: for the text of every expression with literals, Ans,
    operators, parentheses and function calls, grouped as the precedence
    table says and of at most MAX_TOKENS tokens, [evaluate_expression]
    returns the value and the error flag that the calculator's operators
    and functions give along the tree ([call_eval]), with Ans standing for
    the last result. *)
Theorem evaluate_call_render (libm : Libm) (sp : string) (e : call_source)
    (last_result : float) (error : bool) :
  string_forallb isspace sp = true ->
  call_lexical e = true ->
  call_well_formed (call_tree last_result e) = true ->
  (List.length (call_infix (call_tree last_result e)) <= MAX_TOKENS)%nat ->
  evaluate_expression libm (call_render sp e) last_result error
  = call_eval libm (call_tree last_result e) error.
Proof.
  intros Hsp Hlex Hwf Hlen.
  pose proof (call_postfix_length (call_tree last_result e)) as Hpl.
  pose proof (call_emitted_pending_length (call_tree last_result e)) as Hel.
  unfold evaluate_expression.
  pose proof (string_app_nil_r (call_render sp e)) as Happ.
  change (tokenize libm (call_render sp e) last_result)
    with (tokenize_from libm (call_render sp e) [] last_result).
  rewrite <- Happ, tokenize_from_call_render by (simpl; auto).
  simpl bind. unfold to_postfix.
  rewrite <- (app_nil_r (call_infix (call_tree last_result e))).
  rewrite to_postfix_loop_call;
    [|assumption|destruct (call_tree last_result e); exact I
     |unfold MAX_STACK, MAX_TOKENS in *; simpl; lia|simpl; lia].
  simpl to_postfix_loop. rewrite app_nil_r.
  rewrite drain_operators; [|apply call_pending_not_paren; assumption|lia].
  rewrite call_emitted_pending. simpl bind.
  unfold eval_postfix.
  rewrite <- (app_nil_r (call_postfix (call_tree last_result e))).
  rewrite eval_postfix_loop_call
    by (unfold MAX_STACK, MAX_TOKENS in *; simpl; lia).
  simpl. apply bind_def_pair.
Qed.

Lemma evaluate_call_render_witness :
  evaluate_expression sample_libm "sqrt(Ans + 1.5) * 2" 7.5 false
  = Def (6%float, false).
Proof.
  apply (evaluate_call_render sample_libm " "
           (KBin "*" (KCall "sqrt" (KBin "+" KAns (KLit "1.5"))) (KLit "2"))
           7.5%float false); try reflexivity.
  simpl. unfold MAX_TOKENS. lia.
Defined.

(** ** The converter and the evaluator stay inside their arrays *)

Lemma drain_defined (stack : list Token) :
  forall out,
    (List.length out + List.length stack <= MAX_TOKENS)%nat ->
    exists r, drain stack out = Def r
              /\ forall post, r = Some post ->
                   (List.length post <= List.length out + List.length stack)%nat.
Proof.
  induction stack as [|t stack IH]; intros out Hlen.
  - exists (Some out). split; [reflexivity|].
    intros post E. injection E as <-. simpl. lia.
  - simpl. destruct (TokenType_eqb (type t) PAREN_LEFT).
    + exists None. split; [reflexivity | discriminate].
    + simpl in Hlen. rewrite store_def by lia. simpl.
      destruct (IH (out ++ [t])) as (r & Hr & Hpost).
      { rewrite length_app. simpl. lia. }
      exists r. split; [assumption|].
      intros post E. specialize (Hpost post E).
      rewrite length_app in Hpost. simpl in *. lia.
Qed.

Lemma pops_before_paren (o : ascii) (t : Token) :
  is_paren_left t = true -> pops_before o t = false.
Proof. intros H. apply is_paren_left_inv in H. subst t. reflexivity. Qed.

Lemma not_paren_left_paren (t : Token) :
  is_paren_left t = true -> not_paren_left t = false.
Proof.
  intros H. unfold not_paren_left. fold (is_paren_left t). rewrite H. reflexivity.
Qed.

Lemma to_postfix_loop_defined (ts : list Token) :
  forall stack out,
    (List.length out + List.length stack + List.length ts <= MAX_TOKENS)%nat ->
    exists r,
      to_postfix_loop ts stack out = Def r
      /\ forall post, r = Some post ->
           (List.length post
            <= List.length out + List.length stack + List.length ts)%nat.
Proof.
  induction ts as [|t rest IH]; intros stack out Hlen.
  - simpl in *. destruct (drain_defined stack out) as (r & Hr & Hp); [lia|].
    exists r. split; [assumption|]. intros post E. specialize (Hp post E). lia.
  - simpl in Hlen. destruct t as [v|o|f| |]; cbn [to_postfix_loop].
    + rewrite store_def by lia. simpl.
      destruct (IH stack (out ++ [Number v])) as (r & Hr & Hp).
      { rewrite length_app. simpl. lia. }
      exists r. split; [assumption|]. intros post E. specialize (Hp post E).
      rewrite length_app in Hp. simpl in *. lia.
    + destruct (pop_while_keeps_parens (pops_before o) (pops_before_paren o))
        with (stack := stack) (out := out)
        as (stack' & out' & Hpop & _ & Hl & _); [lia|].
      rewrite Hpop. simpl.
      rewrite push_def by (unfold MAX_STACK, MAX_TOKENS in *; lia). simpl.
      destruct (IH (Operator o :: stack') out') as (r & Hr & Hp);
        [simpl; lia|].
      exists r. split; [assumption|]. intros post E. specialize (Hp post E).
      simpl in *. lia.
    + rewrite push_def by (unfold MAX_STACK, MAX_TOKENS in *; lia). simpl.
      destruct (IH (Function f :: stack) out) as (r & Hr & Hp); [simpl; lia|].
      exists r. split; [assumption|]. intros post E. specialize (Hp post E).
      simpl in *. lia.
    + rewrite push_def by (unfold MAX_STACK, MAX_TOKENS in *; lia). simpl.
      destruct (IH (ParenLeft :: stack) out) as (r & Hr & Hp); [simpl; lia|].
      exists r. split; [assumption|]. intros post E. specialize (Hp post E).
      simpl in *. lia.
    + destruct (pop_while_keeps_parens not_paren_left not_paren_left_paren)
        with (stack := stack) (out := out)
        as (stack' & out' & Hpop & _ & Hl & _); [lia|].
      rewrite Hpop. simpl.
      destruct stack' as [|t stack'].
      { exists None. split; [reflexivity | discriminate]. }
      simpl in Hl.
      destruct stack' as [|[v|o|f| |] stack3];
        try (match goal with
             | |- exists r, to_postfix_loop rest ?s ?o = Def r /\ _ =>
                 destruct (IH s o) as (r & Hr & Hp); [simpl in *; lia|];
                 exists r; split; [assumption|]; intros post E;
                 specialize (Hp post E); simpl in *; lia
             end).
      rewrite store_def by (simpl in Hl; lia). simpl.
      destruct (IH stack3 (out' ++ [Function f])) as (r & Hr & Hp).
      { rewrite length_app. simpl in *. lia. }
      exists r. split; [assumption|]. intros post E. specialize (Hp post E).
      rewrite length_app in Hp. simpl in *. lia.
Qed.

Lemma double_to_int_undef (a : float) (u : ub) :
  double_to_int a = Undef u -> u = FloatToInt.
Proof.
  unfold double_to_int. destruct (truncate a) as [z|];
    [destruct ((INT_MIN <=? z) && (z <=? INT_MAX))|]; intros H; inversion H;
    reflexivity.
Qed.

Lemma apply_operator_undef (libm : Libm) (op : ascii) (a b : float)
    (error : bool) (u : ub) :
  apply_operator libm op a b error = Undef u ->
  u = FloatToInt \/ u = IntOverflow.
Proof.
  unfold apply_operator. intros H.
  repeat match type of H with
         | context [if ?c then _ else _] => destruct c
         | context [bind (double_to_int ?x) _] =>
             let E := fresh "E" in
             destruct (double_to_int x) eqn:E; simpl in H;
             [|apply double_to_int_undef in E]
         end; inversion H; subst; auto.
Qed.

Lemma apply_function_undef (libm : Libm) (func : string) (a : float)
    (error : bool) (u : ub) :
  apply_function libm func a error = Undef u ->
  u = FloatToInt \/ u = IntOverflow.
Proof.
  unfold apply_function, factorial. intros H.
  repeat match type of H with
         | context [if ?c then _ else _] => destruct c; simpl in H
         | context [bind (double_to_int ?x) _] =>
             let E := fresh "E" in
             destruct (double_to_int x) eqn:E; simpl in H;
             [|apply double_to_int_undef in E]
         end; inversion H; subst; auto.
Qed.

Lemma eval_postfix_loop_undef (libm : Libm) (tokens : list Token) :
  forall stack error u,
    (List.length stack + List.length tokens <= MAX_STACK)%nat ->
    eval_postfix_loop libm tokens stack error = Undef u ->
    u = FloatToInt \/ u = IntOverflow.
Proof.
  induction tokens as [|t rest IH]; intros stack error u Hlen H.
  - simpl in H. destruct stack as [|x [|y stack]]; discriminate.
  - simpl in Hlen.
    destruct t as [value|op|func| |]; cbn [eval_postfix_loop] in H.
    + rewrite push_def in H by lia. simpl in H.
      apply (IH _ _ _) in H; [assumption | simpl; lia].
    + destruct stack as [|b [|a stack]]; try discriminate.
      destruct (apply_operator libm op a b error) as [[r e']|u'] eqn:E;
        simpl in H.
      * apply (IH _ _ _) in H; [assumption | simpl in *; lia].
      * injection H as <-. apply (apply_operator_undef _ _ _ _ _ _ E).
    + destruct stack as [|a stack]; try discriminate.
      destruct (apply_function libm func a error) as [[r e']|u'] eqn:E;
        simpl in H.
      * apply (IH _ _ _) in H; [assumption | simpl in *; lia].
      * injection H as <-. apply (apply_function_undef _ _ _ _ _ E).
    + apply (IH _ _ _) in H; [assumption | lia].
    + apply (IH _ _ _) in H; [assumption | lia].
Qed.

(** X5.  Once [tokenize] has returned, nothing is stored outside an array:
    on at most MAX_TOKENS tokens the converter never overruns its stack or
    its output and returns no more tokens than it was given, and the
    evaluator never overruns its value stack; the only undefined behaviour
    left in [evaluate_expression] is that of the casts to int and of the
    integer arithmetic behind ['%'] and [fact]. *)
Theorem converter_and_evaluator_in_bounds (libm : Libm) (s : string)
    (last_result : float) (error : bool) (ts : list Token) :
  tokenize libm s last_result = Def (Some ts) ->
  (exists r, to_postfix ts = Def r
             /\ forall post, r = Some post ->
                  (List.length post <= List.length ts)%nat)
  /\ evaluate_expression libm s last_result error <> Undef OutOfBounds
  /\ forall u, evaluate_expression libm s last_result error = Undef u ->
               u = FloatToInt \/ u = IntOverflow.
Proof.
  intros Htok. pose proof (tokenize_length libm s last_result ts Htok) as Hlen.
  destruct (to_postfix_loop_defined ts [] []) as (r & Hr & Hp); [simpl; lia|].
  assert (Hu : forall u, evaluate_expression libm s last_result error = Undef u ->
                         u = FloatToInt \/ u = IntOverflow).
  { intros u. unfold evaluate_expression, to_postfix. rewrite Htok. simpl.
    rewrite Hr. simpl. destruct r as [post|]; [|discriminate].
    specialize (Hp post eq_refl). simpl in Hp.
    apply eval_postfix_loop_undef.
    unfold MAX_STACK, MAX_TOKENS in *. simpl. lia. }
  split; [|split].
  - exists r. split; [exact Hr|]. intros post E. specialize (Hp post E).
    simpl in Hp. lia.
  - intros H. destruct (Hu _ H); discriminate.
  - exact Hu.
Qed.

Lemma converter_and_evaluator_in_bounds_witness :
  tokenize sample_libm "1 ) 2 ( + sqrt" 0
  = Def (Some [Number 1; ParenRight; Number 2; ParenLeft; Operator "+";
               Function "sqrt"])
  /\ evaluate_expression sample_libm "1 ) 2 ( + sqrt" 0 false
     <> Undef OutOfBounds.
Proof.
  split; [reflexivity|].
  apply (converter_and_evaluator_in_bounds sample_libm "1 ) 2 ( + sqrt" 0 false
           [Number 1; ParenRight; Number 2; ParenLeft; Operator "+";
            Function "sqrt"]).
  reflexivity.
Defined.

(** ** The converter only rearranges *)

Lemma pop_while_split (cond : Token -> bool) (stack : list Token) :
  forall out stack' out',
    pop_while cond stack out = Def (stack', out') ->
    exists popped,
      stack = popped ++ stack' /\ out' = out ++ popped
      /\ forallb cond popped = true
      /\ match stack' with
         | [] => True
         | t :: _ => cond t = false
         end.
Proof.
  induction stack as [|t stack IH]; intros out stack' out' H.
  - simpl in H. injection H as <- <-. exists []. simpl.
    rewrite app_nil_r. auto.
  - simpl in H. destruct (cond t) eqn:Ec.
    + destruct (store MAX_TOKENS out t) as [out1|u] eqn:Es; simpl in H;
        [|discriminate].
      apply store_inv in Es. destruct Es as [-> _].
      destruct (IH _ _ _ H) as (popped & -> & -> & Hc & Hstop).
      exists (t :: popped). simpl. rewrite Ec, Hc, <- app_assoc. auto.
    + injection H as <- <-. exists []. simpl. rewrite app_nil_r. auto.
Qed.

Lemma drain_split (stack : list Token) :
  forall out post,
    drain stack out = Def (Some post) ->
    post = out ++ stack /\ forallb not_paren_left stack = true.
Proof.
  induction stack as [|t stack IH]; intros out post H.
  - simpl in H. injection H as <-. rewrite app_nil_r. auto.
  - simpl in H. destruct (TokenType_eqb (type t) PAREN_LEFT) eqn:Et;
      [discriminate|].
    destruct (store MAX_TOKENS out t) as [out1|u] eqn:Es; simpl in H;
      [|discriminate].
    apply store_inv in Es. destruct Es as [-> _].
    destruct (IH _ _ H) as [-> Hc].
    simpl. unfold not_paren_left at 1. rewrite Et, Hc, <- app_assoc. auto.
Qed.

Lemma filter_all {A : Type} (f : A -> bool) (l : list A) :
  forallb f l = true -> filter f l = l.
Proof.
  induction l as [|x l IH]; simpl; [reflexivity|]. intros H.
  apply andb_prop in H. destruct H as [-> H]. rewrite IH by assumption.
  reflexivity.
Qed.

Lemma filter_none {A : Type} (f : A -> bool) (l : list A) :
  forallb (fun x => negb (f x)) l = true -> filter f l = [].
Proof.
  induction l as [|x l IH]; simpl; [reflexivity|]. intros H.
  apply andb_prop in H. destruct H as [Hx H]. apply negb_true_iff in Hx.
  rewrite Hx. apply IH. assumption.
Qed.

Lemma forallb_app_inv {A : Type} (f : A -> bool) (l1 l2 : list A) :
  forallb f (l1 ++ l2) = true -> forallb f l1 = true /\ forallb f l2 = true.
Proof. rewrite forallb_app. apply andb_prop. Qed.

Lemma forallb_weaken {A : Type} (f g : A -> bool) (l : list A) :
  (forall x, f x = true -> g x = true) ->
  forallb f l = true -> forallb g l = true.
Proof.
  intros Hfg. induction l as [|x l IH]; simpl; [reflexivity|]. intros H.
  apply andb_prop in H. destruct H as [Hx H].
  rewrite (Hfg x Hx), IH by assumption. reflexivity.
Qed.

(** Tokens popped from a stack of operators, names and left parentheses,
    under a condition that spares the left parentheses, are no
    parentheses and no numbers. *)
Lemma popped_kept (cond : Token -> bool) (popped : list Token) :
  (forall t, is_paren_left t = true -> cond t = false) ->
  forallb stackable popped = true ->
  forallb cond popped = true ->
  filter not_paren popped = popped /\ filter is_number popped = [].
Proof.
  intros Hcond Hs Hc. induction popped as [|t popped IH]; simpl; [auto|].
  simpl in Hs, Hc.
  apply andb_prop in Hs. destruct Hs as [Ht Hs].
  apply andb_prop in Hc. destruct Hc as [Hct Hc].
  destruct (IH Hs Hc) as [IH1 IH2].
  destruct t as [v|o|f| |]; try discriminate; simpl; rewrite ?IH1, ?IH2; auto.
  rewrite (Hcond ParenLeft eq_refl) in Hct. discriminate.
Qed.

Lemma push_inv {A : Type} (stack stack1 : list A) (t : A) :
  push stack t = Def stack1 -> stack1 = t :: stack.
Proof.
  unfold push. destruct (List.length stack <? MAX_STACK)%nat; intros H;
    inversion H; reflexivity.
Qed.

Lemma to_postfix_loop_rearranges (ts : list Token) :
  forall stack out post,
    forallb stackable stack = true ->
    to_postfix_loop ts stack out = Def (Some post) ->
    Permutation post (out ++ filter not_paren stack ++ filter not_paren ts)
    /\ filter is_number post = filter is_number out ++ filter is_number ts.
Proof.
  induction ts as [|t rest IH]; intros stack out post Hst H.
  - simpl in H. apply drain_split in H. destruct H as [-> Hnp].
    destruct (popped_kept not_paren_left stack not_paren_left_paren Hst Hnp)
      as [E1 E2].
    simpl. rewrite E1, !app_nil_r, filter_app, E2, app_nil_r. auto.
  - destruct t as [v|o|f| |]; cbn [to_postfix_loop] in H.
    + destruct (store MAX_TOKENS out (Number v)) as [out1|u] eqn:Es;
        simpl in H; [|discriminate].
      apply store_inv in Es. destruct Es as [-> _].
      destruct (IH _ _ _ Hst H) as [P N]. split.
      * rewrite P. simpl. rewrite <- !app_assoc. apply Permutation_app_head.
        simpl. first [apply Permutation_middle
                     | apply Permutation_sym; apply Permutation_middle].
      * rewrite N, filter_app, <- app_assoc. reflexivity.
    + destruct (pop_while (pops_before o) stack out) as [[stack' out']|u] eqn:Ep;
        simpl in H; [|discriminate].
      apply pop_while_split in Ep. destruct Ep as (popped & -> & -> & Hc & _).
      apply forallb_app_inv in Hst. destruct Hst as [Hsp Hst'].
      destruct (popped_kept _ popped (pops_before_paren o) Hsp Hc) as [E1 E2].
      destruct (push stack' (Operator o)) as [stack1|u] eqn:Epush;
        simpl in H; [|discriminate].
      apply push_inv in Epush. subst stack1.
      destruct (IH (Operator o :: stack') (out ++ popped) post) as [P N];
        [simpl; assumption | assumption |]. split.
      * rewrite P. simpl. rewrite filter_app, E1, <- !app_assoc.
        apply Permutation_app_head. apply Permutation_app_head.
        first [apply Permutation_middle
              | apply Permutation_sym; apply Permutation_middle].
      * rewrite N, filter_app, E2, app_nil_r. reflexivity.
    + destruct (push stack (Function f)) as [stack1|u] eqn:Epush;
        simpl in H; [|discriminate].
      apply push_inv in Epush. subst stack1.
      destruct (IH (Function f :: stack) out post) as [P N];
        [simpl; assumption | assumption |]. split.
      * rewrite P. simpl. apply Permutation_app_head.
        first [apply Permutation_middle
              | apply Permutation_sym; apply Permutation_middle].
      * rewrite N. reflexivity.
    + destruct (push stack ParenLeft) as [stack1|u] eqn:Epush;
        simpl in H; [|discriminate].
      apply push_inv in Epush. subst stack1.
      destruct (IH (ParenLeft :: stack) out post) as [P N];
        [simpl; assumption | assumption |]. split.
      * rewrite P. reflexivity.
      * rewrite N. reflexivity.
    + destruct (pop_while not_paren_left stack out) as [[stack' out']|u] eqn:Ep;
        simpl in H; [|discriminate].
      apply pop_while_split in Ep.
      destruct Ep as (popped & -> & -> & Hc & Hstop).
      apply forallb_app_inv in Hst. destruct Hst as [Hsp Hst'].
      destruct (popped_kept _ popped not_paren_left_paren Hsp Hc) as [E1 E2].
      destruct stack' as [|t stack']; [discriminate|].
      simpl in Hst'. apply andb_prop in Hst'. destruct Hst' as [_ Hst'].
      unfold not_paren_left in Hstop. fold (is_paren_left t) in Hstop.
      apply negb_false_iff in Hstop. apply is_paren_left_inv in Hstop. subst t.
      assert (Hplain :
                to_postfix_loop rest stack' (out ++ popped) = Def (Some post) ->
                Permutation post
                  (out ++ filter not_paren (popped ++ ParenLeft :: stack')
                   ++ filter not_paren (ParenRight :: rest))
                /\ filter is_number post
                   = filter is_number out ++ filter is_number (ParenRight :: rest)).
      { intros H'. destruct (IH _ _ _ Hst' H') as [P N]. split.
        - rewrite P. simpl. rewrite filter_app, E1. simpl.
          rewrite <- !app_assoc. reflexivity.
        - rewrite N, filter_app, E2, app_nil_r. reflexivity. }
      destruct stack' as [|[v|o|f| |] stack3]; try (apply Hplain; exact H).
      destruct (store MAX_TOKENS (out ++ popped) (Function f)) as [out1|u] eqn:Es;
        simpl in H; [|discriminate].
      apply store_inv in Es. destruct Es as [-> _].
      simpl in Hst'.
      destruct (IH _ _ _ Hst' H) as [P N]. split.
      * rewrite P. simpl. rewrite filter_app, E1. simpl.
        rewrite <- !app_assoc. reflexivity.
      * rewrite N, !filter_app, E2. simpl. rewrite !app_nil_r. reflexivity.
Qed.

(** X6.  Whenever the converter succeeds, its output is a rearrangement
    of the input tokens without the parentheses: nothing is lost or
    invented, no parenthesis is emitted, and the numbers come out in the
    order in which they went in. *)
Theorem to_postfix_rearranges (ts post : list Token) :
  to_postfix ts = Def (Some post) ->
  Permutation post (filter not_paren ts)
  /\ filter is_number post = filter is_number ts
  /\ forallb not_paren post = true
  /\ List.length post = List.length (filter not_paren ts).
Proof.
  intros H. unfold to_postfix in H.
  destruct (to_postfix_loop_rearranges ts [] [] post eq_refl H) as [P N].
  simpl in P, N. split; [exact P|]. split; [exact N|]. split.
  - apply forallb_forall. intros t Hin.
    apply (Permutation_in _ P) in Hin. apply filter_In in Hin. apply Hin.
  - apply Permutation_length. exact P.
Qed.

Lemma to_postfix_rearranges_witness :
  Permutation
    [Number 1; Number 2; Number 3; Operator "*"; Function "sqrt"; Operator "+"]
    [Number 1; Operator "+"; Function "sqrt"; Number 2; Operator "*"; Number 3]
  /\ to_postfix [Number 1; Operator "+"; Function "sqrt"; ParenLeft; Number 2;
                 Operator "*"; Number 3; ParenRight]
     = Def (Some [Number 1; Number 2; Number 3; Operator "*"; Function "sqrt";
                  Operator "+"]).
Proof.
  split; [|reflexivity].
  apply (to_postfix_rearranges
           [Number 1; Operator "+"; Function "sqrt"; ParenLeft; Number 2;
            Operator "*"; Number 3; ParenRight]).
  reflexivity.
Defined.

(** ** What the tokenizer produces *)

Lemma read_alpha_letters (p : string) :
  string_forallb isalpha (fst (read_alpha p)) = true.
Proof.
  induction p as [|c r IH]; simpl; [reflexivity|].
  destruct (isalpha c) eqn:E; [|reflexivity].
  destruct (read_alpha r) as [f r']. simpl in *. rewrite E, IH. reflexivity.
Qed.

Lemma read_alpha_nonempty (p : string) :
  isalpha (deref p) = true -> (1 <= String.length (fst (read_alpha p)))%nat.
Proof.
  destruct p as [|c r]; [discriminate|]. simpl. intros ->.
  destruct (read_alpha r). simpl. lia.
Qed.

Lemma tokenize_loop_tokens_ok (libm : Libm) (fuel : nat) :
  forall p tokens last_result ts,
    forallb token_ok tokens = true ->
    tokenize_loop libm fuel p tokens last_result = Def (Some ts) ->
    forallb token_ok ts = true.
Proof.
  induction fuel as [|fuel IH]; intros p tokens lr ts Hok H; [discriminate|].
  assert (Hstore : forall t q,
             token_ok t = true ->
             (tokens' <- store MAX_TOKENS tokens t ;;
              tokenize_loop libm fuel q tokens' lr) = Def (Some ts) ->
             forallb token_ok ts = true).
  { intros t q Ht. destruct (store MAX_TOKENS tokens t) as [tokens'|u] eqn:E;
      simpl; [|discriminate].
    apply store_inv in E. destruct E as [-> _].
    apply IH. rewrite forallb_app, Hok. simpl. rewrite Ht. reflexivity. }
  cbn [tokenize_loop] in H.
  destruct (deref p =? NUL)%char; [injection H as <-; assumption|].
  destruct (isspace (deref p)); [apply (IH _ _ _ _ Hok H)|].
  destruct (isdigit (deref p) || (deref p =? ".")%char && isdigit (deref (advance p)));
    [apply (Hstore (Number (sscanf_lf libm p)) _ eq_refl H)|].
  destruct (isalpha (deref p)) eqn:Ea.
  { pose proof (read_alpha_letters p) as Hl.
    pose proof (read_alpha_nonempty p Ea) as Hn.
    destruct (read_alpha p) as [func p']. simpl in Hl, Hn.
    destruct (Nat.leb_spec 10 (String.length func)) as [|H9]; [discriminate|].
    destruct (func =? "Ans")%string eqn:Eans;
      [apply (Hstore (Number lr) _ eq_refl H)|].
    apply (Hstore (Function func) p'); [|exact H].
    cbn [token_ok]. unfold function_name. rewrite Hl, Eans.
    destruct (Nat.leb_spec 1 (String.length func)); [|lia].
    destruct (Nat.leb_spec (String.length func) 9); [reflexivity | lia]. }
  destruct (deref p =? "(")%char; [apply (Hstore ParenLeft _ eq_refl H)|].
  destruct (deref p =? ")")%char; [apply (Hstore ParenRight _ eq_refl H)|].
  destruct (is_operator_char (deref p)) eqn:Eo;
    [apply (Hstore (Operator (deref p)) _ Eo H)|].
  discriminate.
Qed.

(** X7.  Every token that [tokenize] returns is well formed: an operator
    token carries one of + - * / % ^ (so its precedence is 1, 2 or 3 and
    [apply_operator] never reaches its default case on it), and a function
    token carries a name of one to nine letters other than Ans. *)
Theorem tokenize_tokens_ok (libm : Libm) (s : string) (last_result : float)
    (ts : list Token) :
  tokenize libm s last_result = Def (Some ts) ->
  forallb token_ok ts = true
  /\ (forall o, In (Operator o) ts -> 1 <= precedence o <= 3)
  /\ (forall f, In (Function f) ts ->
                string_forallb isalpha f = true
                /\ (1 <= String.length f <= 9)%nat /\ f <> "Ans"%string).
Proof.
  intros H.
  assert (Hok : forallb token_ok ts = true).
  { apply (tokenize_loop_tokens_ok libm _ _ [] _ _ eq_refl H). }
  split; [exact Hok|].
  rewrite forallb_forall in Hok. split.
  - intros o Hin. apply precedence_operator. apply (Hok _ Hin).
  - intros f Hin. specialize (Hok _ Hin). simpl in Hok.
    unfold function_name in Hok.
    apply andb_prop in Hok. destruct Hok as [Hok Hans].
    apply andb_prop in Hok. destruct Hok as [Hok H9].
    apply andb_prop in Hok. destruct Hok as [Hall H1].
    apply Nat.leb_le in H1, H9. apply negb_true_iff in Hans.
    apply String.eqb_neq in Hans. auto.
Qed.

Lemma tokenize_tokens_ok_witness :
  tokenize sample_libm "cos(Ans) ^ 2" 0
  = Def (Some [Function "cos"; ParenLeft; Number 0; ParenRight;
               Operator "^"; Number 2])
  /\ forallb token_ok [Function "cos"; ParenLeft; Number 0; ParenRight;
                       Operator "^"; Number 2] = true.
Proof.
  split; [reflexivity|].
  apply (tokenize_tokens_ok sample_libm "cos(Ans) ^ 2" 0). reflexivity.
Defined.

(** ** Names of ten letters or more *)

Lemma read_alpha_prefix (w rest : string) :
  string_forallb isalpha w = true ->
  (String.length w <= String.length (fst (read_alpha (w ++ rest))))%nat.
Proof.
  intros Hw. induction w as [|c w IH]; simpl; [lia|].
  simpl in Hw. apply andb_prop in Hw. destruct Hw as [Hc Hw].
  rewrite Hc. specialize (IH Hw).
  destruct (read_alpha (w ++ rest)). simpl in *. lia.
Qed.

(** X8.  A run of ten or more letters overruns the ten-byte buffer [func]:
    wherever the tokenizer meets it, whatever precedes and follows it, the
    call is undefined, and so is [evaluate_expression] when the run comes
    first in the text after any white space. *)
Theorem long_name_overruns_func (libm : Libm) (w : string) :
  string_forallb isalpha w = true ->
  (10 <= String.length w)%nat ->
  (forall rest tokens last_result,
      tokenize_from libm (w ++ rest) tokens last_result = Undef OutOfBounds)
  /\ (forall sp rest last_result error,
         string_forallb isspace sp = true ->
         tokenize libm (sp ++ w ++ rest) last_result = Undef OutOfBounds
         /\ evaluate_expression libm (sp ++ w ++ rest) last_result error
            = Undef OutOfBounds).
Proof.
  intros Hw Hlen.
  assert (Hfrom : forall rest tokens lr,
             tokenize_from libm (w ++ rest) tokens lr = Undef OutOfBounds).
  { intros rest tokens lr.
    assert (Hfirst : isalpha (deref (w ++ rest)) = true).
    { rewrite deref_app. destruct w as [|c w]; [simpl in Hlen; lia|].
      simpl in Hw. apply andb_prop in Hw. apply Hw. }
    rewrite tokenize_from_alpha by assumption.
    pose proof (read_alpha_prefix w rest Hw) as Hp.
    destruct (read_alpha (w ++ rest)) as [func p']. simpl in Hp.
    destruct (Nat.leb_spec 10 (String.length func)); [reflexivity | lia]. }
  split; [exact Hfrom|].
  intros sp rest lr error Hsp.
  assert (Htok : tokenize libm (sp ++ w ++ rest) lr = Undef OutOfBounds).
  { change (tokenize libm (sp ++ w ++ rest) lr)
      with (tokenize_from libm (sp ++ w ++ rest) [] lr).
    rewrite tokenize_from_spaces by assumption. apply Hfrom. }
  split; [exact Htok|].
  unfold evaluate_expression. rewrite Htok. reflexivity.
Qed.

Lemma long_name_overruns_func_witness :
  tokenize sample_libm " logarithms(2)" 0 = Undef OutOfBounds
  /\ tokenize sample_libm "logarithm(2)" 0
     = Def (Some [Function "logarithm"; ParenLeft; Number 2; ParenRight]).
Proof.
  split; [|reflexivity].
  apply (proj2 (long_name_overruns_func sample_libm "logarithms" eq_refl
                  ltac:(simpl; lia)) " "%string "(2)"%string 0%float false
           eq_refl).
Defined.

(** ** factorial *)

Lemma factorial_loop_last (k : nat) :
  forall i res,
    factorial_loop (S k) i res
    = (factorial_loop k i res * int_to_double (i + Z.of_nat k))%float.
Proof.
  induction k as [|k IH]; intros i res.
  - simpl. rewrite Z.add_0_r. reflexivity.
  - change (factorial_loop (S (S k)) i res)
      with (factorial_loop (S k) (i + 1) (res * int_to_double i)%float).
    rewrite IH. simpl factorial_loop.
    replace (i + 1 + Z.of_nat k) with (i + Z.of_nat (S k)) by lia.
    reflexivity.
Qed.

(** X9.  [factorial] is 1 at 0 and 1 and multiplies on by n + 1 in double
    arithmetic, one rounding per step; through [fact] the result is the
    exact integer n! for every n up to 22, and 23! is the first that is
    rounded. *)
Theorem factorial_steps_and_exact_range (libm : Libm) :
  factorial 0 = Def 1%float /\ factorial 1 = Def 1%float
  /\ (forall n, 1 <= n -> n + 1 < INT_MAX ->
        factorial (n + 1)
        = (r <- factorial n ;; Def (r * int_to_double (n + 1))%float))
  /\ (forall n error, (n <= 22)%nat ->
        exists r,
          apply_function libm "fact" (int_to_double (Z.of_nat n)) error
          = Def (r, error)
          /\ integer_value r = Some (factorial_Z n))
  /\ (exists r, factorial 23 = Def r /\ integer_value r <> Some (factorial_Z 23)).
Proof.
  split; [reflexivity|]. split; [reflexivity|]. split; [|split].
  - intros n H1 Hmax. unfold factorial.
    destruct (Z.ltb_spec (n + 1) 0); [lia|].
    destruct (Z.ltb_spec n 0); [lia|].
    destruct (Z.eqb_spec (n + 1) INT_MAX); [lia|].
    destruct (Z.eqb_spec n INT_MAX); [lia|].
    simpl bind.
    replace (Z.to_nat (n + 1 - 1)) with (S (Z.to_nat (n - 1))) by lia.
    rewrite factorial_loop_last.
    replace (2 + Z.of_nat (Z.to_nat (n - 1))) with (n + 1) by lia.
    reflexivity.
  - intros n error Hn.
    do 23 (destruct n as [|n];
           [eexists; split; [vm_compute; reflexivity | vm_compute; reflexivity]|]).
    lia.
  - eexists. split; [vm_compute; reflexivity|]. vm_compute. discriminate.
Qed.

Lemma factorial_steps_and_exact_range_witness :
  factorial 6 = Def 720%float
  /\ exists r, apply_function sample_libm "fact" 20 false = Def (r, false)
               /\ integer_value r = Some 2432902008176640000.
Proof.
  split.
  - apply (proj1 (proj2 (proj2 (factorial_steps_and_exact_range sample_libm))) 5);
      unfold INT_MAX; lia.
  - apply (proj1 (proj2 (proj2 (proj2 (factorial_steps_and_exact_range sample_libm))))
             20%nat false). lia.
Defined.

(** ** The error flag is only raised *)

Section FlagFacts.

Variable libm : Libm.

Lemma apply_operator_flag (op : ascii) (a b : float) (error : bool) :
  apply_operator libm op a b error
  = with_flag error (apply_operator libm op a b false).
Proof.
  destruct error; [|destruct (apply_operator libm op a b false) as [[v e]|u];
                    reflexivity].
  unfold apply_operator.
  repeat match goal with
         | |- context [if ?c then _ else _] => destruct c
         | |- context [bind ?m _] => destruct m; simpl
         end; reflexivity.
Qed.

Lemma apply_function_flag (func : string) (a : float) (error : bool) :
  apply_function libm func a error
  = with_flag error (apply_function libm func a false).
Proof.
  destruct error; [|destruct (apply_function libm func a false) as [[v e]|u];
                    reflexivity].
  unfold apply_function.
  repeat match goal with
         | |- context [if ?c then _ else _] => destruct c
         | |- context [bind ?m _] => destruct m; simpl
         end; reflexivity.
Qed.

Lemma with_flag_true_twice (r : outcome (float * bool)) :
  with_flag true (with_flag true r) = with_flag true r.
Proof. destruct r as [[v e]|u]; reflexivity. Qed.

Lemma eval_postfix_loop_flag (tokens : list Token) :
  forall stack,
    eval_postfix_loop libm tokens stack true
    = with_flag true (eval_postfix_loop libm tokens stack false).
Proof.
  induction tokens as [|t rest IH]; intros stack.
  - simpl. destruct stack as [|x [|y stack]]; reflexivity.
  - destruct t as [value|op|func| |]; cbn [eval_postfix_loop].
    + destruct (push stack value) as [stack'|u]; simpl; [apply IH | reflexivity].
    + destruct stack as [|b [|a stack]]; try reflexivity.
      rewrite (apply_operator_flag op a b true).
      destruct (apply_operator libm op a b false) as [[r [|]]|u]; simpl;
        [|apply IH|reflexivity].
      rewrite IH. symmetry. apply with_flag_true_twice.
    + destruct stack as [|a stack]; try reflexivity.
      rewrite (apply_function_flag func a true).
      destruct (apply_function libm func a false) as [[r [|]]|u]; simpl;
        [|apply IH|reflexivity].
      rewrite IH. symmetry. apply with_flag_true_twice.
    + apply IH.
    + apply IH.
Qed.

End FlagFacts.

(** X10.  The error flag is only ever raised and never read: a call
    entered with the flag already set returns the same value as on a clear
    flag, with the flag set; so the value that [evaluate_expression]
    returns never depends on the flag it is handed, and the flag it hands
    back is the one it was given or-ed with the errors of this call. *)
Theorem error_flag_is_only_raised (libm : Libm) (s : string)
    (last_result : float) (error : bool) :
  evaluate_expression libm s last_result error
  = with_flag error (evaluate_expression libm s last_result false).
Proof.
  destruct error.
  - unfold evaluate_expression.
    destruct (tokenize libm s last_result) as [[ts|]|u]; simpl;
      try reflexivity.
    destruct (to_postfix ts) as [[post|]|u]; simpl; try reflexivity.
    apply eval_postfix_loop_flag.
  - destruct (evaluate_expression libm s last_result false) as [[v e]|u];
      reflexivity.
Qed.

(** ** Names outside the registry *)

Section RegistryFacts.

Variable libm : Libm.

Lemma apply_function_unregistered (f : string) (a : float) (error : bool) :
  registered f = false ->
  apply_function libm f a error = Def (0%float, true).
Proof.
  unfold registered, registry. simpl. intros H.
  repeat (apply orb_false_elim in H; destruct H as [?E H]).
  unfold apply_function. rewrite E, E0, E1, E2, E3, E4, E5, E6, E7.
  reflexivity.
Qed.

Lemma call_eval_sticky (e : call_expr) :
  forall v error',
    call_eval libm e true = Def (v, error') -> error' = true.
Proof.
  induction e as [x|op l IHl r IHr|e IH|f e IH]; intros v error' H;
    simpl in H.
  - injection H as _ <-. reflexivity.
  - destruct (call_eval libm l true) as [[a e1]|u]; simpl in H;
      [|discriminate].
    specialize (IHl a e1 eq_refl). subst e1.
    destruct (call_eval libm r true) as [[b e2]|u]; simpl in H;
      [|discriminate].
    specialize (IHr b e2 eq_refl). subst e2.
    apply (apply_operator_sticky _ _ _ _ _ _ H).
  - apply (IH _ _ H).
  - destruct (call_eval libm e true) as [[a e1]|u]; simpl in H;
      [|discriminate].
    specialize (IH a e1 eq_refl). subst e1.
    apply (apply_function_sticky _ _ _ _ _ H).
Qed.

Lemma call_eval_unregistered (e : call_expr) :
  calls_unregistered e = true ->
  forall error v error',
    call_eval libm e error = Def (v, error') -> error' = true.
Proof.
  induction e as [x|op l IHl r IHr|e IH|f e IH]; intros Hc error v error' H;
    simpl in Hc, H.
  - discriminate.
  - destruct (call_eval libm l error) as [[a e1]|u] eqn:El; simpl in H;
      [|discriminate].
    destruct (call_eval libm r e1) as [[b e2]|u] eqn:Er; simpl in H;
      [|discriminate].
    assert (He2 : e2 = true).
    { apply orb_prop in Hc. destruct Hc as [Hc|Hc].
      - apply (IHl Hc) in El. subst e1. apply (call_eval_sticky _ _ _ Er).
      - apply (IHr Hc _ _ _ Er). }
    subst e2. apply (apply_operator_sticky _ _ _ _ _ _ H).
  - apply (IH Hc _ _ _ H).
  - destruct (call_eval libm e error) as [[a e1]|u] eqn:Ee; simpl in H;
      [|discriminate].
    destruct (registered f) eqn:Ef; simpl in Hc.
    + apply (IH Hc) in Ee. subst e1.
      apply (apply_function_sticky _ _ _ _ _ H).
    + rewrite (apply_function_unregistered f a e1 Ef) in H.
      injection H as _ <-. reflexivity.
Qed.

End RegistryFacts.

(** X11.  A name of one to nine letters outside the registry (sqrt, abs,
    ln, log, exp, fact, sin, cos, tan) is refused by the evaluator alone.
    For the text of an expression that calls such a name anywhere, grouped
    as the precedence table says and of at most MAX_TOKENS tokens: the
    tokenizer returns its tokens, the name among them as a Function token;
    the converter returns its postfix form; and the evaluation is an
    error: if [evaluate_expression] returns, the flag is set, and
    otherwise it has met an undefined cast or an [int] overflow of the
    arithmetic, never a refusal of the text.  The call itself returns 0
    with the flag set whatever its argument. *)
Theorem unregistered_name_is_an_error (libm : Libm) (sp : string)
    (e : call_source) (last_result : float) :
  string_forallb isspace sp = true ->
  call_lexical e = true ->
  call_well_formed (call_tree last_result e) = true ->
  (List.length (call_infix (call_tree last_result e)) <= MAX_TOKENS)%nat ->
  calls_unregistered (call_tree last_result e) = true ->
  tokenize libm (call_render sp e) last_result
  = Def (Some (call_infix (call_tree last_result e)))
  /\ (exists f, In (Function f) (call_infix (call_tree last_result e))
                /\ registered f = false)
  /\ to_postfix (call_infix (call_tree last_result e))
     = Def (Some (call_postfix (call_tree last_result e)))
  /\ (forall error v error',
         evaluate_expression libm (call_render sp e) last_result error
         = Def (v, error') ->
         error' = true)
  /\ (forall error u,
         evaluate_expression libm (call_render sp e) last_result error
         = Undef u ->
         u = FloatToInt \/ u = IntOverflow)
  /\ (forall f a error,
         registered f = false ->
         apply_function libm f a error = Def (0%float, true)).
Proof.
  intros Hsp Hlex Hwf Hlen Hun.
  pose proof (call_postfix_length (call_tree last_result e)) as Hpl.
  pose proof (call_emitted_pending_length (call_tree last_result e)) as Hel.
  assert (Htok : tokenize libm (call_render sp e) last_result
                 = Def (Some (call_infix (call_tree last_result e)))).
  { pose proof (string_app_nil_r (call_render sp e)) as Happ.
    change (tokenize libm (call_render sp e) last_result)
      with (tokenize_from libm (call_render sp e) [] last_result).
    rewrite <- Happ, tokenize_from_call_render by (simpl; auto).
    reflexivity. }
  assert (Hpost : to_postfix (call_infix (call_tree last_result e))
                  = Def (Some (call_postfix (call_tree last_result e)))).
  { unfold to_postfix.
    rewrite <- (app_nil_r (call_infix (call_tree last_result e))).
    rewrite to_postfix_loop_call;
      [|assumption|destruct (call_tree last_result e); exact I
       |unfold MAX_STACK, MAX_TOKENS in *; simpl; lia|simpl; lia].
    simpl to_postfix_loop. rewrite app_nil_r.
    rewrite drain_operators; [|apply call_pending_not_paren; assumption|lia].
    rewrite call_emitted_pending. reflexivity. }
  assert (Heval : forall error,
             evaluate_expression libm (call_render sp e) last_result error
             = eval_postfix libm (call_postfix (call_tree last_result e)) error).
  { intros error. unfold evaluate_expression. rewrite Htok. simpl bind.
    rewrite Hpost. reflexivity. }
  assert (Hcall : forall error,
             eval_postfix libm (call_postfix (call_tree last_result e)) error
             = call_eval libm (call_tree last_result e) error).
  { intros error. unfold eval_postfix.
    rewrite <- (app_nil_r (call_postfix (call_tree last_result e))).
    rewrite eval_postfix_loop_call
      by (unfold MAX_STACK, MAX_TOKENS in *; simpl; lia).
    simpl. apply bind_def_pair. }
  split; [exact Htok|]. split; [|split; [exact Hpost|split; [|split]]].
  - clear - Hun. induction (call_tree last_result e) as [x|op l IHl r IHr|c IH|f c IH];
      simpl in Hun.
    + discriminate.
    + apply orb_prop in Hun. destruct Hun as [H|H].
      * destruct (IHl H) as (f & Hin & Hf). exists f. split; [|assumption].
        simpl. apply in_or_app. left. assumption.
      * destruct (IHr H) as (f & Hin & Hf). exists f. split; [|assumption].
        simpl. apply in_or_app. right. right. assumption.
    + destruct (IH Hun) as (f & Hin & Hf). exists f. split; [|assumption].
      simpl. right. apply in_or_app. left. assumption.
    + destruct (registered f) eqn:Ef.
      * destruct (IH Hun) as (g & Hin & Hg). exists g. split; [|assumption].
        simpl. right. right. apply in_or_app. left. assumption.
      * exists f. split; [left; reflexivity | assumption].
  - intros error v error' H. rewrite Heval, Hcall in H.
    apply (call_eval_unregistered libm _ Hun _ _ _ H).
  - intros error u H. rewrite Heval in H. unfold eval_postfix in H.
    apply (eval_postfix_loop_undef libm
             (call_postfix (call_tree last_result e)) [] error u); [|exact H].
    unfold MAX_STACK, MAX_TOKENS in *. simpl. lia.
  - intros f a error Hf. apply apply_function_unregistered. assumption.
Qed.

Lemma unregistered_name_is_an_error_witness :
  call_render " " (KBin "+" (KLit "1") (KCall "sinh" (KLit "2")))
  = "1 + sinh(2)"%string
  /\ tokenize sample_libm "1 + sinh(2)" 0
     = Def (Some [Number 1; Operator "+"; Function "sinh"; ParenLeft;
                  Number 2; ParenRight])
  /\ evaluate_expression sample_libm "1 + sinh(2)" 0 false = Def (1%float, true).
Proof.
  split; [reflexivity|]. split; [|reflexivity].
  apply (proj1 (unregistered_name_is_an_error sample_libm " "
           (KBin "+" (KLit "1") (KCall "sinh" (KLit "2")))
           0%float eq_refl eq_refl eq_refl
           ltac:(simpl; unfold MAX_TOKENS; lia) eq_refl)).
Defined.

(** ** main *)

Section MainFacts.

Variable libm : Libm.

Lemma clean_cons (c : ascii) (l : string) :
  clean (String c l) = true ->
  (c =? NUL)%char = false /\ (c =? newline)%char = false /\ clean l = true.
Proof.
  unfold clean. simpl. intros H.
  apply andb_prop in H. destruct H as [Hc Hl].
  apply andb_prop in Hc. destruct Hc as [H0 Hn].
  apply negb_true_iff in H0, Hn. auto.
Qed.

Lemma read_line_newline (l rest : string) :
  forall n,
    clean l = true -> (String.length l < n)%nat ->
    read_line n (l ++ String newline rest) = ((l ++ String newline "")%string, rest).
Proof.
  induction l as [|c l IH]; intros n Hc Hn.
  - destruct n as [|n]; [simpl in Hn; lia|]. reflexivity.
  - destruct n as [|n]; [lia|]. simpl in Hn.
    apply clean_cons in Hc. destruct Hc as (_ & Hnl & Hc).
    simpl. rewrite Hnl, IH by (assumption || lia). reflexivity.
Qed.

Lemma read_line_full (l rest : string) :
  clean l = true ->
  read_line (String.length l) (l ++ rest) = (l, rest).
Proof.
  induction l as [|c l IH]; intros Hc; [reflexivity|].
  apply clean_cons in Hc. destruct Hc as (_ & Hnl & Hc).
  simpl. rewrite Hnl, IH by assumption. reflexivity.
Qed.

Lemma c_line_clean (l rest : string) :
  clean l = true ->
  c_line (l ++ String newline rest) = l /\ c_line l = l.
Proof.
  induction l as [|c l IH]; intros Hc; [split; reflexivity|].
  apply clean_cons in Hc. destruct Hc as (H0 & Hnl & Hc).
  destruct (IH Hc) as [E1 E2].
  simpl. rewrite H0, Hnl, E1, E2. split; reflexivity.
Qed.

Lemma c_line_idempotent (input : string) : c_line (c_line input) = c_line input.
Proof.
  induction input as [|c r IH]; [reflexivity|]. simpl.
  destruct ((c =? NUL)%char || (c =? newline)%char) eqn:E; [reflexivity|].
  simpl. rewrite E, IH. reflexivity.
Qed.

(** One round of the loop on a line that fits the buffer. *)
Lemma main_loop_line (fuel : nat) (l rest input : string)
    (last_result : float) (out : list event) :
  clean l = true -> (String.length l <= 254)%nat ->
  main_loop libm (S fuel) (l ++ String newline rest) input last_result out
  = if (l =? "q")%string || (l =? "Q")%string
    then Exit (out ++ [Prompt; Goodbye])
    else if (l =? "c")%string || (l =? "C")%string
    then main_loop libm fuel rest l last_result (out ++ [Prompt; ClearScreen])
    else
      match evaluate_expression libm l last_result false with
      | Undef u => Stuck u (out ++ [Prompt])
      | Def (result, error) =>
          if error
          then main_loop libm fuel rest l last_result (out ++ [Prompt; PrintError])
          else main_loop libm fuel rest l result (out ++ [Prompt; PrintResult result])
      end.
Proof.
  intros Hc Hlen. cbn [main_loop]. unfold fgets.
  assert (Hne : exists c r, (l ++ String newline rest)%string = String c r).
  { destruct l; simpl; eauto. }
  destruct Hne as (c & r & Hne). rewrite Hne, <- Hne. clear c r Hne.
  change (256 - 1)%nat with 255%nat.
  rewrite read_line_newline by (assumption || lia).
  destruct (c_line_clean l EmptyString Hc) as [E _]. rewrite E.
  destruct ((l =? "q")%string || (l =? "Q")%string);
    [rewrite <- app_assoc; reflexivity|].
  destruct ((l =? "c")%string || (l =? "C")%string);
    [rewrite <- app_assoc; reflexivity|].
  destruct (evaluate_expression libm l last_result false) as [[r [|]]|u];
    rewrite <- ?app_assoc; reflexivity.
Qed.

End MainFacts.

(** X12.  A session typed as lines of at most 254 characters and ended by
    the quit command is processed line by line: every line is evaluated
    on its own with Ans standing for the result of the last line that
    evaluated without error (0 at the start), an error or a clear-screen
    command leaves Ans as it was, and nothing that follows the quit
    command is read. *)
Theorem main_runs_line_by_line (libm : Libm) (lines : list string) :
  forallb ordinary_line lines = true ->
  forall quit rest input last_result out fuel,
    quit = "q"%string \/ quit = "Q"%string ->
    (List.length lines < fuel)%nat ->
    main_loop libm fuel (typed lines ++ quit ++ String newline rest)
      input last_result out
    = session libm lines last_result out.
Proof.
  induction lines as [|l ls IH];
    intros Hord quit rest input lr out fuel Hq Hfuel;
    (destruct fuel as [|fuel]; [simpl in Hfuel; lia|]).
  - simpl typed. simpl append.
    rewrite main_loop_line by (destruct Hq as [-> | ->]; simpl; auto; lia).
    destruct Hq as [-> | ->]; reflexivity.
  - simpl in Hord, Hfuel. apply andb_prop in Hord. destruct Hord as [Hl Hls].
    unfold ordinary_line in Hl.
    apply andb_prop in Hl. destruct Hl as [Hl HQ].
    apply andb_prop in Hl. destruct Hl as [Hl Hq'].
    apply andb_prop in Hl. destruct Hl as [Hc Hlen].
    apply Nat.leb_le in Hlen. apply negb_true_iff in HQ, Hq'.
    simpl typed. rewrite string_app_assoc. simpl append.
    rewrite main_loop_line by assumption.
    rewrite Hq', HQ. simpl orb. cbv iota. simpl session.
    destruct ((l =? "c")%string || (l =? "C")%string).
    + apply IH; [assumption | assumption | lia].
    + destruct (evaluate_expression libm l lr false) as [[r [|]]|u];
        [apply IH; [assumption | assumption | lia]
        |apply IH; [assumption | assumption | lia]
        |reflexivity].
Qed.

Lemma main_runs_line_by_line_witness :
  main sample_libm 4
    (typed ["2 * 3"; "Ans / 0"; "Ans + 1"]%string
     ++ "q" ++ String newline "1 + 1")%string
    ""%string
  = Exit [Banner; Prompt; PrintResult 6%float; Prompt; PrintError;
          Prompt; PrintResult 7%float; Prompt; Goodbye].
Proof.
  unfold main.
  rewrite (main_runs_line_by_line sample_libm
             ["2 * 3"; "Ans / 0"; "Ans + 1"]%string
             eq_refl "q"%string "1 + 1"%string ""%string 0%float [Banner] 4
             (or_introl eq_refl) ltac:(simpl; lia)).
  reflexivity.
Defined.

(** X13.  At end of file [fgets] stores nothing and the line just
    processed is processed again: unless that line is the quit command,
    [main] never returns, however many rounds it is given. *)
Theorem main_never_returns_at_end_of_file (libm : Libm) (fuel : nat) :
  forall input last_result out out',
    (c_line input =? "q")%string = false ->
    (c_line input =? "Q")%string = false ->
    main_loop libm fuel EmptyString input last_result out <> Exit out'.
Proof.
  induction fuel as [|fuel IH]; intros input lr out out' Hq HQ;
    [discriminate|].
  cbn [main_loop fgets]. rewrite Hq, HQ. simpl orb. cbv iota.
  assert (Hq2 : (c_line (c_line input) =? "q")%string = false)
    by (rewrite c_line_idempotent; exact Hq).
  assert (HQ2 : (c_line (c_line input) =? "Q")%string = false)
    by (rewrite c_line_idempotent; exact HQ).
  destruct ((c_line input =? "c")%string || (c_line input =? "C")%string);
    [apply IH; assumption|].
  destruct (evaluate_expression libm (c_line input) lr false) as [[r [|]]|u];
    [apply IH; assumption | apply IH; assumption | discriminate].
Qed.

Lemma main_never_returns_at_end_of_file_witness :
  main_loop sample_libm 3 ""%string "1 + 1"%string 0%float []
  = Running [Prompt; PrintResult 2%float; Prompt; PrintResult 2%float;
             Prompt; PrintResult 2%float]
  /\ main_loop sample_libm 3 ""%string "1 + 1"%string 0%float [] <> Exit [].
Proof.
  split; [reflexivity|].
  apply (main_never_returns_at_end_of_file sample_libm 3 "1 + 1"%string
           0%float [] []); reflexivity.
Defined.

(** X14.  The buffer takes 255 characters: of a longer line the first 255
    characters are evaluated as an expression of their own, and the rest
    of the line is read as the next expression. *)
Theorem main_splits_long_lines (libm : Libm) (fuel : nat) (l rest input : string)
    (last_result : float) (out : list event) :
  clean l = true -> String.length l = 255%nat ->
  main_loop libm (S fuel) (l ++ rest) input last_result out
  = match evaluate_expression libm l last_result false with
    | Undef u => Stuck u (out ++ [Prompt])
    | Def (result, error) =>
        if error
        then main_loop libm fuel rest l last_result (out ++ [Prompt; PrintError])
        else main_loop libm fuel rest l result (out ++ [Prompt; PrintResult result])
    end.
Proof.
  intros Hc Hlen. cbn [main_loop]. unfold fgets.
  assert (Hne : exists c r, (l ++ rest)%string = String c r).
  { destruct l; [discriminate|]. simpl. eauto. }
  destruct Hne as (c & r & Hne). rewrite Hne, <- Hne. clear c r Hne.
  change (256 - 1)%nat with 255%nat. rewrite <- Hlen.
  rewrite read_line_full by assumption.
  destruct (c_line_clean l EmptyString Hc) as [_ E]. rewrite E.
  assert (Hcmd : forall k, (String.length k <= 1)%nat -> (l =? k)%string = false).
  { intros k Hk. apply String.eqb_neq. intros ->. lia. }
  rewrite !Hcmd by (simpl; lia). simpl orb. cbv iota.
  destruct (evaluate_expression libm l last_result false) as [[r [|]]|u];
    rewrite <- ?app_assoc; reflexivity.
Qed.

Lemma main_splits_long_lines_witness :
  main_loop sample_libm 3
    ((repeat_char 253 " "%char ++ "12") ++ "34" ++ String newline ("q" ++ String newline ""))%string
    ""%string 0%float []
  = Exit [Prompt; PrintResult 12%float; Prompt; PrintResult 34%float;
          Prompt; Goodbye].
Proof.
  rewrite (main_splits_long_lines sample_libm 2
             (repeat_char 253 " "%char ++ "12")%string
             ("34" ++ String newline ("q" ++ String newline ""))%string
             ""%string 0%float [] eq_refl eq_refl).
  vm_compute. reflexivity.
Defined.
